(** * EchoSignRealtime: the sentence predictor (window buffer and KNN search)

    A shallow embedding of [src/sentence_predictor.h] and of the parts of
    [src/main.cpp] that drive it (the sentence button and the confidence
    score), with the properties of the window buffer, of the kept-K
    nearest-neighbour list, of the majority vote and of the confidence
    score as binary32 arithmetic computes it; then the rest of the two
    files: the recording progress and the remaining time, the scaling
    of the raw readings, the signals and the serial commands, and the
    passes of [loop()].

    Data are modelled the way the C++ code holds them:
    - [float] is IEEE-754 binary32, as [spec_float] with precision 24 and
      maximal exponent 128, rounded to nearest even by the operations of
      [SpecFloat];
    - [uint32_t] time stamps are [Z] with subtraction written modulo 2^32;
    - [uint8_t] counters are [nat] with the increment written modulo 256;
    - fixed-size arrays are lists, read with [nth] and written by index. *)

From Stdlib Require Import ZArith List Bool Lia Arith PeanoNat Ascii.
From Stdlib Require Import Floats.SpecFloat.
From Stdlib Require Import Sorting.Sorted Sorting.Permutation.
From Stdlib Require Import QArith Qpower.
Import ListNotations.
Close Scope Q_scope.
Close Scope Z_scope.
Open Scope nat_scope.

(* ================================================================== *)
(** * Single-precision floats *)
(* ================================================================== *)

(** The C type [float]. *)
Abbreviation float := spec_float.

Module F32.

Definition prec : Z := 24.
Definition emax : Z := 128.

Definition add : float -> float -> float := SFadd prec emax.
Definition sub : float -> float -> float := SFsub prec emax.
Definition mul : float -> float -> float := SFmul prec emax.
Definition div : float -> float -> float := SFdiv prec emax.
Definition sqrtf : float -> float := SFsqrt prec emax.

(** The C comparisons [a < b] and [a <= b]; both are false when an
    operand is a NaN. *)
Definition ltb : float -> float -> bool := SFltb.
Definition leb : float -> float -> bool := SFleb.
Definition eqb : float -> float -> bool := SFeqb.

(** Conversion [(float) n] of an integer. *)
Definition of_Z (n : Z) : float := binary_normalize prec emax n 0 false.

Definition zero : float := S754_zero false.
Definition one : float := Eval vm_compute in of_Z 1.

(** The literal [1e9], which is exact in binary32 (15625000 * 2^6). *)
Definition lit_1e9 : float := Eval vm_compute in of_Z 1000000000.

(** The literal [999999.0f] (15999984 * 2^-4). *)
Definition lit_999999 : float := Eval vm_compute in of_Z 999999.

Definition is_nan (x : float) : bool :=
  match x with S754_nan => true | _ => false end.

End F32.

(** The operations stay folded under [simpl]; they evaluate by
    [vm_compute]. *)
Arguments F32.ltb : simpl never.
Arguments F32.leb : simpl never.
Arguments F32.eqb : simpl never.
Arguments F32.add : simpl never.
Arguments F32.sub : simpl never.
Arguments F32.mul : simpl never.
Arguments F32.div : simpl never.
Arguments F32.sqrtf : simpl never.
Arguments F32.of_Z : simpl never.

(* ================================================================== *)
(** * Machine integers and arrays *)
(* ================================================================== *)

(** [a - b] on [uint32_t]: the difference of two [millis()] readings. *)
Definition u32_sub (a b : Z) : Z := ((a - b) mod 2 ^ 32)%Z.

(** [i++] on [uint8_t]. *)
Definition u8_incr (i : nat) : nat := (i + 1) mod 256.

(** [a[i] = x] on a fixed-size array.  An index past the end is undefined
    behaviour in C++; here such a write leaves the array as it is, and
    the invariants below show that the predictor never performs one. *)
Fixpoint array_set {A : Type} (a : list A) (i : nat) (x : A) : list A :=
  match a, i with
  | [], _ => []
  | _ :: r, O => x :: r
  | y :: r, S j => y :: array_set r j x
  end.

(* ================================================================== *)
(** * sentence_predictor.h: the window buffer *)
(* ================================================================== *)

Definition SENTENCE_WINDOW_DURATION_MS : Z := 4000.
Definition SENTENCE_SAMPLE_RATE_HZ : Z := 20.
Definition SENTENCE_SAMPLES_PER_WINDOW : nat := 80.
Definition SENTENCE_SAMPLE_INTERVAL_MS : Z := 1000 / SENTENCE_SAMPLE_RATE_HZ.

Record SensorSample : Type := mkSample {
  f1 : float; f2 : float; f3 : float; f4 : float; f5 : float;
  gdp : float;
  ax : float; ay : float; az : float;
  gx : float; gy : float; gz : float
}.

(** What [memset(.., 0, ..)] leaves in a sample: twelve times [+0.0f]. *)
Definition zero_sample : SensorSample :=
  mkSample F32.zero F32.zero F32.zero F32.zero F32.zero F32.zero
           F32.zero F32.zero F32.zero F32.zero F32.zero F32.zero.

Record SentencePredictor : Type := mkPredictor {
  buffer : list SensorSample;
  bufferIndex : nat;
  lastSampleTime : Z;
  bufferFilled : bool;
  isRecording : bool;
  recordingStartTime : Z
}.

(** The constructor; the object is a global of [main.cpp], so its buffer
    starts zeroed. *)
Definition SentencePredictor_new : SentencePredictor :=
  {| buffer := repeat zero_sample SENTENCE_SAMPLES_PER_WINDOW;
     bufferIndex := 0;
     lastSampleTime := 0;
     bufferFilled := false;
     isRecording := false;
     recordingStartTime := 0 |}.

(** [startRecording()]; [now] is the value [millis()] returns. *)
Definition startRecording (now : Z) (p : SentencePredictor)
  : SentencePredictor :=
  {| buffer := repeat zero_sample SENTENCE_SAMPLES_PER_WINDOW;
     bufferIndex := 0;
     lastSampleTime := lastSampleTime p;
     bufferFilled := false;
     isRecording := true;
     recordingStartTime := now |}.

Definition recording (p : SentencePredictor) : bool := isRecording p.

(** [getRemainingTime()]. *)
Definition getRemainingTime (now : Z) (p : SentencePredictor) : Z :=
  if negb (isRecording p) then 0%Z
  else
    let elapsed := u32_sub now (recordingStartTime p) in
    if (SENTENCE_WINDOW_DURATION_MS <=? elapsed)%Z then 0%Z
    else (SENTENCE_WINDOW_DURATION_MS - elapsed)%Z.

(** Arduino's [min(a, b)], the macro [((a) < (b) ? (a) : (b))]. *)
Definition arduino_min (a b : float) : float := if F32.ltb a b then a else b.

(** [std::min(a, b)], which the cores that drop the macro put in its
    place: [(b < a) ? b : a]. *)
Definition std_min (a b : float) : float := if F32.ltb b a then b else a.

(** [getRecordingProgress()]; [now] is the value [millis()] returns. *)
Definition getRecordingProgress (now : Z) (p : SentencePredictor) : float :=
  if negb (isRecording p) then F32.zero
  else
    let elapsed := u32_sub now (recordingStartTime p) in
    arduino_min F32.one
      (F32.div (F32.of_Z elapsed) (F32.of_Z SENTENCE_WINDOW_DURATION_MS)).

(** [addSample(f1, .., gz)]: the new state and the returned flag; [now]
    is the value [millis()] returns.  [store_sample] is the block that
    writes the twelve fields at the cursor, stamps [lastSampleTime] and
    advances the cursor; [mark_filled] is the pair of assignments made
    before each [return true]. *)
Definition store_sample (now : Z) (x : SensorSample) (p : SentencePredictor)
  : SentencePredictor :=
  {| buffer := array_set (buffer p) (bufferIndex p) x;
     bufferIndex := u8_incr (bufferIndex p);
     lastSampleTime := now;
     bufferFilled := bufferFilled p;
     isRecording := isRecording p;
     recordingStartTime := recordingStartTime p |}.

Definition mark_filled (p : SentencePredictor) : SentencePredictor :=
  {| buffer := buffer p;
     bufferIndex := bufferIndex p;
     lastSampleTime := lastSampleTime p;
     bufferFilled := true;
     isRecording := false;
     recordingStartTime := recordingStartTime p |}.

Definition addSample (now : Z) (x : SensorSample) (p : SentencePredictor)
  : SentencePredictor * bool :=
  if negb (isRecording p) then (p, false)
  else if (u32_sub now (lastSampleTime p) <? SENTENCE_SAMPLE_INTERVAL_MS)%Z
  then (p, false)
  else
    let p' := store_sample now x p in
    if SENTENCE_SAMPLES_PER_WINDOW <=? bufferIndex p' then
      (mark_filled p', true)
    else if (SENTENCE_WINDOW_DURATION_MS
               <=? u32_sub now (recordingStartTime p'))%Z then
      (mark_filled p', true)
    else (p', false).

(** [reset()]. *)
Definition reset (p : SentencePredictor) : SentencePredictor :=
  {| buffer := buffer p;
     bufferIndex := 0;
     lastSampleTime := lastSampleTime p;
     bufferFilled := false;
     isRecording := false;
     recordingStartTime := recordingStartTime p |}.

(* ================================================================== *)
(** * sentence_predictor.h: flattening, KNN search and vote *)
(* ================================================================== *)

(** One entry of the kept-K list: [nearestDist[j]] and [nearestLabels[j]].
    The code keeps two parallel arrays and always writes both at the same
    index; they are held here as one array of pairs. *)
Definition Neighbor : Type := (float * nat)%type.

(** What a read past the end of the kept list gives here (undefined
    behaviour in C++); the properties below are about lists of K >= 1
    entries, where every read is in bounds. *)
Definition nb_default : Neighbor := (F32.zero, 0).

(** The twelve fields of a sample, in the order [predict] copies them. *)
Definition sample_fields (s : SensorSample) : list float :=
  [f1 s; f2 s; f3 s; f4 s; f5 s; gdp s; ax s; ay s; az s; gx s; gy s; gz s].

(** The flattening loop of [predict]: sample-major, feature-minor. *)
Definition flatten_buffer (b : list SensorSample) : list float :=
  flat_map sample_fields (firstn SENTENCE_SAMPLES_PER_WINDOW b).

(** The reverse scan [while (pos > 0 && dist < nearestDist[pos - 1]) pos--]. *)
Fixpoint find_pos (dist : float) (nearest : list Neighbor) (pos : nat) : nat :=
  match pos with
  | O => O
  | S q =>
      if F32.ltb dist (fst (nth q nearest nb_default))
      then find_pos dist nearest q
      else pos
  end.

(** The shift loop [for (j = hi; j > pos; j--) a[j] = a[j - 1]], with [n]
    iterations left ([n = hi - pos]). *)
Fixpoint shift_right (nearest : list Neighbor) (pos n : nat) : list Neighbor :=
  match n with
  | O => nearest
  | S m =>
      let j := pos + n in
      shift_right (array_set nearest j (nth (j - 1) nearest nb_default)) pos m
  end.

(** The body of [if (dist < nearestDist[K-1]) { ... }] for one reference
    row, on a kept list of [K] entries. *)
Definition insert_neighbor (K : nat) (nearest : list Neighbor)
  (dist : float) (label : nat) : list Neighbor :=
  if F32.ltb dist (fst (nth (K - 1) nearest nb_default)) then
    let pos := find_pos dist nearest (K - 1) in
    array_set (shift_right nearest pos (K - 1 - pos)) pos (dist, label)
  else nearest.

(** One vote, [votes[label]++] on a [uint8_t] counter.  A label that is
    not below the number of counters makes the source write outside
    [votes[]], which C++ leaves undefined; here the counters are then
    left as they are.  The labels the loop reads are those of the kept
    list, which are class indices when the labels table holds class
    indices ([labels_in_range], [kept_labels_in_range]); what is stated
    about the vote and about a prediction is stated for such tables. *)
Definition vote_step (votes : list nat) (label : nat) : list nat :=
  array_set votes label (u8_incr (nth label votes 0)).

(** The vote counters after the loop over the kept labels, from
    [votes[] = {0}]. *)
Definition count_votes (num_classes : nat) (labels : list nat) : list nat :=
  fold_left vote_step labels (repeat 0 num_classes).

(** The scan for the label with most votes; the state is
    [(bestLabel, maxVotes)], and [bestLabel = i] narrows [i] to [uint8_t]. *)
Definition best_step (votes : list nat) (st : nat * nat) (i : nat)
  : nat * nat :=
  let '(bestLabel, maxVotes) := st in
  if maxVotes <? nth i votes 0 then (i mod 256, nth i votes 0)
  else (bestLabel, maxVotes).

Definition best_label (num_classes : nat) (votes : list nat) : nat :=
  fst (fold_left (best_step votes) (seq 0 num_classes) (0, 0)).

Definition majority_vote (num_classes : nat) (labels : list nat) : nat :=
  best_label num_classes (count_votes num_classes labels).

(** One call on the predictor, with the clock reading it sees. *)
Inductive Op : Type :=
| OpStart (now : Z)
| OpAdd (now : Z) (x : SensorSample)
| OpPredict
| OpReset.

(** Calls that neither start nor reset a recording. *)
Definition quiet_op (o : Op) : Prop :=
  match o with OpAdd _ _ | OpPredict => True | _ => False end.

(** Calls other than [addSample]. *)
Definition no_add_op (o : Op) : Prop :=
  match o with OpAdd _ _ => False | _ => True end.

(** The constants and tables of [sentence_knn_model.h] and the
    standardisation of [sentence_scaler_params.h], which the build
    generates from the training data; the predictor is written against
    them, whatever their values. *)
Record SentenceModel : Type := mkModel {
  SENTENCE_KNN_N_NEIGHBORS : nat;
  SENTENCE_KNN_N_SAMPLES : nat;
  SENTENCE_KNN_N_FEATURES : nat;
  SENTENCE_NUM_CLASSES : nat;
  SENTENCE_TRAINING_DATA : list float;
  SENTENCE_TRAINING_LABELS : list nat;
  standardizeSentenceFeatures : list float -> list float
}.

Section Model.

Variable M : SentenceModel.

(** The distance loop for reference row [i]: the sum of the squared
    differences, accumulated in row order, then [sqrtf]. *)
Definition row_distance (query : list float) (i : nat) : float :=
  F32.sqrtf
    (fold_left
       (fun dist d =>
          let train_val :=
            nth (i * (SENTENCE_KNN_N_FEATURES M) + d) (SENTENCE_TRAINING_DATA M)
                F32.zero in
          let diff := F32.sub (nth d query F32.zero) train_val in
          F32.add dist (F32.mul diff diff))
       (seq 0 (SENTENCE_KNN_N_FEATURES M)) F32.zero).

(** The (distance, label) pair the search computes for reference row [i]. *)
Definition row_entry (query : list float) (i : nat) : Neighbor :=
  (row_distance query i, nth i (SENTENCE_TRAINING_LABELS M) 0).

(** All rows, in dataset order. *)
Definition all_rows (query : list float) : list Neighbor :=
  map (row_entry query) (seq 0 (SENTENCE_KNN_N_SAMPLES M)).

(** The kept-K list as initialised: [K] times [(1e9, 0)]. *)
Definition sentinel : Neighbor := (F32.lit_1e9, 0).

Definition init_nearest : list Neighbor :=
  repeat sentinel (SENTENCE_KNN_N_NEIGHBORS M).

(** The search loop over the rows given, from a kept list. *)
Definition scan_rows (rows : list Neighbor) (nearest : list Neighbor)
  : list Neighbor :=
  fold_left
    (fun nearest r =>
       insert_neighbor (SENTENCE_KNN_N_NEIGHBORS M) nearest (fst r) (snd r))
    rows nearest.

(** The kept-K list after the loop over all [N] rows. *)
Definition knn_nearest (query : list float) : list Neighbor :=
  scan_rows (all_rows query) init_nearest.

(** [predictSentenceKNN(query, outMeanDist)]: the label returned and the
    value written through [outMeanDist]. *)
Definition predictSentenceKNN (query : list float) : nat * float :=
  let nearest := knn_nearest query in
  let bestLabel := majority_vote (SENTENCE_NUM_CLASSES M) (map snd nearest) in
  let sumDist := fold_left F32.add (map fst nearest) F32.zero in
  (bestLabel,
   F32.div sumDist (F32.of_Z (Z.of_nat (SENTENCE_KNN_N_NEIGHBORS M)))).

(** [predict(meanDistance)]: the state after the call, the label returned
    and the value written through the pointer. *)
Definition predict (p : SentencePredictor)
  : SentencePredictor * (nat * float) :=
  if negb (bufferFilled p) then (p, (0, F32.lit_999999))
  else
    let features := flatten_buffer (buffer p) in
    (p, predictSentenceKNN (standardizeSentenceFeatures M features)).

(** A session: a sequence of calls on the predictor. *)
Definition step (p : SentencePredictor) (o : Op) : SentencePredictor :=
  match o with
  | OpStart now => startRecording now p
  | OpAdd now x => fst (addSample now x p)
  | OpPredict =>
      fst (predict p)
  | OpReset => reset p
  end.

Definition run (ops : list Op) (p : SentencePredictor) : SentencePredictor :=
  fold_left step ops p.

End Model.

(* ================================================================== *)
(** * main.cpp: the sentence button and the confidence score *)
(* ================================================================== *)

Definition DEBOUNCE_DELAY_MS : Z := 50.

(** Pin levels. *)
Definition HIGH : bool := true.
Definition LOW : bool := false.

(** The globals of [main.cpp] that the sentence button touches. *)
Record Globals : Type := mkGlobals {
  sentencePredictor : SentencePredictor;
  sentenceModeActive : bool;
  lastButtonState : bool;
  lastDebounceTime : Z
}.

(** The button block at the top of [loop()].  [buttonReading] is what
    [digitalRead] returns; [t_edge], [t_stable] and [t_start] are the
    values of the three [millis()] calls it can make (on an edge, in the
    debounce test, and inside [startRecording]). *)
Definition handle_button (buttonReading : bool) (t_edge t_stable t_start : Z)
  (g : Globals) : Globals :=
  let debounce :=
    if negb (Bool.eqb buttonReading (lastButtonState g)) then t_edge
    else lastDebounceTime g in
  let start :=
    (DEBOUNCE_DELAY_MS <? u32_sub t_stable debounce)%Z
    && (Bool.eqb buttonReading LOW && Bool.eqb (lastButtonState g) HIGH)
    && negb (recording (sentencePredictor g)) in
  {| sentencePredictor :=
       if start then startRecording t_start (sentencePredictor g)
       else sentencePredictor g;
     sentenceModeActive := if start then true else sentenceModeActive g;
     lastButtonState := buttonReading;
     lastDebounceTime := debounce |}.

(** [float confidence = 1.0f / (1.0f + meanDist)]. *)
Definition confidence (meanDist : float) : float :=
  F32.div F32.one (F32.add F32.one meanDist).

(** The same expression read over the rationals, without rounding. *)
Definition confidence_exact (meanDist : Q) : Q :=
  (1 / (1 + meanDist))%Q.

(** The rational a finite float stands for ([m * 2^e], signed); the
    other floats are sent to 0. *)
Definition float_to_Q (x : float) : Q :=
  match x with
  | S754_finite s m e =>
      ((if s then -1 else 1) * inject_Z (Zpos m) * (2 # 1) ^ e)%Q
  | _ => 0%Q
  end.

(** ** The scaling of the raw readings *)

(** [ax / 16384.0f]: a raw [int16_t] reading of the accelerometer, in g. *)
Definition accel_to_g (raw : Z) : float :=
  F32.div (F32.of_Z raw) (F32.of_Z 16384).

(** [gx / 131.0f]: a raw [int16_t] reading of the gyroscope, in deg/s. *)
Definition gyro_to_dps (raw : Z) : float :=
  F32.div (F32.of_Z raw) (F32.of_Z 131).

(** ** Signals, serial commands and the passes of the loop *)

(** The output pins. *)
Inductive Pin : Type := PIN_LED | PIN_BUZZER.

(** What the sketch does to the outside: pin writes, delays, and the
    JSON lines it prints (with the values they carry, before they are
    formatted). *)
Inductive Event : Type :=
| EvWrite (pin : Pin) (level : bool)
| EvDelay (ms : Z)
| EvSentenceStart
| EvProgress (progress : float)
| EvSentence (known : bool) (labelIdx : nat) (conf meanDist : float)
| EvGesture.

(** [beep(uint16_t onMs, uint8_t times, uint16_t offMs)]: the arguments
    of a call are converted to the types of the parameters, then the
    loop runs (its counter [i] stays below [times <= 255], and [i + 1]
    is computed in [int]). *)
Definition beep (onMs : Z) (times : nat) (offMs : Z) : list Event :=
  let onMs := (onMs mod 65536)%Z in
  let times := times mod 256 in
  let offMs := (offMs mod 65536)%Z in
  flat_map
    (fun i =>
       [EvWrite PIN_BUZZER HIGH; EvDelay onMs; EvWrite PIN_BUZZER LOW]
       ++ (if i + 1 <? times then [EvDelay offMs] else []))
    (seq 0 times).

Definition signalRecordingStart : list Event :=
  EvWrite PIN_LED HIGH :: beep 80 2 80.

Definition signalRecordingStop : list Event :=
  EvWrite PIN_LED LOW :: beep 60 1 0.

Definition signalSentenceStart : list Event :=
  EvWrite PIN_LED HIGH :: beep 100 3 50.

Definition signalSentenceComplete : list Event :=
  EvWrite PIN_LED LOW :: beep 150 1 0.

(** [handleSerialCommands()], on the characters it reads: the flag
    [gRecordingActive] after the call and what it did. *)
Definition serial_command (st : bool * list Event) (c : ascii)
  : bool * list Event :=
  let '(gRecordingActive, out) := st in
  if Ascii.eqb c "S" then (true, out ++ signalRecordingStart)
  else if Ascii.eqb c "E" then (false, out ++ signalRecordingStop)
  else (gRecordingActive, out).

Definition handleSerialCommands (input : list ascii)
  (gRecordingActive : bool) : bool * list Event :=
  fold_left serial_command input (gRecordingActive, []).

(** The globals as the sketch starts. *)
Definition Globals_init : Globals :=
  {| sentencePredictor := SentencePredictor_new;
     sentenceModeActive := false;
     lastButtonState := HIGH;
     lastDebounceTime := 0 |}.

(** The guard of the start branch of the button block: the press is
    stable, it is a HIGH to LOW edge, and no recording is in progress. *)
Definition button_pressed (buttonReading : bool) (t_edge t_stable : Z)
  (g : Globals) : bool :=
  let debounce :=
    if negb (Bool.eqb buttonReading (lastButtonState g)) then t_edge
    else lastDebounceTime g in
  (DEBOUNCE_DELAY_MS <? u32_sub t_stable debounce)%Z
  && (Bool.eqb buttonReading LOW && Bool.eqb (lastButtonState g) HIGH)
  && negb (recording (sentencePredictor g)).

(** What one pass of [loop()] reads: the button, the twelve values
    computed from the raw frame, and the clock at each [millis()] call
    it can make. *)
Record LoopInput : Type := mkLoopInput {
  in_button : bool;
  in_sample : SensorSample;
  in_t_edge : Z;
  in_t_stable : Z;
  in_t_start : Z;
  in_t_add : Z;
  in_t_progress : Z
}.

Section Loop.

Variable M : SentenceModel.

(** The sentence branch of [loop()]: the globals after it, what it
    did, and whether it was taken (the pass then returns before the
    gesture prediction). *)
Definition sentence_branch (x : SensorSample) (t_add t_progress : Z)
  (g : Globals) : Globals * list Event * bool :=
  if sentenceModeActive g && recording (sentencePredictor g) then
    let '(p1, windowComplete) := addSample t_add x (sentencePredictor g) in
    let progress := getRecordingProgress t_progress p1 in
    if windowComplete then
      let '(p2, (labelIdx, meanDist)) := predict M p1 in
      ({| sentencePredictor := reset p2;
          sentenceModeActive := false;
          lastButtonState := lastButtonState g;
          lastDebounceTime := lastDebounceTime g |},
       EvProgress progress
       :: signalSentenceComplete
       ++ [EvSentence (labelIdx <? SENTENCE_NUM_CLASSES M) labelIdx
             (confidence meanDist) meanDist;
           EvDelay 10],
       true)
    else
      ({| sentencePredictor := p1;
          sentenceModeActive := sentenceModeActive g;
          lastButtonState := lastButtonState g;
          lastDebounceTime := lastDebounceTime g |},
       [EvProgress progress; EvDelay 10],
       true)
  else (g, [], false).

(** One pass of [loop()] after [handleSerialCommands()], in prediction
    mode with the sentence button: the button block, the sentence
    branch, and otherwise the gesture prediction (of [predictor.h], seen
    here as one event). *)
Definition loop (i : LoopInput) (g : Globals) : Globals * list Event :=
  let started := button_pressed (in_button i) (in_t_edge i) (in_t_stable i) g in
  let g1 :=
    handle_button (in_button i) (in_t_edge i) (in_t_stable i) (in_t_start i)
      g in
  let '(g2, out, taken) :=
    sentence_branch (in_sample i) (in_t_add i) (in_t_progress i) g1 in
  (g2,
   (if started then signalSentenceStart ++ [EvSentenceStart] else [])
   ++ out
   ++ (if taken then [] else [EvGesture; EvDelay 100])).

(** Passes of [loop()], one after the other. *)
Definition loop_run (inputs : list LoopInput) (g : Globals)
  : Globals * list Event :=
  fold_left
    (fun st i => let '(g', out) := loop i (fst st) in (g', snd st ++ out))
    inputs (g, []).

End Loop.

(* ================================================================== *)
(** * Reference definitions *)
(* ================================================================== *)

(** A run of [addSample] calls only: the clock reading and the sample of
    each call. *)
Definition add_samples (calls : list (Z * SensorSample))
  (p : SentencePredictor) : SentencePredictor :=
  fold_left (fun q c => fst (addSample (fst c) (snd c) q)) calls p.

(** The calls of a run that are spaced: a call counts when its clock
    reading is at least the sample interval after the last call that
    counted ([last] at first). *)
Fixpoint spaced_count (last : Z) (times : list Z) : nat :=
  match times with
  | [] => 0
  | t :: r =>
      if (u32_sub t last <? SENTENCE_SAMPLE_INTERVAL_MS)%Z
      then spaced_count last r
      else S (spaced_count t r)
  end.

(** Stable insertion into a list sorted by distance: the new entry goes
    after every entry that is not farther than it. *)
Fixpoint insert_sorted (c : Neighbor) (l : list Neighbor) : list Neighbor :=
  match l with
  | [] => [c]
  | x :: r =>
      if F32.ltb (fst c) (fst x) then c :: l else x :: insert_sorted c r
  end.

(** The naive full sort of the rows by distance (a stable insertion
    sort, rows taken in dataset order). *)
Definition full_sort (rows : list Neighbor) : list Neighbor :=
  fold_left (fun acc c => insert_sorted c acc) rows [].

(** Sorted by distance: each entry is [<=] every later one. *)
Definition dist_le (a b : Neighbor) : Prop := F32.leb (fst a) (fst b) = true.

Definition sorted_by_dist (l : list Neighbor) : Prop := StronglySorted dist_le l.

(** The rows the search can ever keep: distance below the [1e9] the list
    is initialised with (which excludes NaN and infinity). *)
Definition below_sentinel (r : Neighbor) : bool := F32.ltb (fst r) F32.lit_1e9.

(** The entries at distance [d]. *)
Definition at_distance (d : float) (r : Neighbor) : bool := F32.eqb (fst r) d.

(** The labels table holds class indices: every entry of
    [SENTENCE_TRAINING_LABELS], an array of [uint8_t], is below
    [SENTENCE_NUM_CLASSES]. *)
Definition labels_in_range (M : SentenceModel) : bool :=
  forallb (fun l => (l <? SENTENCE_NUM_CLASSES M) && (l <? 256))
          (SENTENCE_TRAINING_LABELS M).

(** The time a trace spends in [delay]. *)
Definition total_delay (out : list Event) : Z :=
  fold_right
    (fun e acc => match e with EvDelay ms => (ms + acc)%Z | _ => acc end)
    0%Z out.

Definition pin_eqb (a b : Pin) : bool :=
  match a, b with
  | PIN_LED, PIN_LED | PIN_BUZZER, PIN_BUZZER => true
  | _, _ => false
  end.

(** The level of a pin after a trace, from the level before it. *)
Definition pin_level (pin : Pin) (before : bool) (out : list Event) : bool :=
  fold_left
    (fun level e =>
       match e with
       | EvWrite q l => if pin_eqb q pin then l else level
       | _ => level
       end)
    out before.

(** The number of times a trace switches the buzzer on. *)
Definition buzzer_pulses (out : list Event) : nat :=
  length
    (filter
       (fun e =>
          match e with
          | EvWrite q l => pin_eqb q PIN_BUZZER && Bool.eqb l HIGH
          | _ => false
          end)
       out).

(** The commands among the characters read. *)
Definition is_command (c : ascii) : bool := Ascii.eqb c "S" || Ascii.eqb c "E".

(** The floats that are numbers: zeros and finite floats. *)
Definition is_finite (x : float) : bool :=
  match x with
  | S754_zero _ | S754_finite _ _ _ => true
  | _ => false
  end.

(* ================================================================== *)
(** * Invariants *)
(* ================================================================== *)

(** What [addSample] does, by cases. *)
Variant add_outcome (now : Z) (x : SensorSample) (p : SentencePredictor)
  : SentencePredictor * bool -> Prop :=
| add_ignored :
    isRecording p = false -> add_outcome now x p (p, false)
| add_too_soon :
    isRecording p = true ->
    (u32_sub now (lastSampleTime p) < SENTENCE_SAMPLE_INTERVAL_MS)%Z ->
    add_outcome now x p (p, false)
| add_complete :
    isRecording p = true ->
    (SENTENCE_SAMPLE_INTERVAL_MS <= u32_sub now (lastSampleTime p))%Z ->
    (SENTENCE_SAMPLES_PER_WINDOW <= u8_incr (bufferIndex p) \/
     (SENTENCE_WINDOW_DURATION_MS <= u32_sub now (recordingStartTime p))%Z) ->
    add_outcome now x p (mark_filled (store_sample now x p), true)
| add_continue :
    isRecording p = true ->
    (SENTENCE_SAMPLE_INTERVAL_MS <= u32_sub now (lastSampleTime p))%Z ->
    u8_incr (bufferIndex p) < SENTENCE_SAMPLES_PER_WINDOW ->
    (u32_sub now (recordingStartTime p) < SENTENCE_WINDOW_DURATION_MS)%Z ->
    add_outcome now x p (store_sample now x p, false).

(** The cursor invariant of the window buffer. *)
Record cursor_ok (p : SentencePredictor) : Prop := {
  cursor_le : bufferIndex p <= SENTENCE_SAMPLES_PER_WINDOW;
  cursor_lt : isRecording p = true -> bufferIndex p < SENTENCE_SAMPLES_PER_WINDOW;
  filled_idle : bufferFilled p = true -> isRecording p = false;
  buffer_size : length (buffer p) = SENTENCE_SAMPLES_PER_WINDOW
}.

(** The state of the scan after the classes below [i]: no class seen has
    more votes than [maxVotes], and [bestLabel] is the first class that
    has [maxVotes] votes (or nobody has a vote yet). *)
Definition scan_inv (votes : list nat) (i : nat) (st : nat * nat) : Prop :=
  let '(bestLabel, maxVotes) := st in
  (forall j, j < i -> nth j votes 0 <= maxVotes) /\
  ((maxVotes = 0 /\ bestLabel = 0) \/
   (0 < maxVotes /\ bestLabel < i /\ nth bestLabel votes 0 = maxVotes /\
    forall j, j < bestLabel -> nth j votes 0 < maxVotes)).

(** The slots from the cursor on hold what [memset] left there, as long
    as a recording is in progress or a window is ready. *)
Definition zero_padded (p : SentencePredictor) : Prop :=
  isRecording p = true \/ bufferFilled p = true ->
  skipn (bufferIndex p) (buffer p)
    = repeat zero_sample (SENTENCE_SAMPLES_PER_WINDOW - bufferIndex p).

(** The state of a recording started at [t0] whose calls all come
    [delta] or more after the start, on a clock that does not wrap;
    [rest] are the clock readings of the calls still to come. *)
Record late_inv (t0 delta : Z) (q : SentencePredictor) (rest : list Z)
  : Prop := {
  late_cursor : cursor_ok q;
  late_start : recordingStartTime q = t0;
  late_bound : (50 * Z.of_nat (bufferIndex q) + delta < 4100)%Z;
  late_empty : bufferIndex q = 0 -> isRecording q = true;
  late_last :
    1 <= bufferIndex q ->
    (t0 + delta + 50 * (Z.of_nat (bufferIndex q) - 1) <= lastSampleTime q
     /\ lastSampleTime q < 2 ^ 32)%Z;
  late_open :
    1 <= bufferIndex q -> isRecording q = true ->
    (lastSampleTime q < t0 + 4000)%Z /\
    Forall (fun t => (lastSampleTime q <= t)%Z) rest;
  late_done :
    isRecording q = false ->
    bufferFilled q = true /\
    ((100 <= delta)%Z -> (4000 <= lastSampleTime q - t0)%Z)
}.

(** The state of the globals between two passes of [loop()]. *)
Record loop_ok (g : Globals) : Prop := {
  loop_cursor : cursor_ok (sentencePredictor g);
  loop_not_filled : bufferFilled (sentencePredictor g) = false;
  loop_mode :
    isRecording (sentencePredictor g) = true -> sentenceModeActive g = true
}.

(** ** The key of the order on floats

    [SFcompare] is a total preorder on the floats that are not NaN (the
    two zeros are equal); every comparison with a NaN is false.  The
    order is read off a key: the class of the float, then its exponent
    and mantissa, negated for negative floats. *)

Definition cmp_join (c1 c2 : comparison) : comparison :=
  match c1 with Eq => c2 | _ => c1 end.

Definition fkey (x : float) : Z * Z * Z :=
  match x with
  | S754_zero _ => (0, 0, 0)%Z
  | S754_nan => (0, 0, 0)%Z
  | S754_infinity s => ((if s then -2 else 2)%Z, 0%Z, 0%Z)
  | S754_finite s m e =>
      if s then ((-1)%Z, (- e)%Z, Zneg m) else (1%Z, e, Zpos m)
  end.

Definition lex_cmp (a b : Z * Z * Z) : comparison :=
  let '(a1, a2, a3) := a in
  let '(b1, b2, b3) := b in
  cmp_join (a1 ?= b1)%Z (cmp_join (a2 ?= b2)%Z (a3 ?= b3)%Z).

(* ================================================================== *)
(** * Binary32 rounding, over the integers *)
(* ================================================================== *)

Section RoundingDefinitions.

Local Open Scope Z_scope.

(** The exponent of the format for a value with [e] digits before the
    binary point: [max (e - 24) (-149)]. *)
Definition fexp32 (e : Z) : Z := fexp 24 128 e.

(** [mrs] holds the integer part of [a / b], the round bit (fraction at
    least one half) and the sticky bit (fraction neither zero nor one
    half). *)
Definition encodes (mrs : shr_record) (a b : Z) : Prop :=
  0 < b /\ 0 <= a /\
  shr_m mrs = a / b /\
  shr_r mrs = (b <=? 2 * (a mod b)) /\
  shr_s mrs = negb ((a mod b =? 0) || (2 * (a mod b) =? b)).

(** [a / b] rounded to the nearest integer, ties to even. *)
Definition rne (a b : Z) : Z :=
  match 2 * (a mod b) ?= b with
  | Lt => a / b
  | Eq => if Z.even (a / b) then a / b else a / b + 1
  | Gt => a / b + 1
  end.

(** The float with mantissa [n] (at most [2^24]) at exponent [E]. *)
Definition pack (n E : Z) : float :=
  if n =? 0 then S754_zero false
  else if n <? 16777216 then
    if E <=? 104 then S754_finite false (Z.to_pos n) E
    else S754_infinity false
  else
    if E + 1 <=? 104 then S754_finite false 8388608 (E + 1)
    else S754_infinity false.

(** Every finite binary32 float is an integer number of units of
    [2^-149]; [ival] is that number for the non-negative ones. *)
Definition ival (x : float) : Z :=
  match x with
  | S754_finite false m e => Zpos m * 2 ^ (e + 149)
  | _ => 0
  end.

(** The floats a mean distance can be: a zero, or a positive finite float
    in the canonical form of the format. *)
Definition nonneg_finite (x : float) : Prop :=
  match x with
  | S754_zero _ => True
  | S754_finite false m e => bounded 24 128 m e = true
  | _ => False
  end.

(** Rounding a non-negative rational number of units, [a / b], to 24
    significant bits: the scale, and the rounded number of units. *)
Definition RNk (a b : Z) : Z := Z.max (Zdigits2 (a / b) - 24) 0.

Definition RN (a b : Z) : Z := rne a (2 ^ RNk a b * b) * 2 ^ RNk a b.

(** The largest finite float, in units. *)
Definition max_ival : Z := 16777215 * 2 ^ 253.

(** The score, in units, as a function of the distance, in units:
    one is [2^149] units, so the sum is [2^149 + X] and the quotient is
    [2^298 / sum]. *)
Definition conf_units (X : Z) : Z := RN (2 ^ 298) (RN (2 ^ 149 + X) 1).

End RoundingDefinitions.

(* ================================================================== *)
(** * Ranges of the computed floats *)
(* ================================================================== *)

(** The floats a square root can be: NaN, plus infinity, a zero, or a
    positive float of the format. *)
Definition nonneg_class (x : float) : Prop :=
  match x with
  | S754_nan => True
  | S754_infinity s => s = false
  | _ => nonneg_finite x
  end.

(** A distance the kept list can hold: a zero or a positive float of the
    format, at most [2^30] (the sentinel [1e9] is below that). *)
Definition kept_distance (d : float) : Prop :=
  nonneg_finite d /\ (ival d <= 2 ^ 179)%Z.

(** The progress ratio in units, as a function of the elapsed time. *)
Definition ratio_units (elapsed : Z) : Z :=
  RN (RN (elapsed * 2 ^ 149) 1 * 2 ^ 149) (4000 * 2 ^ 149).

(** What the lines the sketch prints can carry: a progress between 0
    and 1; a sentence whose label is a class, with a mean distance that
    is a number and a confidence in (0, 1]. *)
Definition output_in_range (M : SentenceModel) (e : Event) : Prop :=
  match e with
  | EvProgress progress =>
      F32.leb F32.zero progress = true /\ F32.leb progress F32.one = true
  | EvSentence known labelIdx conf meanDist =>
      known = true /\ labelIdx < SENTENCE_NUM_CLASSES M /\
      nonneg_finite meanDist /\
      F32.ltb F32.zero conf = true /\ F32.leb conf F32.one = true
  | _ => True
  end.

(* ================================================================== *)
(** * Inputs of the worked instances *)
(* ================================================================== *)

(** A small model: K = 2 neighbours, three one-feature rows 1.0, 5.0 and
    2.0 with labels 1, 2 and 3, four classes, no standardisation. *)
Definition demo_model : SentenceModel :=
  mkModel 2 3 1 4 [F32.of_Z 1; F32.of_Z 5; F32.of_Z 2] [1; 2; 3] (fun v => v).

(** A model whose only row is 3e9 away from the query [0.0]. *)
Definition far_model : SentenceModel :=
  mkModel 1 1 1 2 [F32.of_Z 3000000000] [1] (fun v => v).

(** A model with K = 1 and two rows, 1.0 and 3e9 away from the query
    [0.0]. *)
Definition mixed_model : SentenceModel :=
  mkModel 1 2 1 2 [F32.of_Z 1; F32.of_Z 3000000000] [1; 0] (fun v => v).

Definition demo_query : list float := [F32.zero].

(** A sample that is not all zeros. *)
Definition demo_sample : SensorSample :=
  mkSample F32.one F32.zero F32.zero F32.zero F32.zero F32.zero
           F32.zero F32.zero F32.zero F32.zero F32.zero F32.zero.

(** A kept list of three entries at distances 1.0, 5.0 and 9.0. *)
Definition demo_kept : list Neighbor :=
  [(F32.of_Z 1, 1); (F32.of_Z 5, 2); (F32.of_Z 9, 3)].

(** A recording started at time 0 with one sample stored at [t]. *)
Definition one_sample_at (t : Z) : SentencePredictor :=
  add_samples [(t, demo_sample)] (startRecording 0 SentencePredictor_new).

(** [2^-30], a distance below half an ulp of [1.0f]. *)
Definition tiny_distance : float := S754_finite false 8388608 (-53).

(** A window completed by the duration: a recording started at 0 whose
    first sample comes at 4000. *)
Definition demo_window : SentencePredictor :=
  fst (addSample 4000 demo_sample (startRecording 0 SentencePredictor_new)).

(** Two samples, 100 ms apart. *)
Definition demo_calls : list (Z * SensorSample) :=
  [(100%Z, demo_sample); (200%Z, zero_sample)].

(** The globals during a recording started at 0. *)
Definition demo_recording : Globals :=
  {| sentencePredictor := startRecording 0 SentencePredictor_new;
     sentenceModeActive := true;
     lastButtonState := LOW;
     lastDebounceTime := 0 |}.

(** Two passes: a press seen by a pass whose two clock readings are
    100 ms apart, then a pass 4.1 s later. *)
Definition demo_passes : list LoopInput :=
  [mkLoopInput LOW demo_sample 0 100 100 500 500;
   mkLoopInput LOW demo_sample 4200 4200 4200 4200 4200].

(* ================================================================== *)
(** * The order of [<] and [<=] on floats *)
(* ================================================================== *)

Section FloatOrder.

Local Open Scope Z_scope.

Lemma SFcompare_key (a b : float) :
  F32.is_nan a = false -> F32.is_nan b = false ->
  SFcompare a b = Some (lex_cmp (fkey a) (fkey b)).
Proof.
  destruct a as [sa|sa| |sa ma ea], b as [sb|sb| |sb mb eb];
    intros Ha Hb; try discriminate;
    try (destruct sa); try (destruct sb); try reflexivity.
  - simpl. rewrite Z.compare_opp, (Z.compare_antisym ea eb).
    destruct (ea ?= eb); reflexivity.
  - simpl. destruct (ea ?= eb); reflexivity.
Qed.

Lemma SFcompare_nan (a b : float) :
  F32.is_nan a = true \/ F32.is_nan b = true -> SFcompare a b = None.
Proof.
  destruct a, b; simpl; intros [H|H]; try discriminate; reflexivity.
Qed.

Lemma SFcompare_some (a b : float) (r : comparison) :
  SFcompare a b = Some r -> F32.is_nan a = false /\ F32.is_nan b = false.
Proof. destruct a, b; simpl; intros; try discriminate; auto. Qed.

Ltac split_compares :=
  repeat match goal with
    | H : context [ (?x ?= ?y) ] |- _ => destruct (Z.compare_spec x y)
    | |- context [ (?x ?= ?y) ] => destruct (Z.compare_spec x y)
    end; simpl in *; try congruence; try lia.

Lemma lex_cmp_refl a : lex_cmp a a = Eq.
Proof.
  destruct a as [[a1 a2] a3]. unfold lex_cmp.
  now rewrite !Z.compare_refl.
Qed.

Lemma lex_cmp_opp a b : lex_cmp b a = CompOpp (lex_cmp a b).
Proof.
  destruct a as [[a1 a2] a3], b as [[b1 b2] b3]. unfold lex_cmp.
  rewrite (Z.compare_antisym a1 b1), (Z.compare_antisym a2 b2),
    (Z.compare_antisym a3 b3).
  destruct (a1 ?= b1), (a2 ?= b2), (a3 ?= b3); reflexivity.
Qed.

Lemma lex_cmp_trans a b c :
  lex_cmp a b <> Gt -> lex_cmp b c <> Gt ->
  lex_cmp a c = cmp_join (lex_cmp a b) (lex_cmp b c).
Proof.
  destruct a as [[a1 a2] a3], b as [[b1 b2] b3], c as [[c1 c2] c3].
  unfold lex_cmp. intros H1 H2. split_compares.
Qed.

Implicit Types a b c : float.

Lemma ltb_spec a b :
  F32.ltb a b = true <->
  F32.is_nan a = false /\ F32.is_nan b = false /\
  lex_cmp (fkey a) (fkey b) = Lt.
Proof.
  unfold F32.ltb, SFltb. split.
  - destruct (SFcompare a b) as [c|] eqn:E; try discriminate.
    destruct (SFcompare_some _ _ _ E) as [Ha Hb].
    rewrite (SFcompare_key _ _ Ha Hb) in E. inversion E; subst.
    destruct (lex_cmp (fkey a) (fkey b)); try discriminate; auto.
  - intros (Ha & Hb & H). now rewrite (SFcompare_key _ _ Ha Hb), H.
Qed.

Lemma leb_spec a b :
  F32.leb a b = true <->
  F32.is_nan a = false /\ F32.is_nan b = false /\
  lex_cmp (fkey a) (fkey b) <> Gt.
Proof.
  unfold F32.leb, SFleb. split.
  - destruct (SFcompare a b) as [c|] eqn:E; try discriminate.
    destruct (SFcompare_some _ _ _ E) as [Ha Hb].
    rewrite (SFcompare_key _ _ Ha Hb) in E. inversion E; subst.
    destruct (lex_cmp (fkey a) (fkey b)); try discriminate;
      repeat split; auto; discriminate.
  - intros (Ha & Hb & H). rewrite (SFcompare_key _ _ Ha Hb).
    destruct (lex_cmp (fkey a) (fkey b)); congruence.
Qed.

Lemma ltb_irrefl a : F32.ltb a a = false.
Proof.
  destruct (F32.ltb a a) eqn:E; auto.
  apply ltb_spec in E. destruct E as (_ & _ & E).
  rewrite lex_cmp_refl in E. discriminate.
Qed.

Lemma ltb_leb a b : F32.ltb a b = true -> F32.leb a b = true.
Proof.
  rewrite ltb_spec, leb_spec. intros (Ha & Hb & H).
  repeat split; auto. congruence.
Qed.

Lemma leb_refl a : F32.is_nan a = false -> F32.leb a a = true.
Proof.
  intros H. apply leb_spec. repeat split; auto.
  rewrite lex_cmp_refl. discriminate.
Qed.

Lemma leb_trans a b c :
  F32.leb a b = true -> F32.leb b c = true -> F32.leb a c = true.
Proof.
  rewrite !leb_spec. intros (Ha & Hb & H1) (_ & Hc & H2).
  repeat split; auto. rewrite (lex_cmp_trans _ _ _ H1 H2).
  destruct (lex_cmp (fkey a) (fkey b)); simpl; congruence.
Qed.

Lemma ltb_leb_trans a b c :
  F32.ltb a b = true -> F32.leb b c = true -> F32.ltb a c = true.
Proof.
  rewrite !ltb_spec, leb_spec. intros (Ha & Hb & H1) (_ & Hc & H2).
  repeat split; auto.
  rewrite (lex_cmp_trans _ (fkey b) _); try congruence.
  now rewrite H1.
Qed.

Lemma leb_ltb_trans a b c :
  F32.leb a b = true -> F32.ltb b c = true -> F32.ltb a c = true.
Proof.
  rewrite !ltb_spec, leb_spec. intros (Ha & Hb & H1) (_ & Hc & H2).
  repeat split; auto.
  rewrite (lex_cmp_trans _ (fkey b) _); try congruence.
  rewrite H2. destruct (lex_cmp (fkey a) (fkey b)); simpl; congruence.
Qed.

Lemma ltb_trans a b c :
  F32.ltb a b = true -> F32.ltb b c = true -> F32.ltb a c = true.
Proof. intros H1 H2. eapply ltb_leb_trans; eauto using ltb_leb. Qed.

(** On floats that are not NaN, [not (a < b)] is [b <= a]. *)
Lemma not_ltb_leb a b :
  F32.is_nan a = false -> F32.is_nan b = false ->
  F32.ltb a b = false -> F32.leb b a = true.
Proof.
  intros Ha Hb H. apply leb_spec. repeat split; auto.
  intros G. rewrite lex_cmp_opp in G.
  assert (L : lex_cmp (fkey a) (fkey b) = Lt)
    by (destruct (lex_cmp (fkey a) (fkey b)); simpl in G; congruence).
  assert (T : F32.ltb a b = true) by (apply ltb_spec; auto).
  congruence.
Qed.

Lemma leb_not_ltb a b : F32.leb a b = true -> F32.ltb b a = false.
Proof.
  intros H. destruct (F32.ltb b a) eqn:E; auto.
  pose proof (ltb_leb_trans _ _ _ E H) as T.
  rewrite ltb_irrefl in T. discriminate.
Qed.

Lemma ltb_not_nan a b :
  F32.ltb a b = true -> F32.is_nan a = false /\ F32.is_nan b = false.
Proof. rewrite ltb_spec. tauto. Qed.

Lemma leb_not_nan a b :
  F32.leb a b = true -> F32.is_nan a = false /\ F32.is_nan b = false.
Proof. rewrite leb_spec. tauto. Qed.

(** [a == b] (a comparison that is [Eq]) is never [a < b]. *)
Lemma eqb_not_ltb a b : F32.eqb a b = true -> F32.ltb a b = false.
Proof.
  unfold F32.eqb, F32.ltb, SFeqb, SFltb.
  destruct (SFcompare a b) as [[ | | ]|]; congruence.
Qed.

End FloatOrder.

(* ================================================================== *)
(** * The window buffer: single calls *)
(* ================================================================== *)

Lemma interval_value : SENTENCE_SAMPLE_INTERVAL_MS = 50%Z.
Proof. reflexivity. Qed.

Lemma addSample_idle now x p :
  isRecording p = false -> addSample now x p = (p, false).
Proof. intros H. unfold addSample. now rewrite H. Qed.

(** A call closer than the sample interval to the last stored sample
    changes nothing, recording or not. *)
Lemma addSample_dropped now x p :
  (u32_sub now (lastSampleTime p) < SENTENCE_SAMPLE_INTERVAL_MS)%Z ->
  addSample now x p = (p, false).
Proof.
  intros H. unfold addSample.
  destruct (negb (isRecording p)); auto.
  apply Z.ltb_lt in H. now rewrite H.
Qed.

(** A spaced call while recording stores the sample; the window is
    complete when the cursor is then at capacity or the duration is over. *)
Lemma addSample_stored now x p :
  isRecording p = true ->
  (SENTENCE_SAMPLE_INTERVAL_MS <= u32_sub now (lastSampleTime p))%Z ->
  addSample now x p =
    let p' := store_sample now x p in
    if (SENTENCE_SAMPLES_PER_WINDOW <=? bufferIndex p')
       || (SENTENCE_WINDOW_DURATION_MS <=? u32_sub now (recordingStartTime p))%Z
    then (mark_filled p', true) else (p', false).
Proof.
  intros R H. unfold addSample. rewrite R. simpl negb. cbv iota.
  apply Z.ltb_ge in H. rewrite H. cbv zeta.
  destruct (SENTENCE_SAMPLES_PER_WINDOW <=? _); simpl; auto.
Qed.

Lemma u8_incr_small i : i < 255 -> u8_incr i = i + 1.
Proof. intros H. unfold u8_incr. apply Nat.mod_small. lia. Qed.

Lemma addSample_cases now x p : add_outcome now x p (addSample now x p).
Proof.
  destruct (isRecording p) eqn:R.
  2: { rewrite addSample_idle by auto. now constructor. }
  destruct (Z.lt_ge_cases (u32_sub now (lastSampleTime p))
              SENTENCE_SAMPLE_INTERVAL_MS) as [H|H].
  { rewrite addSample_dropped by auto. now constructor. }
  rewrite addSample_stored by auto. cbv zeta.
  destruct (Nat.leb_spec SENTENCE_SAMPLES_PER_WINDOW
              (bufferIndex (store_sample now x p))) as [L|L]; simpl in L.
  { simpl orb. cbv iota. apply add_complete; auto. }
  destruct (Z.leb_spec SENTENCE_WINDOW_DURATION_MS
              (u32_sub now (recordingStartTime p))) as [T|T]; simpl orb; cbv iota.
  - apply add_complete; auto.
  - apply add_continue; auto.
Qed.

Lemma array_set_length {A} (a : list A) i x :
  length (array_set a i x) = length a.
Proof.
  revert i. induction a as [|y r IH]; intros [|i]; simpl; auto.
Qed.

Lemma cursor_ok_new : cursor_ok SentencePredictor_new.
Proof.
  split; try apply repeat_length; simpl; try discriminate;
    unfold SENTENCE_SAMPLES_PER_WINDOW; lia.
Qed.

Lemma cursor_ok_start now p : cursor_ok (startRecording now p).
Proof.
  split; try apply repeat_length; simpl; try discriminate;
    unfold SENTENCE_SAMPLES_PER_WINDOW; lia.
Qed.

Lemma cursor_ok_reset p : cursor_ok p -> cursor_ok (reset p).
Proof.
  intros [H1 H2 H3 H4].
  split; simpl; auto; try discriminate; unfold SENTENCE_SAMPLES_PER_WINDOW; lia.
Qed.

Lemma cursor_ok_add now x p :
  cursor_ok p -> cursor_ok (fst (addSample now x p)).
Proof.
  intros [H1 H2 H3 H4].
  destruct (addSample_cases now x p) as [R|R T|R T C|R T C D]; simpl fst.
  1,2: split; auto.
  - specialize (H2 R).
    split; simpl; try discriminate; auto.
    + rewrite u8_incr_small; unfold SENTENCE_SAMPLES_PER_WINDOW in *; lia.
    + now rewrite array_set_length.
  - split; simpl; auto.
    + lia.
    + now rewrite array_set_length.
Qed.

(** While the recording is in progress the cursor is inside the buffer,
    so [buffer[bufferIndex]] is a write in bounds and [bufferIndex++]
    does not wrap. *)
Lemma store_in_bounds p :
  cursor_ok p -> isRecording p = true ->
  bufferIndex p < length (buffer p) /\
  u8_incr (bufferIndex p) = bufferIndex p + 1.
Proof.
  intros [H1 H2 H3 H4] R. specialize (H2 R). rewrite H4. split; auto.
  apply u8_incr_small. unfold SENTENCE_SAMPLES_PER_WINDOW in *. lia.
Qed.

Section SessionFacts.

Variable M : SentenceModel.

(** [predict] reads the predictor and never writes it. *)
Lemma predict_state p : fst (predict M p) = p.
Proof. unfold predict. destruct (negb (bufferFilled p)); reflexivity. Qed.

Lemma cursor_ok_step p o : cursor_ok p -> cursor_ok (step M p o).
Proof.
  intros H. destruct o; simpl.
  - apply cursor_ok_start.
  - now apply cursor_ok_add.
  - now rewrite predict_state.
  - now apply cursor_ok_reset.
Qed.

Lemma cursor_ok_run ops p : cursor_ok p -> cursor_ok (run M ops p).
Proof.
  revert p. induction ops as [|o r IH]; intros p H; simpl; auto.
  apply IH. now apply cursor_ok_step.
Qed.

Lemma run_quiet_idle later p :
  Forall quiet_op later -> isRecording p = false -> run M later p = p.
Proof.
  induction 1 as [|o r Ho Hr IH]; intros R; simpl; auto.
  destruct o; simpl in Ho; try contradiction; simpl.
  - rewrite addSample_idle by auto. simpl. auto.
  - rewrite predict_state. auto.
Qed.

Lemma step_no_add_last p o :
  no_add_op o -> lastSampleTime (step M p o) = lastSampleTime p.
Proof.
  destruct o; simpl; intros H; try contradiction; auto.
  now rewrite predict_state.
Qed.

Lemma run_no_add_last ops p :
  Forall no_add_op ops -> lastSampleTime (run M ops p) = lastSampleTime p.
Proof.
  intros H. revert p. induction H as [|o r Ho Hr IH]; intros p; simpl; auto.
  rewrite IH. now apply step_no_add_last.
Qed.

(** C7. In every state a session can reach from the freshly constructed
    predictor (any sequence of startRecording, addSample, predict and
    reset calls), the cursor is at most the capacity; and when the filled
    flag is set the recording flag is clear, and any further addSample
    and predict calls leave the whole predictor, the buffer with it,
    as it is. *)
Theorem filled_window_is_frozen (ops later : list Op) :
  Forall quiet_op later ->
  let p := run M ops SentencePredictor_new in
  bufferIndex p <= SENTENCE_SAMPLES_PER_WINDOW /\
  (bufferFilled p = true ->
   isRecording p = false /\
   run M later p = p /\ buffer (run M later p) = buffer p).
Proof.
  intros Q p.
  assert (I : cursor_ok p) by (apply cursor_ok_run, cursor_ok_new).
  split; [apply I|]. intros F.
  pose proof (filled_idle _ I F) as R.
  split; auto. rewrite (run_quiet_idle later p Q R). auto.
Qed.

(** C8. When the filled flag is clear, predict returns label 0, writes
    999999.0f through the pointer, and leaves the predictor unchanged. *)
Theorem predict_not_filled p :
  bufferFilled p = false ->
  predict M p = (p, (0, F32.lit_999999)) /\
  F32.lit_999999 = S754_finite false 15999984 (-4).
Proof.
  intros H. unfold predict. rewrite H. simpl. auto.
Qed.

(** C10. The time of the last stored sample survives reset, predict and
    startRecording: after a sample has been stored at [t], whatever such
    calls follow, the first addSample of the next recording is dropped
    (same state, not complete) when its clock reading is less than the
    sample interval after [t]. *)
Theorem spacing_spans_recordings p t x0 ops now x :
  isRecording p = true ->
  (SENTENCE_SAMPLE_INTERVAL_MS <= u32_sub t (lastSampleTime p))%Z ->
  Forall no_add_op ops ->
  (u32_sub now t < SENTENCE_SAMPLE_INTERVAL_MS)%Z ->
  let q := run M ops (fst (addSample t x0 p)) in
  lastSampleTime q = t /\ addSample now x q = (q, false).
Proof.
  intros R S NA D q.
  assert (L : lastSampleTime q = t).
  { unfold q. rewrite run_no_add_last by auto.
    rewrite addSample_stored by auto. cbv zeta.
    destruct (_ || _); reflexivity. }
  split; auto. apply addSample_dropped. now rewrite L.
Qed.

End SessionFacts.

(* ================================================================== *)
(** * The window buffer: runs of addSample *)
(* ================================================================== *)

Lemma add_samples_idle calls p :
  isRecording p = false -> add_samples calls p = p.
Proof.
  induction calls as [|c r IH]; intros R; simpl; auto.
  rewrite addSample_idle by auto. simpl. fold (add_samples r p). auto.
Qed.

Lemma add_samples_cons c r p :
  add_samples (c :: r) p = add_samples r (fst (addSample (fst c) (snd c) p)).
Proof. reflexivity. Qed.

(** [addSample] never turns the recording flag on. *)
Lemma addSample_recording_back now x p :
  isRecording (fst (addSample now x p)) = true -> isRecording p = true.
Proof.
  destruct (isRecording p) eqn:R; auto.
  rewrite addSample_idle by auto. simpl. congruence.
Qed.

Lemma add_samples_recording_back calls p :
  isRecording (add_samples calls p) = true -> isRecording p = true.
Proof.
  revert p. induction calls as [|c r IH]; intros p H; auto.
  rewrite add_samples_cons in H. apply IH in H.
  now apply addSample_recording_back in H.
Qed.

Lemma cursor_ok_add_samples calls p :
  cursor_ok p -> cursor_ok (add_samples calls p).
Proof.
  revert p. induction calls as [|c r IH]; intros p H; auto.
  rewrite add_samples_cons. apply IH. now apply cursor_ok_add.
Qed.

(** One call moves the cursor by at most one. *)
Lemma addSample_cursor_step now x p :
  cursor_ok p ->
  bufferIndex (fst (addSample now x p)) <= bufferIndex p + 1.
Proof.
  intros I.
  destruct (addSample_cases now x p) as [R|R T|R T C|R T C D]; simpl; try lia.
  all: destruct (store_in_bounds p I R) as [_ E]; rewrite E; lia.
Qed.

Lemma add_samples_cursor_le calls p :
  cursor_ok p ->
  bufferIndex (add_samples calls p) <= bufferIndex p + length calls.
Proof.
  revert p. induction calls as [|c r IH]; intros p I; simpl length.
  - simpl. lia.
  - rewrite add_samples_cons.
    pose proof (IH _ (cursor_ok_add (fst c) (snd c) p I)).
    pose proof (addSample_cursor_step (fst c) (snd c) p I). lia.
Qed.

(** A call made while recording moves the cursor by one exactly when it
    is spaced, and then stamps [lastSampleTime]. *)
Lemma addSample_recording_step now x p :
  cursor_ok p -> isRecording p = true ->
  let q := fst (addSample now x p) in
  if (u32_sub now (lastSampleTime p) <? SENTENCE_SAMPLE_INTERVAL_MS)%Z
  then q = p
  else bufferIndex q = bufferIndex p + 1 /\ lastSampleTime q = now.
Proof.
  intros I R q. unfold q.
  destruct (Z.ltb_spec (u32_sub now (lastSampleTime p))
              SENTENCE_SAMPLE_INTERVAL_MS) as [H|H].
  - now rewrite addSample_dropped.
  - rewrite addSample_stored by auto. cbv zeta.
    destruct (store_in_bounds p I R) as [_ E].
    destruct (_ || _); simpl; auto.
Qed.

Lemma add_samples_cursor_count calls p :
  cursor_ok p ->
  isRecording (add_samples (removelast calls) p) = true ->
  bufferIndex (add_samples calls p) =
    bufferIndex p + spaced_count (lastSampleTime p) (map fst calls).
Proof.
  revert p. induction calls as [|c r IH]; intros p I H.
  - simpl. lia.
  - assert (R : isRecording p = true)
      by (eapply add_samples_recording_back; eauto).
    rewrite add_samples_cons. simpl map. simpl spaced_count.
    pose proof (addSample_recording_step (fst c) (snd c) p I R) as S.
    cbv zeta in S.
    assert (E : bufferIndex (add_samples r (fst (addSample (fst c) (snd c) p)))
                = bufferIndex (fst (addSample (fst c) (snd c) p))
                  + spaced_count
                      (lastSampleTime (fst (addSample (fst c) (snd c) p)))
                      (map fst r)).
    { destruct r as [|c' r'].
      - simpl. lia.
      - apply IH.
        + now apply cursor_ok_add.
        + change (removelast (c :: c' :: r'))
            with (c :: removelast (c' :: r')) in H.
          now rewrite add_samples_cons in H. }
    rewrite E.
    destruct (u32_sub (fst c) (lastSampleTime p) <? SENTENCE_SAMPLE_INTERVAL_MS)%Z.
    + now rewrite S.
    + destruct S as [S1 S2]. rewrite S1, S2. lia.
Qed.

(** C6. A call whose clock reading is less than the sample interval
    after the last stored sample is dropped: same state (buffer and
    cursor untouched), not complete.  In one recording, after M calls the
    cursor is at most M; and as long as the recording is still in
    progress when the last call is made, the cursor is the number of
    calls that were spaced at least the interval apart. *)
Theorem sample_spacing_enforced (p0 : SentencePredictor) (t : Z)
  (calls : list (Z * SensorSample)) :
  let p := startRecording t p0 in
  (forall q now x,
      (u32_sub now (lastSampleTime q) < SENTENCE_SAMPLE_INTERVAL_MS)%Z ->
      addSample now x q = (q, false)) /\
  bufferIndex (add_samples calls p) <= length calls /\
  (isRecording (add_samples (removelast calls) p) = true ->
   bufferIndex (add_samples calls p) =
     spaced_count (lastSampleTime p0) (map fst calls)).
Proof.
  intros p. split; [|split].
  - intros q now x H. now apply addSample_dropped.
  - apply (add_samples_cursor_le calls p (cursor_ok_start t p0)).
  - intros H.
    apply (add_samples_cursor_count calls p (cursor_ok_start t p0) H).
Qed.

(** C2, as the code has it. With the cursor inside the buffer (as it is
    whenever a recording is in progress), addSample reports completion
    exactly when the call is made while recording, it is spaced at least
    the sample interval after the last stored sample, and, once its
    sample is stored, the cursor is at capacity or the time since
    startRecording has reached the window duration.  On completion the
    sample of that call is in the buffer, the filled flag is set and the
    recording flag is clear; a completion by duration leaves the buffer
    partly filled. *)
Theorem completion_condition (now : Z) (x : SensorSample)
  (p : SentencePredictor) :
  bufferIndex p < SENTENCE_SAMPLES_PER_WINDOW ->
  let r := addSample now x p in
  (snd r = true <->
   isRecording p = true /\
   (SENTENCE_SAMPLE_INTERVAL_MS <= u32_sub now (lastSampleTime p))%Z /\
   (bufferIndex p + 1 = SENTENCE_SAMPLES_PER_WINDOW \/
    (SENTENCE_WINDOW_DURATION_MS <= u32_sub now (recordingStartTime p))%Z)) /\
  (snd r = true ->
   bufferFilled (fst r) = true /\ isRecording (fst r) = false /\
   bufferIndex (fst r) = bufferIndex p + 1 /\
   buffer (fst r) = array_set (buffer p) (bufferIndex p) x).
Proof.
  intros B r. unfold r.
  assert (E : u8_incr (bufferIndex p) = bufferIndex p + 1).
  { apply u8_incr_small. unfold SENTENCE_SAMPLES_PER_WINDOW in B. lia. }
  destruct (addSample_cases now x p) as [R|R T|R T C|R T C D]; simpl.
  - split; [split|]; try discriminate. intros (H & _). congruence.
  - split; [split|]; try discriminate. intros (_ & H & _). lia.
  - rewrite E in *. split; [split|]; auto.
    intros _. repeat split; auto. destruct C; [left|right]; auto.
    unfold SENTENCE_SAMPLES_PER_WINDOW in *. lia.
  - rewrite E in *. split; [split|]; try discriminate.
    intros (_ & _ & [H|H]); lia.
Qed.

(** C5, as the code has it. startRecording itself is unconditional: it
    sets the cursor to 0, zeroes the storage and takes a new start time,
    recording or not.  The guard is in the caller: the button block of
    loop() calls it only when recording() is false, so a button press
    during a recording leaves the predictor (cursor, storage and start
    time) and the mode flag as they are. *)
Theorem restart_guarded_by_caller (g : Globals) (buttonReading : bool)
  (t_edge t_stable t_start : Z) :
  recording (sentencePredictor g) = true ->
  let g' := handle_button buttonReading t_edge t_stable t_start g in
  sentencePredictor g' = sentencePredictor g /\
  sentenceModeActive g' = sentenceModeActive g /\
  (forall now p,
      bufferIndex (startRecording now p) = 0 /\
      recordingStartTime (startRecording now p) = now /\
      buffer (startRecording now p)
        = repeat zero_sample SENTENCE_SAMPLES_PER_WINDOW /\
      isRecording (startRecording now p) = true).
Proof.
  intros R g'. unfold g', handle_button. simpl. rewrite R. simpl.
  rewrite !andb_false_r. repeat split; auto.
Qed.

(* ================================================================== *)
(** * The kept-K list: one candidate *)
(* ================================================================== *)

Lemma array_set_nth {A} (a : list A) i j x d :
  i < length a ->
  nth j (array_set a i x) d = if j =? i then x else nth j a d.
Proof.
  revert i j. induction a as [|y r IH]; intros i j H; simpl in H; [lia|].
  destruct i as [|i], j as [|j]; simpl; auto.
  apply IH. lia.
Qed.

Lemma shift_right_length a pos n : length (shift_right a pos n) = length a.
Proof.
  revert a. induction n as [|m IH]; intros a; simpl; auto.
  now rewrite IH, array_set_length.
Qed.

(** The shift loop copies each entry of [pos .. pos+n-1] one place to the
    right and touches nothing else. *)
Lemma shift_right_nth a pos n j :
  pos + n < length a ->
  nth j (shift_right a pos n) nb_default =
    if (pos <? j) && (j <=? pos + n) then nth (j - 1) a nb_default
    else nth j a nb_default.
Proof.
  revert a. induction n as [|m IH]; intros a H; simpl shift_right.
  - destruct (Nat.ltb_spec pos j), (Nat.leb_spec j (pos + 0)); simpl; auto; lia.
  - rewrite IH by (rewrite array_set_length; lia).
    rewrite !array_set_nth by lia.
    destruct (Nat.ltb_spec pos j), (Nat.leb_spec j (pos + m)),
      (Nat.leb_spec j (pos + S m)), (Nat.eqb_spec (j - 1) (pos + S m)),
      (Nat.eqb_spec j (pos + S m)); simpl; auto; try lia.
    subst j. f_equal.
Qed.

(** Shift, then write at [pos]: the candidate enters at [pos] and the
    last entry leaves. *)
Lemma shift_insert_closed_form a pos c :
  pos < length a ->
  array_set (shift_right a pos (length a - 1 - pos)) pos c =
    firstn pos a ++ c :: firstn (length a - 1 - pos) (skipn pos a).
Proof.
  intros H. apply (nth_ext _ _ nb_default nb_default).
  - rewrite array_set_length, shift_right_length, length_app. simpl.
    rewrite !length_firstn, length_skipn. lia.
  - intros j Hj. rewrite array_set_length, shift_right_length in Hj.
    rewrite array_set_nth by (rewrite shift_right_length; lia).
    rewrite shift_right_nth by lia.
    destruct (Nat.eqb_spec j pos) as [E|E].
    + subst j. rewrite app_nth2 by (rewrite length_firstn; lia).
      rewrite length_firstn. replace (pos - Nat.min pos (length a)) with 0 by lia.
      reflexivity.
    + destruct (Nat.ltb_spec pos j) as [L|L]; simpl.
      * destruct (Nat.leb_spec j (pos + (length a - 1 - pos))); [|lia].
        rewrite app_nth2 by (rewrite length_firstn; lia).
        rewrite length_firstn.
        replace (j - Nat.min pos (length a)) with (S (j - 1 - pos)) by lia.
        simpl. rewrite nth_firstn.
        destruct (Nat.ltb_spec (j - 1 - pos) (length a - 1 - pos)); [|lia].
        rewrite nth_skipn. f_equal. lia.
      * rewrite app_nth1 by (rewrite length_firstn; lia).
        rewrite nth_firstn.
        destruct (Nat.ltb_spec j pos); [reflexivity|lia].
Qed.

(** What the reverse scan finds. *)
Lemma find_pos_spec d a hi :
  let pos := find_pos d a hi in
  pos <= hi /\
  (pos = 0 \/ F32.ltb d (fst (nth (pos - 1) a nb_default)) = false) /\
  (forall j, pos <= j < hi ->
             F32.ltb d (fst (nth j a nb_default)) = true).
Proof.
  induction hi as [|q IH]; simpl.
  - repeat split; auto. intros j Hj. lia.
  - destruct (F32.ltb d (fst (nth q a nb_default))) eqn:E.
    + destruct IH as (H1 & H2 & H3). repeat split; auto.
      intros j Hj. destruct (Nat.eq_dec j q) as [->|N]; auto.
      apply H3. lia.
    + repeat split; auto.
      * right. simpl. now rewrite Nat.sub_0_r.
      * intros j Hj. lia.
Qed.

Lemma sorted_nth (l : list Neighbor) i j :
  sorted_by_dist l -> i < j < length l ->
  dist_le (nth i l nb_default) (nth j l nb_default).
Proof.
  intros S. revert i j. induction S as [|x r S IH F]; intros i j H; simpl in H.
  - lia.
  - destruct j as [|j]; [lia|]. destruct i as [|i]; simpl.
    + rewrite Forall_forall in F. apply F. apply nth_In. lia.
    + apply IH. lia.
Qed.

(** Not nearer than an entry: not nearer than any entry before it. *)
Lemma sorted_not_nearer (l : list Neighbor) d i j :
  sorted_by_dist l -> i <= j < length l ->
  F32.ltb d (fst (nth j l nb_default)) = false ->
  F32.ltb d (fst (nth i l nb_default)) = false.
Proof.
  intros S H N. destruct (Nat.eq_dec i j) as [->|Ne]; auto.
  destruct (F32.ltb d (fst (nth i l nb_default))) eqn:E; auto.
  assert (L : dist_le (nth i l nb_default) (nth j l nb_default))
    by (apply sorted_nth; auto; lia).
  unfold dist_le in L. rewrite (ltb_leb_trans _ _ _ E L) in N. discriminate.
Qed.

(** Where [insert_sorted] puts the candidate. *)
Lemma insert_sorted_at c (l : list Neighbor) pos :
  pos < length l ->
  (forall j, j < pos -> F32.ltb (fst c) (fst (nth j l nb_default)) = false) ->
  F32.ltb (fst c) (fst (nth pos l nb_default)) = true ->
  insert_sorted c l = firstn pos l ++ c :: skipn pos l.
Proof.
  revert pos. induction l as [|x r IH]; intros pos H B A; simpl in H; [lia|].
  destruct pos as [|pos]; simpl in *.
  - now rewrite A.
  - pose proof (B 0 ltac:(lia)) as B0. simpl in B0. rewrite B0.
    f_equal. apply IH; try lia; auto.
    intros j Hj. apply (B (S j)). lia.
Qed.

Lemma insert_sorted_end c (l : list Neighbor) :
  (forall j, j < length l ->
             F32.ltb (fst c) (fst (nth j l nb_default)) = false) ->
  insert_sorted c l = l ++ [c].
Proof.
  induction l as [|x r IH]; intros B; simpl; auto.
  pose proof (B 0 ltac:(simpl; lia)) as B0. simpl in B0. rewrite B0.
  f_equal. apply IH.
  intros j Hj. apply (B (S j)). simpl. lia.
Qed.

Lemma firstn_insert_at {A} (l : list A) pos c :
  pos < length l ->
  firstn (length l) (firstn pos l ++ c :: skipn pos l) =
    firstn pos l ++ c :: firstn (length l - 1 - pos) (skipn pos l).
Proof.
  intros H. rewrite firstn_app, length_firstn.
  rewrite firstn_all2 by (rewrite length_firstn; lia).
  replace (length l - Nat.min pos (length l)) with (S (length l - 1 - pos))
    by lia.
  reflexivity.
Qed.

(** One step of the search is a stable sorted insertion, cut to [K]. *)
Lemma insert_neighbor_spec (K : nat) (l : list Neighbor) d lab :
  0 < K -> length l = K -> sorted_by_dist l ->
  insert_neighbor K l d lab = firstn K (insert_sorted (d, lab) l).
Proof.
  intros HK HL S. unfold insert_neighbor.
  destruct (F32.ltb d (fst (nth (K - 1) l nb_default))) eqn:E.
  - destruct (find_pos_spec d l (K - 1)) as (P1 & P2 & P3).
    set (pos := find_pos d l (K - 1)) in *.
    rewrite (insert_sorted_at (d, lab) l pos); try lia.
    + rewrite <- HL. rewrite firstn_insert_at by lia.
      apply shift_insert_closed_form. lia.
    + intros j Hj. simpl. destruct P2 as [P2|P2]; [lia|].
      apply (sorted_not_nearer l d j (pos - 1)); auto. lia.
    + simpl. destruct (Nat.eq_dec pos (K - 1)) as [->|N]; auto.
      apply P3. lia.
  - rewrite insert_sorted_end.
    + rewrite <- HL. rewrite firstn_app, firstn_all, Nat.sub_diag. simpl.
      now rewrite app_nil_r.
    + intros j Hj. simpl.
      apply (sorted_not_nearer l d j (K - 1)); auto. lia.
Qed.

(** ** Sortedness of insertions *)

Lemma sorted_firstn (l : list Neighbor) n :
  sorted_by_dist l -> sorted_by_dist (firstn n l).
Proof.
  intros S. revert n. induction S as [|x r S IH F]; intros [|n]; simpl;
    try (constructor; fail).
  constructor; [apply IH|].
  apply Forall_forall. intros y Hy. rewrite Forall_forall in F. apply F.
  rewrite <- (firstn_skipn n r). apply in_or_app. now left.
Qed.

Lemma insert_sorted_In c (l : list Neighbor) y :
  In y (insert_sorted c l) <-> y = c \/ In y l.
Proof.
  induction l as [|x r IH]; simpl.
  - intuition auto.
  - destruct (F32.ltb (fst c) (fst x)); simpl; rewrite ?IH; intuition auto.
Qed.

Lemma insert_sorted_perm c (l : list Neighbor) :
  Permutation (insert_sorted c l) (c :: l).
Proof.
  induction l as [|x r IH]; simpl; auto.
  destruct (F32.ltb (fst c) (fst x)); auto.
  rewrite IH. apply perm_swap.
Qed.

Lemma insert_sorted_length c (l : list Neighbor) :
  length (insert_sorted c l) = S (length l).
Proof. apply (Permutation_length (insert_sorted_perm c l)). Qed.

(** Inserting a candidate that is not NaN into a sorted list without
    NaN keeps it sorted. *)
Lemma insert_sorted_sorted c (l : list Neighbor) :
  F32.is_nan (fst c) = false ->
  Forall (fun x => F32.is_nan (fst x) = false) l ->
  sorted_by_dist l -> sorted_by_dist (insert_sorted c l).
Proof.
  intros Hc Hl S. revert Hl.
  induction S as [|x r S IH F]; intros Hl; simpl.
  - repeat constructor.
  - inversion Hl as [|? ? Hx Hr]; subst. specialize (IH Hr).
    destruct (F32.ltb (fst c) (fst x)) eqn:E.
    + constructor; [constructor; auto|].
      constructor; [now apply ltb_leb|].
      rewrite Forall_forall in *. intros y Hy.
      unfold dist_le. eapply leb_trans; [apply ltb_leb; eauto|]. now apply F.
    + constructor; auto.
      rewrite Forall_forall in *. intros y Hy.
      apply insert_sorted_In in Hy. destruct Hy as [->|Hy]; auto.
      unfold dist_le. now apply not_ltb_leb.
Qed.

(** A sorted list whose last entry is farther than the candidate has no
    NaN, and the candidate is not one. *)
Lemma sorted_no_nan (l : list Neighbor) d :
  sorted_by_dist l -> 0 < length l ->
  F32.ltb d (fst (nth (length l - 1) l nb_default)) = true ->
  F32.is_nan d = false /\ Forall (fun x => F32.is_nan (fst x) = false) l.
Proof.
  intros S HL E. destruct (ltb_not_nan _ _ E) as [Hd Hlast]. split; auto.
  apply Forall_forall. intros y Hy.
  destruct (In_nth _ _ nb_default Hy) as (i & Hi & <-).
  destruct (Nat.eq_dec i (length l - 1)) as [->|N]; auto.
  assert (L : dist_le (nth i l nb_default) (nth (length l - 1) l nb_default))
    by (apply sorted_nth; auto; lia).
  now apply leb_not_nan in L.
Qed.

(** The kept list stays sorted and keeps its length. *)
Lemma insert_neighbor_sorted (K : nat) (l : list Neighbor) d lab :
  0 < K -> length l = K -> sorted_by_dist l ->
  sorted_by_dist (insert_neighbor K l d lab) /\
  length (insert_neighbor K l d lab) = K.
Proof.
  intros HK HL S.
  destruct (F32.ltb d (fst (nth (K - 1) l nb_default))) eqn:E.
  - rewrite insert_neighbor_spec by auto.
    rewrite <- HL in E. destruct (sorted_no_nan l d S ltac:(lia) E) as [Hd Hl].
    split.
    + apply sorted_firstn. now apply insert_sorted_sorted.
    + rewrite length_firstn, insert_sorted_length. lia.
  - unfold insert_neighbor. rewrite E. auto.
Qed.

(** C4. On a kept list of K entries sorted by distance, a candidate is
    inserted exactly when its distance is strictly less than the K-th
    (worst) kept distance: otherwise, and so when the two are equal, the
    list is left as it is.  An inserted candidate goes to the position
    the reverse scan finds: the entries before it, all not farther than
    it (equal distances included, so earlier neighbours stay ahead), keep
    their places, the entries after it, all strictly farther, move one
    place right, and the worst entry is dropped; the list stays sorted
    with K entries. *)
Theorem strict_insertion_into_kept (K : nat) (nearest : list Neighbor)
  (dist : float) (label : nat) :
  0 < K -> length nearest = K -> sorted_by_dist nearest ->
  let worst := fst (nth (K - 1) nearest nb_default) in
  let nearest' := insert_neighbor K nearest dist label in
  (F32.ltb dist worst = false -> nearest' = nearest) /\
  (F32.eqb dist worst = true -> nearest' = nearest) /\
  (F32.ltb dist worst = true ->
   exists pos,
     pos = find_pos dist nearest (K - 1) /\ pos < K /\
     nearest' = firstn pos nearest ++ (dist, label)
                  :: firstn (K - 1 - pos) (skipn pos nearest) /\
     (forall x, In x (firstn pos nearest) -> F32.leb (fst x) dist = true) /\
     (forall x, In x (skipn pos nearest) -> F32.ltb dist (fst x) = true) /\
     nearest' <> nearest) /\
  sorted_by_dist nearest' /\ length nearest' = K.
Proof.
  intros HK HL S worst nearest'.
  assert (U : F32.ltb dist worst = false -> nearest' = nearest).
  { intros E. unfold nearest', insert_neighbor. fold worst. now rewrite E. }
  split; [exact U|]. split.
  { intros E. apply U. now apply eqb_not_ltb. }
  split; [|apply insert_neighbor_sorted; auto].
  intros E. exists (find_pos dist nearest (K - 1)).
  destruct (find_pos_spec dist nearest (K - 1)) as (P1 & P2 & P3).
  set (pos := find_pos dist nearest (K - 1)) in *.
  assert (HE : F32.ltb dist (fst (nth (length nearest - 1) nearest nb_default))
               = true) by (rewrite HL; exact E).
  destruct (sorted_no_nan nearest dist S ltac:(lia) HE) as [Hd Hl].
  assert (C : nearest' = firstn pos nearest ++ (dist, label)
                :: firstn (K - 1 - pos) (skipn pos nearest)).
  { unfold nearest', insert_neighbor. fold worst. rewrite E. fold pos.
    rewrite <- HL. apply shift_insert_closed_form. lia. }
  assert (After : forall j, pos <= j < K ->
                  F32.ltb dist (fst (nth j nearest nb_default)) = true).
  { intros j Hj. destruct (Nat.eq_dec j (K - 1)) as [->|N]; auto.
    apply P3. lia. }
  split; [reflexivity|]. split; [lia|]. split; [exact C|].
  split; [|split].
  - intros x Hx.
    destruct (In_nth _ _ nb_default Hx) as (i & Hi & <-).
    rewrite length_firstn in Hi. rewrite nth_firstn.
    destruct (Nat.ltb_spec i pos); [|lia].
    apply not_ltb_leb; auto.
    + rewrite Forall_forall in Hl. apply Hl. apply nth_In. lia.
    + destruct P2 as [P2|P2]; [lia|].
      apply (sorted_not_nearer nearest dist i (pos - 1)); auto. lia.
  - intros x Hx.
    destruct (In_nth _ _ nb_default Hx) as (i & Hi & <-).
    rewrite length_skipn in Hi. rewrite nth_skipn. apply After. lia.
  - intros Eq. rewrite C in Eq.
    assert (N : nth pos (firstn pos nearest ++ (dist, label)
                  :: firstn (K - 1 - pos) (skipn pos nearest)) nb_default
                = (dist, label)).
    { rewrite app_nth2 by (rewrite length_firstn; lia).
      rewrite length_firstn.
      replace (pos - Nat.min pos (length nearest)) with 0 by lia.
      reflexivity. }
    rewrite Eq in N. pose proof (After pos ltac:(lia)) as A.
    rewrite N in A. simpl in A. rewrite ltb_irrefl in A. discriminate.
Qed.

(* ================================================================== *)
(** * The kept-K list: the whole search *)
(* ================================================================== *)

(** The full sort, from an accumulator. *)
Lemma full_sort_snoc rows c :
  full_sort (rows ++ [c]) = insert_sorted c (full_sort rows).
Proof. unfold full_sort. now rewrite fold_left_app. Qed.

Lemma full_sort_perm rows : Permutation (full_sort rows) rows.
Proof.
  induction rows as [|c r IH] using rev_ind; [reflexivity|].
  rewrite full_sort_snoc, insert_sorted_perm, IH.
  apply Permutation_cons_append.
Qed.

Lemma full_sort_length rows : length (full_sort rows) = length rows.
Proof. apply (Permutation_length (full_sort_perm rows)). Qed.

Lemma full_sort_Forall (P : Neighbor -> Prop) rows :
  Forall P rows -> Forall P (full_sort rows).
Proof.
  intros H. eapply Permutation_Forall; [|exact H].
  symmetry. apply full_sort_perm.
Qed.

Lemma full_sort_sorted rows :
  Forall (fun x => F32.is_nan (fst x) = false) rows ->
  sorted_by_dist (full_sort rows).
Proof.
  induction rows as [|c r IH] using rev_ind; intros H.
  - constructor.
  - apply Forall_app in H. destruct H as [Hr Hc]. inversion Hc; subst.
    rewrite full_sort_snoc. apply insert_sorted_sorted; auto.
    now apply full_sort_Forall.
Qed.

Lemma below_sentinel_not_nan r :
  below_sentinel r = true -> F32.is_nan (fst r) = false.
Proof. intros H. now apply ltb_not_nan in H. Qed.

Lemma below_sentinel_le r :
  below_sentinel r = true -> F32.leb (fst r) F32.lit_1e9 = true.
Proof. apply ltb_leb. Qed.

(** Cutting before or after an insertion gives the same first [K]. *)
Lemma firstn_cons_firstn {A} (x : A) l k :
  firstn k (x :: firstn k l) = firstn k (x :: l).
Proof.
  destruct k as [|j]; [reflexivity|].
  rewrite !firstn_cons, firstn_firstn. do 2 f_equal. lia.
Qed.

Lemma firstn_insert_firstn c (l : list Neighbor) K :
  firstn K (insert_sorted c (firstn K l)) = firstn K (insert_sorted c l).
Proof.
  revert K. induction l as [|x r IH]; intros [|k]; auto.
  simpl firstn at 2. simpl insert_sorted.
  destruct (F32.ltb (fst c) (fst x)).
  - change (firstn (S k) (c :: x :: firstn k r))
      with (c :: firstn k (x :: firstn k r)).
    now rewrite firstn_cons_firstn.
  - simpl. f_equal. apply IH.
Qed.

(** A candidate nearer than every entry of a tail is inserted before
    that tail. *)
Lemma insert_sorted_app_far c (l tl : list Neighbor) :
  Forall (fun s => F32.ltb (fst c) (fst s) = true) tl ->
  insert_sorted c (l ++ tl) = insert_sorted c l ++ tl.
Proof.
  intros H. induction l as [|x r IH]; simpl.
  - destruct H as [|s tl Hs Ht]; simpl; auto. now rewrite Hs.
  - destruct (F32.ltb (fst c) (fst x)); simpl; auto. now rewrite IH.
Qed.

Lemma sentinel_le_self : F32.leb F32.lit_1e9 F32.lit_1e9 = true.
Proof. reflexivity. Qed.

(** Rows below the sentinel, followed by sentinels, are sorted. *)
Lemma sorted_app_sentinels (acc : list Neighbor) n :
  sorted_by_dist acc ->
  Forall (fun r => below_sentinel r = true) acc ->
  sorted_by_dist (acc ++ repeat sentinel n).
Proof.
  intros S. induction S as [|x r S IH F]; intros B; simpl.
  - induction n as [|m IHm]; simpl; constructor; auto.
    apply Forall_forall. intros y Hy. apply repeat_spec in Hy. subst y.
    exact sentinel_le_self.
  - inversion B as [|? ? Bx Br]; subst. constructor; [now apply IH|].
    apply Forall_app. split; auto.
    apply Forall_forall. intros y Hy. apply repeat_spec in Hy. subst y.
    now apply below_sentinel_le.
Qed.

(** ** Stability of the full sort *)

Lemma eqb_spec a b :
  F32.eqb a b = true <->
  F32.is_nan a = false /\ F32.is_nan b = false /\
  lex_cmp (fkey a) (fkey b) = Eq.
Proof.
  unfold F32.eqb, SFeqb. split.
  - destruct (SFcompare a b) as [c|] eqn:E; try discriminate.
    destruct (SFcompare_some _ _ _ E) as [Ha Hb].
    rewrite (SFcompare_key _ _ Ha Hb) in E. inversion E; subst.
    destruct (lex_cmp (fkey a) (fkey b)); try discriminate; auto.
  - intros (Ha & Hb & H). now rewrite (SFcompare_key _ _ Ha Hb), H.
Qed.

(** Two floats equal to a third are not strictly ordered. *)
Lemma eqb_eqb_not_ltb a b d :
  F32.eqb a d = true -> F32.eqb b d = true -> F32.ltb a b = false.
Proof.
  rewrite !eqb_spec. intros (Ha & Hd & H1) (Hb & _ & H2).
  destruct (F32.ltb a b) eqn:E; auto.
  apply ltb_spec in E. destruct E as (_ & _ & E).
  assert (H3 : lex_cmp (fkey d) (fkey b) = Eq)
    by (rewrite lex_cmp_opp, H2; reflexivity).
  rewrite (lex_cmp_trans _ (fkey d) _) in E by congruence.
  rewrite H1, H3 in E. discriminate.
Qed.

Lemma filter_none {A} (p : A -> bool) (l : list A) :
  (forall y, In y l -> p y = false) -> filter p l = [].
Proof.
  induction l as [|x r IH]; intros H; simpl; auto.
  rewrite (H x) by (now left). apply IH. intros y Hy. apply H. now right.
Qed.

Lemma insert_sorted_stable d c (l : list Neighbor) :
  sorted_by_dist l ->
  filter (at_distance d) (insert_sorted c l) =
    filter (at_distance d) l ++ filter (at_distance d) [c].
Proof.
  intros S. induction S as [|x r S IH F].
  - reflexivity.
  - simpl insert_sorted. destruct (F32.ltb (fst c) (fst x)) eqn:E.
    + destruct (at_distance d c) eqn:C.
      * assert (N : filter (at_distance d) (x :: r) = []).
        { apply filter_none. intros y Hy.
          assert (L : F32.ltb (fst c) (fst y) = true).
          { destruct Hy as [->|Hy]; auto.
            rewrite Forall_forall in F. eapply ltb_leb_trans; eauto.
            now apply F. }
          destruct (at_distance d y) eqn:Y; auto.
          unfold at_distance in *.
          rewrite (eqb_eqb_not_ltb _ _ _ C Y) in L. discriminate. }
        change (filter (at_distance d) (c :: x :: r))
          with (if at_distance d c then c :: filter (at_distance d) (x :: r)
                else filter (at_distance d) (x :: r)).
        rewrite N. simpl. now rewrite C.
      * change (filter (at_distance d) (c :: x :: r))
          with (if at_distance d c then c :: filter (at_distance d) (x :: r)
                else filter (at_distance d) (x :: r)).
        simpl. rewrite C. now rewrite app_nil_r.
    + simpl filter in *. rewrite IH. destruct (at_distance d x); reflexivity.
Qed.

Lemma full_sort_stable d rows :
  Forall (fun x => F32.is_nan (fst x) = false) rows ->
  filter (at_distance d) (full_sort rows) = filter (at_distance d) rows.
Proof.
  induction rows as [|c r IH] using rev_ind; intros H; [reflexivity|].
  apply Forall_app in H. destruct H as [Hr Hc].
  rewrite full_sort_snoc, insert_sorted_stable by now apply full_sort_sorted.
  rewrite IH by auto. now rewrite filter_app.
Qed.

(** ** The rows the search cannot keep sort after the others *)

(** A candidate that is nearer than no entry of a head is inserted
    after that head. *)
Lemma insert_sorted_app_near c (l tl : list Neighbor) :
  Forall (fun s => F32.ltb (fst c) (fst s) = false) l ->
  insert_sorted c (l ++ tl) = l ++ insert_sorted c tl.
Proof.
  induction 1 as [|x r Hx Hr IH]; simpl; auto.
  now rewrite Hx, IH.
Qed.

(** A row below the sentinel is nearer than a row that is not. *)
Lemma below_ltb_above a b :
  below_sentinel a = true -> below_sentinel b = false ->
  F32.is_nan (fst b) = false -> F32.ltb (fst a) (fst b) = true.
Proof.
  intros Ha Hb Nb. eapply ltb_leb_trans; [exact Ha|].
  apply not_ltb_leb; auto.
Qed.

(** Without NaN, the full sort is the sort of the rows below the
    sentinel followed by the sort of the others. *)
Lemma full_sort_split rows :
  Forall (fun x => F32.is_nan (fst x) = false) rows ->
  full_sort rows =
    full_sort (filter below_sentinel rows)
    ++ full_sort (filter (fun r => negb (below_sentinel r)) rows).
Proof.
  induction rows as [|c r IH] using rev_ind; intros H; [reflexivity|].
  apply Forall_app in H. destruct H as [Hr Hc]. inversion Hc; subst.
  rewrite full_sort_snoc, IH, !filter_app by auto. simpl filter.
  destruct (below_sentinel c) eqn:E; simpl negb; cbv iota.
  - rewrite app_nil_r, full_sort_snoc. apply insert_sorted_app_far.
    apply full_sort_Forall. apply Forall_forall. intros y Hy.
    apply filter_In in Hy. destruct Hy as [Hy Ny].
    rewrite Forall_forall in Hr.
    apply below_ltb_above; auto.
    now destruct (below_sentinel y).
  - rewrite app_nil_r, full_sort_snoc. apply insert_sorted_app_near.
    apply full_sort_Forall. apply Forall_forall. intros y Hy.
    apply filter_In in Hy. destruct Hy as [Hy Ny].
    apply leb_not_ltb, ltb_leb. now apply below_ltb_above.
Qed.

Section Search.

Variable M : SentenceModel.

Hypothesis K_positive : 0 < SENTENCE_KNN_N_NEIGHBORS M.

(** The search from a kept list that holds the first [K] of the sorted
    rows seen so far, padded with sentinels. *)
Lemma scan_rows_spec rows : forall acc,
  sorted_by_dist acc ->
  Forall (fun r => below_sentinel r = true) acc ->
  scan_rows M rows
    (firstn (SENTENCE_KNN_N_NEIGHBORS M)
       (acc ++ repeat sentinel (SENTENCE_KNN_N_NEIGHBORS M))) =
  firstn (SENTENCE_KNN_N_NEIGHBORS M)
    (fold_left (fun a c => insert_sorted c a)
       (filter below_sentinel rows) acc
     ++ repeat sentinel (SENTENCE_KNN_N_NEIGHBORS M)).
Proof.
  set (K := SENTENCE_KNN_N_NEIGHBORS M) in *.
  induction rows as [|r rows IH]; intros acc S B; [reflexivity|].
  assert (HL : length (firstn K (acc ++ repeat sentinel K)) = K).
  { rewrite length_firstn, length_app, repeat_length. lia. }
  assert (HS : sorted_by_dist (firstn K (acc ++ repeat sentinel K))).
  { apply sorted_firstn. now apply sorted_app_sentinels. }
  change (scan_rows M (r :: rows) (firstn K (acc ++ repeat sentinel K)))
    with (scan_rows M rows
            (insert_neighbor K (firstn K (acc ++ repeat sentinel K))
               (fst r) (snd r))).
  simpl filter.
  destruct (below_sentinel r) eqn:E.
  - change (fold_left (fun a c => insert_sorted c a)
              (r :: filter below_sentinel rows) acc)
      with (fold_left (fun a c => insert_sorted c a)
              (filter below_sentinel rows) (insert_sorted r acc)).
    rewrite <- IH.
    + f_equal. destruct r as [d lab]. simpl fst. simpl snd.
      rewrite insert_neighbor_spec by auto.
      rewrite firstn_insert_firstn. f_equal.
      apply insert_sorted_app_far.
      apply Forall_forall. intros y Hy. apply repeat_spec in Hy. subst y.
      exact E.
    + apply insert_sorted_sorted; auto.
      * now apply below_sentinel_not_nan.
      * eapply Forall_impl; [|exact B]. apply below_sentinel_not_nan.
    + apply Forall_forall. intros y Hy. apply insert_sorted_In in Hy.
      rewrite Forall_forall in B. destruct Hy as [->|Hy]; auto.
  - rewrite <- IH by auto. f_equal.
    unfold insert_neighbor.
    destruct (F32.ltb (fst r)
                (fst (nth (K - 1) (firstn K (acc ++ repeat sentinel K))
                        nb_default))) eqn:L; auto.
    exfalso.
    assert (I : In (nth (K - 1) (firstn K (acc ++ repeat sentinel K))
                     nb_default) (acc ++ repeat sentinel K)).
    { rewrite <- (firstn_skipn K (acc ++ repeat sentinel K)) at 2.
      apply in_or_app. left. apply nth_In. lia. }
    assert (W : F32.leb (fst (nth (K - 1)
                  (firstn K (acc ++ repeat sentinel K)) nb_default))
                  F32.lit_1e9 = true).
    { apply in_app_or in I. destruct I as [I|I].
      - rewrite Forall_forall in B. apply below_sentinel_le. now apply B.
      - apply repeat_spec in I. rewrite I. exact sentinel_le_self. }
    pose proof (ltb_leb_trans _ _ _ L W) as T.
    unfold below_sentinel in E. congruence.
Qed.

(** The kept list after the loop, for every query and dataset: the first
    [K] of the stable sort of the rows below the sentinel, padded with
    the sentinels the list started with. *)
Lemma knn_nearest_spec query :
  knn_nearest M query =
  firstn (SENTENCE_KNN_N_NEIGHBORS M)
    (full_sort (filter below_sentinel (all_rows M query))
     ++ repeat sentinel (SENTENCE_KNN_N_NEIGHBORS M)).
Proof.
  unfold knn_nearest, full_sort.
  rewrite <- scan_rows_spec by constructor.
  f_equal. unfold init_nearest. simpl app.
  symmetry. apply firstn_all2. now rewrite repeat_length.
Qed.

(** C1, as the code has it. When no row's distance to the query is NaN
    and at least K rows have a distance below the 1e9 the kept list is
    initialised with, the K kept (distance, label) pairs are the first K
    entries of the full sort of all N rows by distance, a stable sort:
    it is sorted, it is a permutation of the rows, and rows at equal
    distance stay in dataset order.  Rows at 1e9 or farther, infinity
    included, may be in the dataset: they sort after the K kept ones. *)
Theorem kept_are_first_k_of_full_sort query :
  Forall (fun r => F32.is_nan (fst r) = false) (all_rows M query) ->
  SENTENCE_KNN_N_NEIGHBORS M
    <= length (filter below_sentinel (all_rows M query)) ->
  knn_nearest M query =
    firstn (SENTENCE_KNN_N_NEIGHBORS M) (full_sort (all_rows M query)) /\
  sorted_by_dist (full_sort (all_rows M query)) /\
  Permutation (full_sort (all_rows M query)) (all_rows M query) /\
  (forall d, filter (at_distance d) (full_sort (all_rows M query))
             = filter (at_distance d) (all_rows M query)).
Proof.
  intros NN HN.
  split; [|split; [|split]].
  - rewrite knn_nearest_spec, (full_sort_split (all_rows M query)) by auto.
    rewrite !firstn_app, full_sort_length.
    replace (SENTENCE_KNN_N_NEIGHBORS M
             - length (filter below_sentinel (all_rows M query))) with 0
      by lia.
    reflexivity.
  - now apply full_sort_sorted.
  - apply full_sort_perm.
  - intros d. now apply full_sort_stable.
Qed.

End Search.

(* ================================================================== *)
(** * The majority vote *)
(* ================================================================== *)

Lemma array_set_nth_out {A} (a : list A) i j x d :
  length a <= i -> nth j (array_set a i x) d = nth j a d.
Proof.
  revert i j. induction a as [|y r IH]; intros i j H; simpl in *; auto.
  destruct i as [|i]; [lia|]. destruct j as [|j]; simpl; auto.
  apply IH. lia.
Qed.

(** One vote: the counter of the label goes up by one, modulo 256. *)
Lemma vote_nth votes l c :
  l < length votes ->
  nth c (array_set votes l (u8_incr (nth l votes 0))) 0 =
    if c =? l then u8_incr (nth l votes 0) else nth c votes 0.
Proof. intros H. now apply array_set_nth. Qed.

(** The counters are the numbers of occurrences, as long as no counter
    wraps. *)
Lemma count_votes_from labels : forall votes c,
  Forall (fun l => l < length votes) labels ->
  (forall k, nth k votes 0 + length labels < 256) ->
  nth c (fold_left vote_step labels votes) 0 =
    nth c votes 0 + count_occ Nat.eq_dec labels c.
Proof.
  induction labels as [|l r IH]; intros votes c HL HB; simpl.
  - lia.
  - inversion HL as [|? ? Hl Hr]; subst.
    assert (E : u8_incr (nth l votes 0) = nth l votes 0 + 1).
    { apply u8_incr_small. specialize (HB l). simpl in HB. lia. }
    rewrite IH.
    + unfold vote_step. rewrite vote_nth by auto. rewrite E.
      destruct (Nat.eq_dec l c) as [D|D], (Nat.eqb_spec c l) as [N|N];
        subst; try lia; congruence.
    + unfold vote_step. now rewrite array_set_length.
    + intros k. unfold vote_step. rewrite vote_nth by auto. rewrite E.
      pose proof (HB l) as HBl. specialize (HB k). simpl in HB, HBl.
      destruct (k =? l); lia.
Qed.

Lemma count_votes_spec num_classes labels c :
  Forall (fun l => l < num_classes) labels ->
  length labels < 256 ->
  nth c (count_votes num_classes labels) 0 = count_occ Nat.eq_dec labels c.
Proof.
  intros HL HK. unfold count_votes.
  rewrite count_votes_from.
  - now rewrite nth_repeat.
  - now rewrite repeat_length.
  - intros k. rewrite nth_repeat. lia.
Qed.

Lemma best_step_inv votes i st :
  (forall j, 256 <= j -> nth j votes 0 = 0) ->
  scan_inv votes i st -> scan_inv votes (S i) (best_step votes st i).
Proof.
  intros Hu. destruct st as [b m]. unfold scan_inv, best_step.
  intros (H1 & H2). destruct (Nat.ltb_spec m (nth i votes 0)) as [L|L].
  - assert (Hi : i < 256).
    { destruct (Nat.lt_ge_cases i 256) as [?|G]; auto.
      rewrite (Hu i G) in L. lia. }
    rewrite Nat.mod_small by auto. split.
    + intros j Hj. destruct (Nat.eq_dec j i) as [->|N]; auto.
      specialize (H1 j). lia.
    + right. repeat split; try lia.
      intros j Hj. specialize (H1 j). lia.
  - split.
    + intros j Hj. destruct (Nat.eq_dec j i) as [->|N]; auto.
      apply H1. lia.
    + destruct H2 as [H2|(A & B & C & D)]; [now left|right].
      repeat split; auto.
Qed.

Lemma best_scan_inv votes n : forall i st,
  (forall j, 256 <= j -> nth j votes 0 = 0) ->
  scan_inv votes i st ->
  scan_inv votes (i + n) (fold_left (best_step votes) (seq i n) st).
Proof.
  induction n as [|n IH]; intros i st Hu H; simpl.
  - now rewrite Nat.add_0_r.
  - replace (i + S n) with (S i + n) by lia.
    apply IH; auto. now apply best_step_inv.
Qed.

(** C3. For K neighbour labels (K at most 255, the range of the uint8_t
    counters; each label a class index that fits uint8_t), the label
    returned has the most votes, and among the classes with that many
    votes it is the lowest index. *)
Theorem majority_vote_first_max (num_classes : nat) (labels : list nat) :
  length labels < 256 ->
  Forall (fun l => l < num_classes /\ l < 256) labels ->
  let best := majority_vote num_classes labels in
  forall c,
    count_occ Nat.eq_dec labels c <= count_occ Nat.eq_dec labels best /\
    (count_occ Nat.eq_dec labels c = count_occ Nat.eq_dec labels best ->
     best <= c) /\
    (labels <> [] -> In best labels).
Proof.
  intros HK HL best c.
  assert (HL1 : Forall (fun l => l < num_classes) labels)
    by (eapply Forall_impl; [|exact HL]; simpl; tauto).
  set (votes := count_votes num_classes labels).
  assert (V : forall k, nth k votes 0 = count_occ Nat.eq_dec labels k)
    by (intros k; now apply count_votes_spec).
  assert (Z : forall k, num_classes <= k \/ 256 <= k ->
                        count_occ Nat.eq_dec labels k = 0).
  { intros k Hk. apply count_occ_not_In. intros I.
    rewrite Forall_forall in HL. specialize (HL k I). lia. }
  assert (Hu : forall j, 256 <= j -> nth j votes 0 = 0)
    by (intros j Hj; rewrite V; apply Z; auto).
  pose proof (best_scan_inv votes num_classes 0 (0, 0) Hu) as I.
  simpl Nat.add in I.
  assert (I0 : scan_inv votes 0 (0, 0)).
  { split; [intros j Hj; lia|now left]. }
  specialize (I I0).
  unfold best, majority_vote, best_label. fold votes.
  destruct (fold_left (best_step votes) (seq 0 num_classes) (0, 0))
    as [b m] eqn:E.
  simpl fst. destruct I as (H1 & H2).
  assert (Le : forall k, count_occ Nat.eq_dec labels k <= m).
  { intros k. destruct (Nat.lt_ge_cases k num_classes) as [Hk|Hk].
    - rewrite <- V. now apply H1.
    - rewrite Z by auto. lia. }
  destruct H2 as [(Hm & Hb)|(Hm & Hb & Hv & Hf)].
  - subst m b. assert (N : labels = []).
    { destruct labels as [|l r]; auto.
      pose proof (Le l) as Q. simpl in Q.
      destruct (Nat.eq_dec l l); [lia|congruence]. }
    subst labels. simpl. repeat split; try lia. congruence.
  - rewrite V in Hv. rewrite Hv. split; [apply Le|]. split.
    + intros Q. destruct (Nat.le_gt_cases b c) as [?|G]; auto.
      specialize (Hf c G). rewrite V in Hf. lia.
    + intros _. apply (count_occ_In Nat.eq_dec). lia.
Qed.

(* ================================================================== *)
(** * Rounding in binary32 *)
(* ================================================================== *)

(** What [SFadd] and [SFdiv] compute for [1.0f + x] and [1.0f / y]: the
    exact result, as a number of units of [2^-149], rounded to 24
    significant bits, to nearest with ties to even. *)

Section FloatRounding.

Local Open Scope Z_scope.

(** ** Digits *)

Lemma digits2_pos_bounds p :
  2 ^ (Zpos (digits2_pos p) - 1) <= Zpos p < 2 ^ Zpos (digits2_pos p).
Proof.
  induction p as [p IH|p IH|]; simpl digits2_pos;
    try (rewrite Pos2Z.inj_succ;
         replace (Z.succ (Z.pos (digits2_pos p)) - 1)
           with (Z.succ (Z.pos (digits2_pos p) - 1)) by lia;
         rewrite !Z.pow_succ_r by lia; lia).
  simpl. lia.
Qed.

Lemma Zdigits2_bounds m :
  0 < m -> 2 ^ (Zdigits2 m - 1) <= m < 2 ^ Zdigits2 m.
Proof.
  destruct m as [|p|p]; intros H; try lia. apply digits2_pos_bounds.
Qed.

Lemma Zdigits2_nonneg m : 0 <= Zdigits2 m.
Proof. destruct m; simpl; lia. Qed.

Lemma Zdigits2_pos m : 0 < m -> 0 < Zdigits2 m.
Proof. destruct m; simpl; lia. Qed.

Lemma pow2_pos k : 0 < 2 ^ k \/ (k < 0 /\ 2 ^ k = 0).
Proof.
  destruct (Z.lt_ge_cases k 0) as [H|H].
  - right. split; auto. now apply Z.pow_neg_r.
  - left. apply Z.pow_pos_nonneg; lia.
Qed.

Lemma pow2_gt0 k : 0 <= k -> 0 < 2 ^ k.
Proof. intros. apply Z.pow_pos_nonneg; lia. Qed.

Lemma pow2_le k1 k2 : 0 <= k1 <= k2 -> 2 ^ k1 <= 2 ^ k2.
Proof. intros. apply Z.pow_le_mono_r; lia. Qed.

Lemma pow2_lt k1 k2 : 0 <= k1 < k2 -> 2 ^ k1 < 2 ^ k2.
Proof. intros. apply Z.pow_lt_mono_r; lia. Qed.

Lemma pow2_lt_inv k1 k2 : 0 <= k1 -> 0 <= k2 -> 2 ^ k1 < 2 ^ k2 -> k1 < k2.
Proof.
  intros H1 H2 H. destruct (Z.lt_ge_cases k1 k2) as [L|G]; auto.
  pose proof (pow2_le k2 k1 ltac:(lia)). lia.
Qed.

(** The number of digits is determined by the bounds, and is monotone. *)
Lemma Zdigits2_unique m d :
  0 < d -> 2 ^ (d - 1) <= m < 2 ^ d -> Zdigits2 m = d.
Proof.
  intros Hd H.
  assert (Hm : 0 < m) by (pose proof (pow2_gt0 (d - 1) ltac:(lia)); lia).
  pose proof (Zdigits2_bounds m Hm) as B. pose proof (Zdigits2_pos m Hm) as P.
  assert (Zdigits2 m - 1 < d).
  { apply pow2_lt_inv; try lia. }
  assert (d - 1 < Zdigits2 m).
  { apply pow2_lt_inv; try lia. }
  lia.
Qed.

Lemma Zdigits2_mono m1 m2 : 0 <= m1 <= m2 -> Zdigits2 m1 <= Zdigits2 m2.
Proof.
  intros H. destruct (Z.eq_dec m1 0) as [->|N].
  - simpl. apply Zdigits2_nonneg.
  - pose proof (Zdigits2_bounds m1 ltac:(lia)) as B1.
    pose proof (Zdigits2_bounds m2 ltac:(lia)) as B2.
    pose proof (Zdigits2_pos m1 ltac:(lia)).
    pose proof (Zdigits2_pos m2 ltac:(lia)).
    assert (Zdigits2 m1 - 1 < Zdigits2 m2) by (apply pow2_lt_inv; lia).
    lia.
Qed.

(** ** Shifting right with a round bit and a sticky bit *)

Lemma shr_1_nonneg m r s :
  0 <= m ->
  shr_1 (Build_shr_record m r s) = Build_shr_record (m / 2) (Z.odd m) (r || s).
Proof.
  intros H. rewrite <- Z.div2_div.
  destruct m as [|p|p]; try lia; simpl; auto.
  destruct p; reflexivity.
Qed.

Lemma div_mod_double a b :
  0 < b -> 0 <= a ->
  a / (2 * b) = (a / b) / 2 /\
  a mod (2 * b) = b * ((a / b) mod 2) + a mod b.
Proof.
  intros Hb Ha.
  pose proof (Z.div_mod a b ltac:(lia)) as E.
  pose proof (Z.mod_pos_bound a b Hb) as Bt.
  pose proof (Z.div_mod (a / b) 2 ltac:(lia)) as E2.
  pose proof (Z.mod_pos_bound (a / b) 2 ltac:(lia)) as B2.
  set (q := a / b) in *. set (t := a mod b) in *.
  set (h := q / 2) in *. set (o := q mod 2) in *.
  assert (R : 0 <= b * o + t < 2 * b) by nia.
  assert (A : a = (2 * b) * h + (b * o + t)) by nia.
  split.
  - symmetry. apply (Z.div_unique_pos a (2 * b) h (b * o + t)); auto; lia.
  - symmetry. apply (Z.mod_unique_pos a (2 * b) h (b * o + t)); auto; lia.
Qed.

Lemma shr_1_encodes mrs a b :
  encodes mrs a b -> encodes (shr_1 mrs) a (2 * b).
Proof.
  destruct mrs as [m r s]. intros (Hb & Ha & Hm & Hr & Hs).
  cbn [shr_m shr_r shr_s] in Hm, Hr, Hs.
  assert (M : 0 <= m) by (subst m; apply Z.div_pos; lia).
  rewrite shr_1_nonneg by auto.
  destruct (div_mod_double a b Hb Ha) as [D1 D2].
  pose proof (Z.mod_pos_bound a b Hb) as Bt.
  pose proof (Z.mod_pos_bound (a / b) 2 ltac:(lia)) as B2.
  rewrite <- Hm in D1, D2, B2.
  unfold encodes. cbn [shr_m shr_r shr_s]. rewrite D1, D2.
  repeat split; try lia.
  - rewrite Zodd_mod. 
    assert (C : m mod 2 = 0 \/ m mod 2 = 1) by lia.
    destruct C as [C|C]; rewrite C;
      destruct (Z.leb_spec (2 * b) (2 * (b * 0 + a mod b)));
      destruct (Z.leb_spec (2 * b) (2 * (b * 1 + a mod b)));
      try reflexivity; lia.
  - rewrite Hr, Hs. 
    assert (C : m mod 2 = 0 \/ m mod 2 = 1) by lia.
    destruct C as [C|C]; rewrite C;
      destruct (Z.leb_spec b (2 * (a mod b)));
      destruct (Z.eqb_spec (a mod b) 0);
      destruct (Z.eqb_spec (2 * (a mod b)) b);
      repeat match goal with
        | |- context [ (?x =? ?y) ] => destruct (Z.eqb_spec x y)
        end; cbn [negb orb]; try reflexivity; lia.
Qed.

Lemma pow2_xO n : 2 ^ Z.pos n~0 = 2 ^ Z.pos n * 2 ^ Z.pos n.
Proof.
  rewrite <- Z.pow_add_r by lia. f_equal. lia.
Qed.

Lemma pow2_xI n : 2 ^ Z.pos n~1 = 2 ^ Z.pos n * (2 ^ Z.pos n * 2).
Proof.
  replace (Z.pos n~1) with (Z.pos n + Z.pos n + 1) by lia.
  rewrite !Z.pow_add_r by lia. change (2 ^ 1) with 2. ring.
Qed.

Lemma iter_shr_1_encodes n : forall mrs a b,
  encodes mrs a b -> encodes (SpecFloat.iter_pos shr_1 n mrs) a (2 ^ Zpos n * b).
Proof.
  induction n as [n IH|n IH|]; intros mrs a b H; simpl SpecFloat.iter_pos.
  - apply shr_1_encodes in H. apply IH in H. apply IH in H.
    rewrite pow2_xI.
    replace (2 ^ Z.pos n * (2 ^ Z.pos n * 2) * b)
      with (2 ^ Z.pos n * (2 ^ Z.pos n * (2 * b))) by ring.
    exact H.
  - apply IH in H. apply IH in H. rewrite pow2_xO.
    replace (2 ^ Z.pos n * 2 ^ Z.pos n * b)
      with (2 ^ Z.pos n * (2 ^ Z.pos n * b)) by ring.
    exact H.
  - apply shr_1_encodes in H. now change (2 ^ 1 * b) with (2 * b).
Qed.

(** ** Rounding to nearest, ties to even *)

Lemma round_encodes mrs a b :
  encodes mrs a b ->
  round_nearest_even (shr_m mrs) (loc_of_shr_record mrs) = rne a b.
Proof.
  destruct mrs as [m r s]. intros (Hb & Ha & Hm & Hr & Hs).
  cbn [shr_m shr_r shr_s] in *.
  pose proof (Z.mod_pos_bound a b Hb) as Bt.
  unfold rne. subst m r s.
  destruct (Z.compare_spec (2 * (a mod b)) b) as [C|C|C];
    destruct (Z.leb_spec b (2 * (a mod b)));
    destruct (Z.eqb_spec (a mod b) 0);
    destruct (Z.eqb_spec (2 * (a mod b)) b);
    cbn [negb orb loc_of_shr_record round_nearest_even];
    try reflexivity; lia.
Qed.

Lemma rne_bounds a b : 0 < b -> a / b <= rne a b <= a / b + 1.
Proof.
  intros. unfold rne. destruct (2 * (a mod b) ?= b); try lia.
  destruct (Z.even (a / b)); lia.
Qed.

Lemma rne_exact k b : 0 < b -> rne (k * b) b = k.
Proof.
  intros H. unfold rne. rewrite Z.mod_mul, Z.div_mul by lia.
  destruct (Z.compare_spec (2 * 0) b); try lia.
Qed.

Lemma floor_mono_aux b1 b2 q1 t1 q2 t2 :
  0 < b1 -> 0 < b2 -> 0 <= t1 < b1 -> 0 <= t2 < b2 ->
  (b1 * q1 + t1) * b2 <= (b2 * q2 + t2) * b1 ->
  q1 <= q2 /\ (q1 = q2 -> t1 * b2 <= t2 * b1).
Proof.
  intros H1 H2 T1 T2 H. split.
  - destruct (Z.lt_ge_cases q2 q1) as [L|G]; [exfalso|lia].
    assert (P : 0 < b1 * b2) by nia.
    assert (b1 * b2 * (q2 + 1) <= b1 * b2 * q1)
      by (apply Z.mul_le_mono_nonneg_l; lia).
    assert (t2 * b1 < b1 * b2) by nia.
    assert (0 <= t1 * b2) by nia.
    lia.
  - intros ->. nia.
Qed.

Lemma rne_mono a1 b1 a2 b2 :
  0 < b1 -> 0 < b2 -> a1 * b2 <= a2 * b1 -> rne a1 b1 <= rne a2 b2.
Proof.
  intros H1 H2 H.
  pose proof (Z.div_mod a1 b1 ltac:(lia)) as E1.
  pose proof (Z.mod_pos_bound a1 b1 H1) as B1.
  pose proof (Z.div_mod a2 b2 ltac:(lia)) as E2.
  pose proof (Z.mod_pos_bound a2 b2 H2) as B2.
  pose proof (rne_bounds a1 b1 H1) as R1.
  pose proof (rne_bounds a2 b2 H2) as R2.
  unfold rne in *.
  set (q1 := a1 / b1) in *. set (q2 := a2 / b2) in *.
  set (t1 := a1 mod b1) in *. set (t2 := a2 mod b2) in *.
  rewrite E1, E2 in H.
  destruct (floor_mono_aux b1 b2 q1 t1 q2 t2 H1 H2 B1 B2 H) as [Q T].
  destruct (Z.eq_dec q1 q2) as [E|N]; [|lia].
  specialize (T E). rewrite <- E in *.
  destruct (Z.compare_spec (2 * t1) b1) as [C1|C1|C1];
    destruct (Z.compare_spec (2 * t2) b2) as [C2|C2|C2];
    destruct (Z.even q1); try lia; exfalso; nia.
Qed.

Lemma rne_scale c a b : 0 < c -> 0 < b -> rne (c * a) (c * b) = rne a b.
Proof.
  intros Hc Hb. unfold rne.
  rewrite Z.div_mul_cancel_l by lia.
  rewrite Z.mul_mod_distr_l by lia.
  replace (2 * (c * (a mod b))) with (c * (2 * (a mod b))) by ring.
  rewrite <- Zmult_compare_compat_l by lia. reflexivity.
Qed.

Lemma rne_ge k a b : 0 < b -> k * b <= a -> k <= rne a b.
Proof.
  intros Hb H. rewrite <- (rne_exact k b Hb). apply rne_mono; auto. nia.
Qed.

Lemma rne_le k a b : 0 < b -> a <= k * b -> rne a b <= k.
Proof.
  intros Hb H. rewrite <- (rne_exact k b Hb). apply rne_mono; auto. nia.
Qed.

(** ** Rounding to binary32 *)

Lemma fexp32_eq e : fexp32 e = Z.max (e - 24) (-149).
Proof. reflexivity. Qed.

Lemma encodes_of_loc_exact m : 0 <= m ->
  encodes (shr_record_of_loc m loc_Exact) m 1.
Proof.
  intros H. unfold encodes. cbn [shr_record_of_loc shr_m shr_r shr_s].
  rewrite Z.div_1_r, Z.mod_1_r. repeat split; try lia.
Qed.

Lemma shr_encodes mrs a b e n :
  encodes mrs a b -> 0 <= n ->
  encodes (fst (shr mrs e n)) a (2 ^ n * b) /\ snd (shr mrs e n) = e + n.
Proof.
  intros H Hn. destruct n as [|p|p]; try lia; simpl shr.
  - simpl fst. simpl snd. change (2 ^ 0) with 1. rewrite Z.mul_1_l.
    split; [exact H|lia].
  - split; [|reflexivity]. now apply iter_shr_1_encodes.
Qed.

Lemma Zdigits2_lt_pow n k : 0 <= k -> 0 <= n < 2 ^ k -> Zdigits2 n <= k.
Proof.
  intros Hk H. destruct (Z.eq_dec n 0) as [->|N]; [simpl; lia|].
  pose proof (Zdigits2_bounds n ltac:(lia)) as B.
  pose proof (Zdigits2_pos n ltac:(lia)) as P.
  assert (Zdigits2 n - 1 < k) by (apply pow2_lt_inv; lia). lia.
Qed.

(** The second normalisation of [binary_round_aux]: nothing to do below
    [2^24], one shift at [2^24]. *)
Lemma renormalise n E :
  -149 <= E -> 0 <= n <= 16777216 ->
  (let '(mrs, e) := shr_fexp 24 128 n E loc_Exact in
   match shr_m mrs with
   | Z0 => S754_zero false
   | Zpos m =>
       if e <=? 128 - 24 then S754_finite false m e else S754_infinity false
   | Zneg _ => S754_nan
   end) = pack n E.
Proof.
  intros HE Hn. unfold shr_fexp, pack.
  destruct (Z.eq_dec n 16777216) as [->|N].
  - change (Zdigits2 16777216) with 25.
    replace (fexp 24 128 (25 + E) - E) with 1
      by (change (fexp 24 128 (25 + E)) with (Z.max (25 + E - 24) (-149)); lia).
    simpl. reflexivity.
  - assert (D : Zdigits2 n <= 24)
      by (apply Zdigits2_lt_pow; [lia|change (2 ^ 24) with 16777216; lia]).
    assert (S : fexp 24 128 (Zdigits2 n + E) - E <= 0).
    { change (fexp 24 128 (Zdigits2 n + E))
        with (Z.max (Zdigits2 n + E - 24) (-149)). lia. }
    assert (R : shr (shr_record_of_loc n loc_Exact) E
                  (fexp 24 128 (Zdigits2 n + E) - E)
                = (shr_record_of_loc n loc_Exact, E)).
    { destruct (fexp 24 128 (Zdigits2 n + E) - E); try reflexivity. lia. }
    rewrite R. cbn [shr_record_of_loc shr_m].
    destruct (Z.ltb_spec n 16777216); [|lia].
    change (128 - 24) with 104.
    destruct n as [|p|p]; try lia; reflexivity.
Qed.

Lemma binary_round_aux_spec m e l a b :
  encodes (shr_record_of_loc m l) a b ->
  -149 <= e ->
  e <= fexp32 (Zdigits2 m + e) ->
  binary_round_aux 24 128 false m e l =
    pack (rne a (2 ^ (fexp32 (Zdigits2 m + e) - e) * b))
         (fexp32 (Zdigits2 m + e)).
Proof.
  intros H He HE. set (E := fexp32 (Zdigits2 m + e)) in *.
  unfold binary_round_aux.
  assert (M : m = a / b) by (destruct H as (_ & _ & H & _); destruct l as [|[ | | ]]; exact H).
  assert (Hb : 0 < b) by apply H. assert (Ha : 0 <= a) by apply H.
  assert (M0 : 0 <= m) by (subst m; apply Z.div_pos; lia).
  destruct (shr_encodes (shr_record_of_loc m l) a b e (E - e) H ltac:(lia))
    as [S1 S2].
  unfold shr_fexp at 1. fold (fexp32 (Zdigits2 m + e)). fold E.
  destruct (shr (shr_record_of_loc m l) e (E - e)) as [mrs' e'] eqn:SH.
  simpl fst in S1. simpl snd in S2. 
  replace e' with E by lia.
  rewrite (round_encodes _ _ _ S1).
  set (n := rne a (2 ^ (E - e) * b)).
  assert (P : 0 < 2 ^ (E - e) * b).
  { pose proof (pow2_gt0 (E - e) ltac:(lia)). nia. }
  assert (N0 : 0 <= n).
  { unfold n. apply (rne_ge 0); lia. }
  assert (N1 : n <= 16777216).
  { unfold n. apply rne_le; auto.
    destruct (Z.eq_dec m 0) as [Z|NZ].
    - rewrite Z in M. 
      assert (a < b).
      { pose proof (Z.div_mod a b ltac:(lia)).
        pose proof (Z.mod_pos_bound a b Hb). nia. }
      pose proof (pow2_gt0 (E - e) ltac:(lia)). nia.
    - pose proof (Zdigits2_bounds m ltac:(lia)) as B.
      pose proof (Zdigits2_pos m ltac:(lia)) as DP.
      assert (A : a < (m + 1) * b).
      { pose proof (Z.div_mod a b ltac:(lia)).
        pose proof (Z.mod_pos_bound a b Hb). nia. }
      assert (G : 2 ^ Zdigits2 m <= 16777216 * 2 ^ (E - e)).
      { change 16777216 with (2 ^ 24). rewrite <- Z.pow_add_r by lia.
        apply pow2_le. unfold E. rewrite fexp32_eq in *. lia. }
      nia. }
  apply renormalise; [unfold E; rewrite fexp32_eq|]; lia.
Qed.

(** ** Binary32 values in units of [2^-149] *)

Lemma bounded_spec m e :
  bounded 24 128 m e = true <->
  Z.max (Zdigits2 (Zpos m) + e - 24) (-149) = e /\ e <= 104.
Proof.
  unfold bounded, canonical_mantissa.
  rewrite andb_true_iff, Z.eqb_eq, Z.leb_le.
  change (fexp 24 128 (Z.pos (digits2_pos m) + e))
    with (Z.max (Zdigits2 (Zpos m) + e - 24) (-149)).
  change (128 - 24) with 104. tauto.
Qed.

Lemma ival_canonical_lt m1 e1 m2 e2 :
  bounded 24 128 m1 e1 = true -> bounded 24 128 m2 e2 = true ->
  e1 < e2 -> Zpos m1 * 2 ^ (e1 + 149) < Zpos m2 * 2 ^ (e2 + 149).
Proof.
  rewrite !bounded_spec. intros [C1 B1] [C2 B2] L.
  pose proof (Zdigits2_bounds (Zpos m1) ltac:(lia)) as D1.
  pose proof (Zdigits2_bounds (Zpos m2) ltac:(lia)) as D2.
  pose proof (Zdigits2_pos (Zpos m1) ltac:(lia)) as P1.
  assert (Q1 : Zdigits2 (Zpos m1) <= 24) by lia.
  assert (Q2 : Zdigits2 (Zpos m2) = 24) by lia.
  rewrite Q2 in D2. change (2 ^ (24 - 1)) with 8388608 in D2.
  assert (U : Zpos m1 < 16777216).
  { change 16777216 with (2 ^ 24).
    pose proof (pow2_le (Zdigits2 (Zpos m1)) 24 ltac:(lia)). lia. }
  assert (W : 2 ^ (e2 + 149) = 2 ^ (e2 - e1 - 1) * 2 * 2 ^ (e1 + 149)).
  { replace (e2 + 149) with ((e2 - e1 - 1) + 1 + (e1 + 149)) by lia.
    rewrite !Z.pow_add_r by lia. reflexivity. }
  pose proof (pow2_gt0 (e1 + 149) ltac:(lia)).
  pose proof (pow2_gt0 (e2 - e1 - 1) ltac:(lia)).
  rewrite W. nia.
Qed.

(** On these floats the order of the comparison is the order of the
    values. *)
Lemma SFleb_ival a b :
  nonneg_finite a -> nonneg_finite b ->
  (SFleb a b = true <-> ival a <= ival b).
Proof.
  destruct a as [sa|sa| |[|] ma ea], b as [sb|sb| |[|] mb eb];
    simpl nonneg_finite; try tauto; intros Ha Hb; unfold SFleb; cbn [SFcompare ival].
  - split; [lia|reflexivity].
  - split; [|reflexivity]. intros _.
    apply bounded_spec in Hb. pose proof (pow2_gt0 (eb + 149) ltac:(lia)). nia.
  - split; [discriminate|]. intros H. exfalso.
    apply bounded_spec in Ha. pose proof (pow2_gt0 (ea + 149) ltac:(lia)). nia.
  - change (Pos.compare_cont Eq ma mb) with (Pos.compare ma mb).
    destruct (Z.compare_spec ea eb) as [E|L|G].
    + subst eb.
      apply bounded_spec in Ha. pose proof (pow2_gt0 (ea + 149) ltac:(lia)).
      destruct (Pos.compare_spec ma mb) as [E|L|G]; split; intros; 
        try reflexivity; try discriminate; try nia.
    + pose proof (ival_canonical_lt _ _ _ _ Ha Hb L). split; [lia|reflexivity].
    + pose proof (ival_canonical_lt _ _ _ _ Hb Ha G). split; [discriminate|lia].
Qed.

Lemma SFltb_ival a b :
  nonneg_finite a -> nonneg_finite b ->
  (SFltb a b = true <-> ival a < ival b).
Proof.
  destruct a as [sa|sa| |[|] ma ea], b as [sb|sb| |[|] mb eb];
    simpl nonneg_finite; try tauto; intros Ha Hb; unfold SFltb; cbn [SFcompare ival].
  - split; [discriminate|lia].
  - split; [|reflexivity]. intros _.
    apply bounded_spec in Hb. pose proof (pow2_gt0 (eb + 149) ltac:(lia)). nia.
  - split; [discriminate|]. intros H. exfalso.
    apply bounded_spec in Ha. pose proof (pow2_gt0 (ea + 149) ltac:(lia)). nia.
  - change (Pos.compare_cont Eq ma mb) with (Pos.compare ma mb).
    destruct (Z.compare_spec ea eb) as [E|L|G].
    + subst eb.
      apply bounded_spec in Ha. pose proof (pow2_gt0 (ea + 149) ltac:(lia)).
      destruct (Pos.compare_spec ma mb) as [E|L|G]; split; intros; 
        try reflexivity; try discriminate; try nia.
    + pose proof (ival_canonical_lt _ _ _ _ Ha Hb L). split; [lia|reflexivity].
    + pose proof (ival_canonical_lt _ _ _ _ Hb Ha G). split; [discriminate|lia].
Qed.

Lemma RNk_mono a1 b1 a2 b2 :
  0 < b1 -> 0 < b2 -> 0 <= a1 -> a1 * b2 <= a2 * b1 ->
  RNk a1 b1 <= RNk a2 b2.
Proof.
  intros H1 H2 A1 H. unfold RNk.
  assert (Q : a1 / b1 <= a2 / b2).
  { pose proof (Z.div_mod a1 b1 ltac:(lia)) as E1.
    pose proof (Z.mod_pos_bound a1 b1 H1) as B1.
    pose proof (Z.div_mod a2 b2 ltac:(lia)) as E2.
    pose proof (Z.mod_pos_bound a2 b2 H2) as B2.
    rewrite E1, E2 in H.
    apply (floor_mono_aux b1 b2 _ _ _ _ H1 H2 B1 B2 H). }
  assert (0 <= a1 / b1) by (apply Z.div_pos; lia).
  pose proof (Zdigits2_mono (a1 / b1) (a2 / b2) ltac:(lia)). lia.
Qed.

Lemma RN_mono a1 b1 a2 b2 :
  0 < b1 -> 0 < b2 -> 0 <= a1 -> a1 * b2 <= a2 * b1 ->
  RN a1 b1 <= RN a2 b2.
Proof.
  intros H1 H2 A1 H.
  pose proof (RNk_mono a1 b1 a2 b2 H1 H2 A1 H) as K.
  assert (A2 : 0 <= a2) by nia.
  unfold RN. set (k1 := RNk a1 b1) in *. set (k2 := RNk a2 b2) in *.
  assert (K1 : 0 <= k1) by (unfold k1, RNk; lia).
  pose proof (pow2_gt0 k1 K1) as P1. pose proof (pow2_gt0 k2 ltac:(lia)) as P2.
  destruct (Z.eq_dec k1 k2) as [E|N].
  - rewrite <- E. apply Z.mul_le_mono_nonneg_r; [lia|].
    apply rne_mono; try nia.
  - assert (L : k1 < k2) by lia.
    (* the smaller value rounds to at most 2^24 at its scale *)
    assert (U : rne a1 (2 ^ k1 * b1) <= 16777216).
    { apply rne_le; [nia|].
      destruct (Z.eq_dec (a1 / b1) 0) as [Z|NZ].
      - assert (a1 < b1).
        { pose proof (Z.div_mod a1 b1 ltac:(lia)).
          pose proof (Z.mod_pos_bound a1 b1 H1). nia. }
        nia.
      - assert (Q0 : 0 < a1 / b1)
          by (pose proof (Z.div_pos a1 b1 A1 H1); lia).
        pose proof (Zdigits2_bounds _ Q0) as B.
        pose proof (Zdigits2_pos _ Q0) as DP.
        assert (A : a1 < (a1 / b1 + 1) * b1).
        { pose proof (Z.div_mod a1 b1 ltac:(lia)).
          pose proof (Z.mod_pos_bound a1 b1 H1). nia. }
        assert (G : 2 ^ Zdigits2 (a1 / b1) <= 16777216 * 2 ^ k1).
        { change 16777216 with (2 ^ 24). rewrite <- Z.pow_add_r by lia.
          apply pow2_le. unfold k1, RNk. lia. }
        nia. }
    (* the larger value rounds to at least 2^23 at its scale *)
    assert (V : 8388608 <= rne a2 (2 ^ k2 * b2)).
    { apply rne_ge; [nia|].
      assert (D2 : Zdigits2 (a2 / b2) = k2 + 24) by (unfold k2, RNk in *; lia).
      assert (Q0 : 0 < a2 / b2).
      { destruct (Z.eq_dec (a2 / b2) 0) as [Z|NZ].
        - rewrite Z in D2. simpl in D2. lia.
        - pose proof (Z.div_pos a2 b2 A2 H2). lia. }
      pose proof (Zdigits2_bounds _ Q0) as B. rewrite D2 in B.
      replace (k2 + 24 - 1) with (23 + k2) in B by lia.
      rewrite Z.pow_add_r in B by lia. change (2 ^ 23) with 8388608 in B.
      assert (A : (a2 / b2) * b2 <= a2).
      { pose proof (Z.div_mod a2 b2 ltac:(lia)).
        pose proof (Z.mod_pos_bound a2 b2 H2). nia. }
      nia. }
    assert (W : 2 ^ k2 = 2 ^ (k2 - k1 - 1) * 2 * 2 ^ k1).
    { replace k2 with ((k2 - k1 - 1) + 1 + k1) at 1 by lia.
      rewrite !Z.pow_add_r by lia. reflexivity. }
    pose proof (pow2_gt0 (k2 - k1 - 1) ltac:(lia)) as PC.
    set (r1 := rne a1 (2 ^ k1 * b1)) in *. set (r2 := rne a2 (2 ^ k2 * b2)) in *.
    clearbody r1 r2. rewrite W.
    set (c := 2 ^ (k2 - k1 - 1)) in *. set (p := 2 ^ k1) in *.
    assert (S1 : r1 * p <= 16777216 * p)
      by (apply Z.mul_le_mono_nonneg_r; lia).
    assert (S2 : 8388608 * 1 <= r2 * c)
      by (apply Z.mul_le_mono_nonneg; lia).
    assert (S3 : (8388608 * 1) * (2 * p) <= (r2 * c) * (2 * p))
      by (apply Z.mul_le_mono_nonneg_r; lia).
    lia.
Qed.

Lemma floor_bounds a b : 0 < b -> (a / b) * b <= a < (a / b + 1) * b.
Proof.
  intros Hb. pose proof (Z.div_mod a b ltac:(lia)).
  pose proof (Z.mod_pos_bound a b Hb). nia.
Qed.

(** Shifting left adds digits. *)
Lemma Zdigits2_shift_div a b j :
  0 < b -> 0 < a / b -> 0 <= j ->
  Zdigits2 ((a * 2 ^ j) / b) = Zdigits2 (a / b) + j.
Proof.
  intros Hb Hq Hj.
  pose proof (Zdigits2_bounds _ Hq) as B. pose proof (Zdigits2_pos _ Hq) as P.
  pose proof (floor_bounds a b Hb) as F.
  pose proof (pow2_gt0 j Hj) as PJ.
  set (d := Zdigits2 (a / b)) in *.
  apply Zdigits2_unique; [lia|].
  replace (d + j - 1) with ((d - 1) + j) by lia.
  rewrite !Z.pow_add_r by lia. split.
  - apply Z.div_le_lower_bound; [lia|].
    assert (2 ^ (d - 1) * b <= a) by nia.
    assert (2 ^ (d - 1) * b * 2 ^ j <= a * 2 ^ j)
      by (apply Z.mul_le_mono_nonneg_r; lia).
    lia.
  - apply Z.div_lt_upper_bound; [lia|].
    assert (a < 2 ^ d * b) by nia.
    assert (a * 2 ^ j < 2 ^ d * b * 2 ^ j)
      by (apply Z.mul_lt_mono_pos_r; lia).
    lia.
Qed.

Lemma RNk_scale c a b : 0 < c -> 0 < b -> RNk (c * a) (c * b) = RNk a b.
Proof.
  intros Hc Hb. unfold RNk. now rewrite Z.div_mul_cancel_l by lia.
Qed.

Lemma RN_scale c a b : 0 < c -> 0 < b -> RN (c * a) (c * b) = RN a b.
Proof.
  intros Hc Hb. unfold RN. rewrite RNk_scale by auto.
  replace (2 ^ RNk a b * (c * b)) with (c * (2 ^ RNk a b * b)) by ring.
  rewrite rne_scale; auto.
  assert (0 <= RNk a b) by (unfold RNk; lia).
  pose proof (pow2_gt0 (RNk a b) ltac:(lia)). nia.
Qed.

(** [binary_round_aux] rounds the value [a / b * 2^e], seen as a number
    of units; the result is a float of the format unless it overflows. *)
Lemma round_units m e l a b :
  encodes (shr_record_of_loc m l) a b ->
  -149 <= e ->
  e <= fexp32 (Zdigits2 m + e) ->
  RN (a * 2 ^ (e + 149)) b < 2 ^ 277 ->
  nonneg_finite (binary_round_aux 24 128 false m e l) /\
  ival (binary_round_aux 24 128 false m e l) = RN (a * 2 ^ (e + 149)) b.
Proof.
  intros H He HE.
  rewrite (binary_round_aux_spec m e l a b H He HE).
  assert (M : m = a / b)
    by (destruct H as (_ & _ & H & _); destruct l as [|[ | | ]]; exact H).
  assert (Hb : 0 < b) by apply H. assert (Ha : 0 <= a) by apply H.
  assert (M0 : 0 <= m) by (subst m; apply Z.div_pos; lia).
  pose proof (floor_bounds a b Hb) as FB. rewrite <- M in FB.
  set (E := fexp32 (Zdigits2 m + e)) in *.
  assert (EE : E = Z.max (Zdigits2 m + e - 24) (-149)) by reflexivity.
  set (n := rne a (2 ^ (E - e) * b)).
  pose proof (pow2_gt0 (E - e) ltac:(lia)) as PE.
  pose proof (pow2_gt0 (e + 149) ltac:(lia)) as PU.
  assert (PB : 0 < 2 ^ (E - e) * b) by nia.
  (* the scale of the rounding *)
  assert (K : RNk (a * 2 ^ (e + 149)) b = E + 149).
  { unfold RNk. destruct (Z.eq_dec m 0) as [Z|NZ].
    - rewrite Z in *. simpl Zdigits2 in EE.
      assert (e = -149) by lia. subst e. change (2 ^ (-149 + 149)) with 1.
      rewrite Z.mul_1_r, <- M. simpl. lia.
    - rewrite Zdigits2_shift_div by lia. rewrite <- M. lia. }
  assert (R : RN (a * 2 ^ (e + 149)) b = n * 2 ^ (E + 149)).
  { unfold RN. rewrite K. f_equal. unfold n.
    replace (E + 149) with ((e + 149) + (E - e)) by lia.
    rewrite (Z.pow_add_r 2 (e + 149) (E - e)) by lia.
    replace (a * 2 ^ (e + 149)) with (2 ^ (e + 149) * a) by ring.
    replace (2 ^ (e + 149) * 2 ^ (E - e) * b)
      with (2 ^ (e + 149) * (2 ^ (E - e) * b)) by ring.
    apply rne_scale; lia. }
  rewrite R. intros OV.
  pose proof (pow2_gt0 (E + 149) ltac:(lia)) as PK.
  assert (N0 : 0 <= n) by (unfold n; apply (rne_ge 0); lia).
  (* in the normal range the mantissa has 24 bits *)
  assert (N23 : -149 < E -> 8388608 <= n).
  { intros G. unfold n. apply rne_ge; [lia|].
    assert (NZ : m <> 0).
    { intros Z. rewrite Z in EE. simpl Zdigits2 in EE. lia. }
    pose proof (Zdigits2_bounds m ltac:(lia)) as B.
    assert (D : E - e = Zdigits2 m - 24) by lia.
    assert (W : 8388608 * 2 ^ (E - e) = 2 ^ (Zdigits2 m - 1)).
    { change 8388608 with (2 ^ 23). rewrite <- Z.pow_add_r by lia.
      f_equal. lia. }
    nia. }
  assert (N24 : n <= 16777216).
  { unfold n. apply rne_le; auto.
    destruct (Z.eq_dec m 0) as [Z|NZ].
    - rewrite Z in FB. nia.
    - pose proof (Zdigits2_bounds m ltac:(lia)) as B.
      pose proof (Zdigits2_pos m ltac:(lia)) as DP.
      assert (G : 2 ^ Zdigits2 m <= 16777216 * 2 ^ (E - e)).
      { change 16777216 with (2 ^ 24). rewrite <- Z.pow_add_r by lia.
        apply pow2_le. lia. }
      nia. }
  (* no overflow *)
  assert (NO : 0 < n -> n * 2 ^ (E + 149) < 2 ^ 277 -> 
               (n < 16777216 -> E <= 104) /\ (n = 16777216 -> E + 1 <= 104)).
  { intros NP B. 
    assert (X : E + 149 <= 252 \/ (E + 149 = 253 /\ n < 16777216) \/
                254 <= E + 149 \/ (E + 149 = 253 /\ n = 16777216)) by lia.
    destruct X as [X|[X|[X|X]]]; [lia|lia| |].
    - exfalso. assert (-149 < E) by lia. specialize (N23 ltac:(lia)).
      pose proof (pow2_le 254 (E + 149) ltac:(lia)).
      assert (8388608 * 2 ^ 254 <= n * 2 ^ (E + 149))
        by (apply Z.mul_le_mono_nonneg; lia).
      change (2 ^ 277) with (8388608 * 2 ^ 254) in B. lia.
    - exfalso. destruct X as [X1 X2]. rewrite X1, X2 in B.
      vm_compute in B. discriminate. }
  unfold pack.
  destruct (Z.eqb_spec n 0) as [Z|NZ].
  - rewrite Z. simpl. split; [exact I|lia].
  - destruct (NO ltac:(lia) OV) as [NO1 NO2].
    destruct (Z.ltb_spec n 16777216) as [L|G].
    + specialize (NO1 L). destruct (Z.leb_spec E 104); [|lia].
      cbn [nonneg_finite ival]. rewrite Z2Pos.id by lia. split; [|reflexivity].
      apply bounded_spec. rewrite Z2Pos.id by lia. split; [|lia].
      destruct (Z.eq_dec E (-149)) as [S|S].
      * assert (Zdigits2 n <= 24)
          by (apply Zdigits2_lt_pow; [lia|change (2 ^ 24) with 16777216; lia]).
        lia.
      * rewrite (Zdigits2_unique n 24); lia.
    + assert (n = 16777216) by lia. specialize (NO2 H0).
      destruct (Z.leb_spec (E + 1) 104); [|lia].
      cbn [nonneg_finite ival]. split.
      * apply bounded_spec. change (Zdigits2 (Z.pos 8388608)) with 24. lia.
      * rewrite H0. replace (E + 1 + 149) with (1 + (E + 149)) by lia.
        rewrite Z.pow_add_r by lia. change (2 ^ 1) with 2. lia.
Qed.

(** ** Addition to one, division of one *)

Lemma iter_xO_pow m d : Zpos (Pos.iter xO m d) = Zpos m * 2 ^ Zpos d.
Proof.
  change (Pos.iter xO m d) with (shift_pos d m).
  rewrite shift_pos_correct, Z.pow_pos_fold. ring.
Qed.

Lemma shl_align_le m e e' :
  e' <= e ->
  Zpos (fst (shl_align m e e')) = Zpos m * 2 ^ (e - e') /\
  snd (shl_align m e e') = e'.
Proof.
  intros H. unfold shl_align. destruct (e' - e) as [|p|p] eqn:D; try lia.
  - cbn [fst snd]. replace (e - e') with 0 by lia. rewrite Z.pow_0_r.
    split; lia.
  - cbn [fst snd]. rewrite iter_xO_pow. replace (e - e') with (Zpos p) by lia.
    split; reflexivity.
Qed.

Lemma shl_align_gt m e e' : e < e' -> shl_align m e e' = (m, e).
Proof.
  intros H. unfold shl_align. destruct (e' - e) as [|p|p] eqn:D; try lia;
    reflexivity.
Qed.

Lemma Zdigits2_shift m j :
  0 < m -> 0 <= j -> Zdigits2 (m * 2 ^ j) = Zdigits2 m + j.
Proof.
  intros Hm Hj.
  pose proof (Zdigits2_shift_div m 1 j ltac:(lia)) as H.
  rewrite !Z.div_1_r in H. apply H; lia.
Qed.

(** [binary_round] of a positive integer mantissa rounds its value. *)
Lemma binary_round_units s e :
  -149 <= e ->
  RN (Zpos s * 2 ^ (e + 149)) 1 < 2 ^ 277 ->
  nonneg_finite (binary_round 24 128 false s e) /\
  ival (binary_round 24 128 false s e) = RN (Zpos s * 2 ^ (e + 149)) 1.
Proof.
  intros He OV. unfold binary_round.
  change (fexp 24 128 (Z.pos (digits2_pos s) + e))
    with (fexp32 (Zdigits2 (Zpos s) + e)).
  set (E0 := fexp32 (Zdigits2 (Zpos s) + e)).
  assert (EE : E0 = Z.max (Zdigits2 (Zpos s) + e - 24) (-149)) by reflexivity.
  destruct (shl_align s e E0) as [mz ez] eqn:SA.
  assert (P : Zpos mz * 2 ^ (ez + 149) = Zpos s * 2 ^ (e + 149) /\
              -149 <= ez /\ ez <= fexp32 (Zdigits2 (Zpos mz) + ez)).
  { destruct (Z.le_gt_cases E0 e) as [L|G].
    - destruct (shl_align_le s e E0 L) as [A1 A2]. rewrite SA in A1, A2.
      cbn [fst snd] in A1, A2. subst ez. rewrite A1.
      split; [|split; [lia|]].
      + rewrite <- Z.mul_assoc, <- Z.pow_add_r by lia. do 2 f_equal. lia.
      + rewrite Zdigits2_shift by lia. rewrite fexp32_eq. lia.
    - rewrite shl_align_gt in SA by lia. inversion SA; subst mz ez.
      split; [reflexivity|]. split; [lia|]. fold E0. lia. }
  destruct P as (P1 & P2 & P3).
  pose proof (round_units (Zpos mz) ez loc_Exact (Zpos mz) 1
                (encodes_of_loc_exact (Zpos mz) ltac:(lia)) P2 P3) as R.
  rewrite P1 in R. apply R. exact OV.
Qed.

Lemma nonneg_finite_ival x :
  nonneg_finite x -> 0 <= ival x <= max_ival.
Proof.
  destruct x as [s|s| |[|] m e]; cbn [nonneg_finite ival]; try tauto;
    intros H; try (unfold max_ival; lia).
  apply bounded_spec in H. destruct H as [C B].
  pose proof (Zdigits2_bounds (Zpos m) ltac:(lia)) as D.
  assert (Q : Zdigits2 (Zpos m) <= 24) by lia.
  assert (U : Zpos m <= 16777215).
  { pose proof (pow2_le (Zdigits2 (Zpos m)) 24
                  ltac:(pose proof (Zdigits2_nonneg (Zpos m)); lia)).
    change (2 ^ 24) with 16777216 in *. lia. }
  pose proof (pow2_gt0 (e + 149) ltac:(lia)).
  pose proof (pow2_le (e + 149) 253 ltac:(lia)).
  unfold max_ival. split; [apply Z.mul_nonneg_nonneg; lia|].
  apply Z.mul_le_mono_nonneg; lia.
Qed.

Lemma RN_one : RN (2 ^ 149) 1 = 2 ^ 149.
Proof. vm_compute. reflexivity. Qed.

Lemma RN_add_max : RN (2 ^ 149 + max_ival) 1 = max_ival.
Proof. vm_compute. reflexivity. Qed.

(** [1.0f + x] is the rounding of the exact sum; it is at least one and
    finite. *)
Lemma add_one_spec x :
  nonneg_finite x ->
  nonneg_finite (SFadd 24 128 F32.one x) /\
  ival (SFadd 24 128 F32.one x) = RN (2 ^ 149 + ival x) 1.
Proof.
  intros H. pose proof (nonneg_finite_ival x H) as B.
  assert (OV : RN (2 ^ 149 + ival x) 1 < 2 ^ 277).
  { apply Z.le_lt_trans with (m := RN (2 ^ 149 + max_ival) 1).
    - apply RN_mono; try lia.
    - rewrite RN_add_max. vm_compute. reflexivity. }
  destruct x as [s|s| |[|] mx ex]; simpl nonneg_finite in H; try tauto.
  - simpl SFadd. split; [reflexivity|]. simpl ival at 2.
    rewrite Z.add_0_r, RN_one. reflexivity.
  - assert (HB := H). apply bounded_spec in H. destruct H as [C Bx].
    unfold F32.one, SFadd. cbn [cond_Zopp].
    set (ez := Z.min (-23) ex).
    destruct (shl_align_le 8388608 (-23) ez ltac:(lia)) as [A1 _].
    destruct (shl_align_le mx ex ez ltac:(lia)) as [A2 _].
    set (p1 := fst (shl_align 8388608 (-23) ez)) in *.
    set (p2 := fst (shl_align mx ex ez)) in *.
    change (Zpos p1 + Zpos p2) with (Zpos (p1 + p2)).
    cbn [binary_normalize].
    assert (V : Zpos (p1 + p2) * 2 ^ (ez + 149) = 2 ^ 149 + Zpos mx * 2 ^ (ex + 149)).
    { rewrite Pos2Z.inj_add, A1, A2. rewrite Z.mul_add_distr_r.
      rewrite <- !Z.mul_assoc, <- !Z.pow_add_r by lia.
      replace (-23 - ez + (ez + 149)) with 126 by lia.
      replace (ex - ez + (ez + 149)) with (ex + 149) by lia.
      reflexivity. }
    cbn [ival] in *.
    rewrite <- V in *.
    apply binary_round_units; [lia|exact OV].
Qed.

Lemma new_location_encodes nb q r :
  0 < nb -> 0 <= q -> 0 <= r < nb ->
  encodes (shr_record_of_loc q (new_location nb r)) (nb * q + r) nb.
Proof.
  intros Hn Hq Hr.
  assert (D : (nb * q + r) / nb = q)
    by (symmetry; apply (Z.div_unique_pos _ nb q r); lia).
  assert (M : (nb * q + r) mod nb = r)
    by (symmetry; apply (Z.mod_unique_pos _ nb q r); lia).
  assert (A : 0 <= nb * q + r) by nia.
  pose proof (Zmod_even nb) as Ev.
  unfold encodes. rewrite D, M.
  unfold new_location, new_location_even, new_location_odd.
  destruct (Z.even nb); destruct (Z.eqb_spec r 0) as [Z|NZ];
    cbn [shr_record_of_loc shr_m shr_r shr_s];
    try (destruct (Z.compare_spec (2 * r) nb));
    try (destruct (Z.compare_spec (2 * r + 1) nb));
    cbn [shr_record_of_loc shr_m shr_r shr_s];
    destruct (Z.leb_spec nb (2 * r)); destruct (Z.eqb_spec (2 * r) nb);
    cbn [negb orb]; repeat split; try reflexivity; try lia;
    exfalso; Z.div_mod_to_equations; lia.
Qed.

Lemma Zdigits2_pow2 k : 0 <= k -> Zdigits2 (2 ^ k) = k + 1.
Proof.
  intros H. apply Zdigits2_unique; [lia|].
  replace (k + 1 - 1) with k by lia. split; [lia|]. apply pow2_lt. lia.
Qed.

Lemma RN_div_one : RN (2 ^ 298) (2 ^ 149) = 2 ^ 149.
Proof. vm_compute. reflexivity. Qed.

(** [1.0f / y], for [y] at least one, is the rounding of the exact
    quotient. *)
Lemma div_one_spec y :
  nonneg_finite y -> 2 ^ 149 <= ival y ->
  nonneg_finite (SFdiv 24 128 F32.one y) /\
  ival (SFdiv 24 128 F32.one y) = RN (2 ^ 298) (ival y).
Proof.
  intros H G. pose proof (nonneg_finite_ival y H) as B.
  assert (OV : RN (2 ^ 298) (ival y) < 2 ^ 277).
  { apply Z.le_lt_trans with (m := RN (2 ^ 298) (2 ^ 149)).
    - apply RN_mono; try lia; apply Z.mul_le_mono_nonneg_l; lia.
    - rewrite RN_div_one. vm_compute. reflexivity. }
  destruct y as [s|s| |[|] my ey]; cbn [nonneg_finite] in H; try tauto;
    try (cbn [ival] in G; lia).
  cbn [ival] in *.
  apply bounded_spec in H. destruct H as [C By].
  pose proof (Zdigits2_bounds (Zpos my) ltac:(lia)) as DB.
  pose proof (Zdigits2_pos (Zpos my) ltac:(lia)) as DP.
  assert (Q : Zdigits2 (Zpos my) <= 24) by lia.
  assert (U : Zpos my < 16777216).
  { pose proof (pow2_le (Zdigits2 (Zpos my)) 24 ltac:(lia)).
    change (2 ^ 24) with 16777216 in *. lia. }
  assert (EY : -23 <= ey).
  { destruct (Z.lt_ge_cases ey (-23)) as [L|]; [exfalso|lia].
    assert (-149 <= ey) by lia.
    pose proof (pow2_le (ey + 149) 125 ltac:(lia)).
    pose proof (pow2_gt0 (ey + 149) ltac:(lia)).
    assert (Zpos my * 2 ^ (ey + 149) <= Zpos my * 2 ^ 125)
      by (apply Z.mul_le_mono_nonneg_l; lia).
    assert (Zpos my * 2 ^ 125 < 16777216 * 2 ^ 125)
      by (apply Z.mul_lt_mono_pos_r; [apply pow2_gt0|]; lia).
    change (16777216 * 2 ^ 125) with (2 ^ 149) in *. lia. }
  assert (D2 : Zdigits2 (Zpos my) = 24) by lia.
  rewrite D2 in DB. change (2 ^ (24 - 1)) with 8388608 in DB.
  set (e' := Z.max (-47 - ey) (-149)).
  set (s := -23 - ey - e').
  assert (S0 : 22 <= s <= 24) by (unfold s, e'; lia).
  set (m' := 8388608 * 2 ^ s).
  pose proof (pow2_gt0 s ltac:(lia)) as PS.
  assert (core : SFdiv_core_binary 24 128 (Zpos 8388608) (-23) (Zpos my) ey =
                 (m' / Zpos my, e', new_location (Zpos my) (m' mod Zpos my))).
  { unfold SFdiv_core_binary. rewrite D2.
    change (Zdigits2 (Zpos 8388608)) with 24.
    change (fexp 24 128 (24 + -23 - (24 + ey)))
      with (Z.max (24 + -23 - (24 + ey) - 24) (-149)).
    replace (Z.min (Z.max (24 + -23 - (24 + ey) - 24) (-149)) (-23 - ey))
      with e' by (unfold e'; lia).
    fold s. destruct s as [|p|p] eqn:SE; try lia.
    rewrite Z.shiftl_mul_pow2 by lia. fold m'.
    unfold Z.div, Z.modulo. destruct (Z.div_eucl m' (Zpos my)). reflexivity. }
  unfold SFdiv, F32.one. rewrite core. cbn [xorb].
  set (q := m' / Zpos my) in *. set (r := m' mod Zpos my) in *.
  pose proof (Z.mod_pos_bound m' (Zpos my) ltac:(lia)) as RB. fold r in RB.
  assert (M0 : 0 < m') by (unfold m'; lia).
  assert (Q0 : 0 <= q) by (unfold q; apply Z.div_pos; lia).
  pose proof (new_location_encodes (Zpos my) q r ltac:(lia) Q0 RB) as EN.
  replace (Zpos my * q + r) with m' in EN
    by (unfold q, r; apply Z.div_mod; lia).
  (* the quotient has at least [s] digits *)
  assert (QD : s <= Zdigits2 q).
  { assert (L : 2 ^ (s - 1) <= q).
    { unfold q. apply Z.div_le_lower_bound; [lia|].
      unfold m'. replace s with (1 + (s - 1)) at 2 by lia.
      rewrite Z.pow_add_r by lia. change (2 ^ 1) with 2.
      pose proof (pow2_gt0 (s - 1) ltac:(lia)). nia. }
    pose proof (Zdigits2_mono (2 ^ (s - 1)) q) as Mo.
    rewrite Zdigits2_pow2 in Mo by lia.
    pose proof (pow2_gt0 (s - 1) ltac:(lia)). lia. }
  assert (HE : e' <= fexp32 (Zdigits2 q + e')).
  { rewrite fexp32_eq. unfold s, e' in *. lia. }
  assert (V : m' * 2 ^ (e' + 149) = 2 ^ (149 - ey)).
  { unfold m'. change 8388608 with (2 ^ 23).
    rewrite <- !Z.pow_add_r by (unfold e'; lia). f_equal. unfold s. lia. }
  assert (W : RN (2 ^ (149 - ey)) (Zpos my) =
              RN (2 ^ 298) (Zpos my * 2 ^ (ey + 149))).
  { pose proof (pow2_gt0 (ey + 149) ltac:(lia)) as PC.
    rewrite <- (RN_scale (2 ^ (ey + 149)) (2 ^ (149 - ey)) (Zpos my)) by lia.
    rewrite <- Z.pow_add_r by lia.
    replace (ey + 149 + (149 - ey)) with 298 by lia.
    f_equal. ring. }
  pose proof (round_units q e' (new_location (Zpos my) r) m' (Zpos my) EN
                ltac:(unfold e'; lia) HE) as R.
  rewrite V, W in R. apply R. exact OV.
Qed.

(** ** The confidence score, in units *)

Lemma RN_nonneg a b : 0 < b -> 0 <= a -> 0 <= RN a b.
Proof.
  intros Hb Ha. unfold RN.
  assert (0 <= RNk a b) by (unfold RNk; lia).
  pose proof (pow2_gt0 (RNk a b) ltac:(lia)).
  apply Z.mul_nonneg_nonneg; [|lia]. apply (rne_ge 0); nia.
Qed.

Lemma add_one_ge X : 0 <= X -> 2 ^ 149 <= RN (2 ^ 149 + X) 1.
Proof.
  intros H. rewrite <- RN_one at 1. apply RN_mono; lia.
Qed.

Lemma conf_spec x :
  nonneg_finite x ->
  nonneg_finite (confidence x) /\ ival (confidence x) = conf_units (ival x).
Proof.
  intros H. pose proof (nonneg_finite_ival x H) as B.
  destruct (add_one_spec x H) as [A1 A2].
  change (confidence x)
    with (SFdiv 24 128 F32.one (SFadd 24 128 F32.one x)).
  unfold conf_units. rewrite <- A2.
  apply div_one_spec; auto. rewrite A2. apply add_one_ge. lia.
Qed.

Lemma conf_units_mono X1 X2 :
  0 <= X1 <= X2 -> conf_units X2 <= conf_units X1.
Proof.
  intros H. unfold conf_units.
  pose proof (add_one_ge X1 ltac:(lia)) as G1.
  pose proof (add_one_ge X2 ltac:(lia)) as G2.
  assert (M : RN (2 ^ 149 + X1) 1 <= RN (2 ^ 149 + X2) 1)
    by (apply RN_mono; lia).
  apply RN_mono; try lia; apply Z.mul_le_mono_nonneg_l; lia.
Qed.

Lemma conf_units_zero : conf_units 0 = 2 ^ 149.
Proof. vm_compute. reflexivity. Qed.

Lemma conf_units_max : 0 < conf_units max_ival.
Proof. vm_compute. reflexivity. Qed.

End FloatRounding.

(* ================================================================== *)
(** * The confidence score *)
(* ================================================================== *)

Lemma confidence_exact_pos (d : Q) :
  (0 <= d)%Q -> (0 < confidence_exact d)%Q.
Proof.
  intros H. unfold confidence_exact, Qdiv. rewrite Qmult_1_l.
  apply Qinv_lt_0_compat.
  apply Qlt_le_trans with (y := (1 + 0)%Q); [reflexivity|].
  apply Qplus_le_r. exact H.
Qed.

Lemma confidence_exact_le_1 (d : Q) :
  (0 <= d)%Q -> (confidence_exact d <= 1)%Q.
Proof.
  intros H. unfold confidence_exact.
  apply Qle_shift_div_r.
  - apply Qlt_le_trans with (y := (1 + 0)%Q); [reflexivity|].
    apply Qplus_le_r. exact H.
  - rewrite Qmult_1_l. rewrite <- (Qplus_0_r 1) at 1.
    apply Qplus_le_r. exact H.
Qed.

Lemma confidence_exact_decreasing (d1 d2 : Q) :
  (0 <= d1)%Q -> (d1 < d2)%Q ->
  (confidence_exact d2 < confidence_exact d1)%Q.
Proof.
  intros H0 H. unfold confidence_exact, Qdiv. rewrite !Qmult_1_l.
  assert (P1 : (0 < 1 + d1)%Q).
  { apply Qlt_le_trans with (y := (1 + 0)%Q); [reflexivity|].
    apply Qplus_le_r. exact H0. }
  assert (P2 : (1 + d1 < 1 + d2)%Q) by (apply Qplus_lt_r; exact H).
  apply -> Qinv_lt_contravar; auto.
  eapply Qlt_trans; eauto.
Qed.

(** Where no rounding occurs the code computes the exact formula: at the
    distances 0, 1, 3 and 7 the score is 1, 1/2, 1/4 and 1/8. *)
Lemma confidence_exact_on_samples :
  Forall (fun n => (float_to_Q (confidence (F32.of_Z n))
                    == confidence_exact (inject_Z n))%Q)
         [0; 1; 3; 7]%Z.
Proof. repeat (apply Forall_cons; [reflexivity|]). apply Forall_nil. Qed.

(** Read over the rationals, without rounding, the score lies in (0,1]
    for a non-negative distance, is strictly decreasing, and is 1 at 0. *)
Lemma confidence_exact_properties (d1 d2 : Q) :
  (0 <= d1)%Q -> (d1 < d2)%Q ->
  (0 < confidence_exact d1)%Q /\ (confidence_exact d1 <= 1)%Q /\
  (0 < confidence_exact d2)%Q /\
  (confidence_exact d2 < confidence_exact d1)%Q /\
  (confidence_exact 0 == 1)%Q.
Proof.
  intros H0 H.
  assert (H2 : (0 <= d2)%Q) by (apply Qlt_le_weak; eapply Qle_lt_trans; eauto).
  split; [now apply confidence_exact_pos|].
  split; [now apply confidence_exact_le_1|].
  split; [now apply confidence_exact_pos|].
  split; [now apply confidence_exact_decreasing|].
  reflexivity.
Qed.

(** C9, as the code has it. For finite non-negative mean distances (a
    zero or a positive binary32 float), the score the code computes,
    1.0f / (1.0f + meanDistance), lies in (0,1], does not increase when
    the distance increases, and is exactly 1.0f at distance 0. *)
Theorem confidence_bounded_and_monotone (d1 d2 : float) :
  nonneg_finite d1 -> nonneg_finite d2 -> F32.leb d1 d2 = true ->
  F32.ltb F32.zero (confidence d2) = true /\
  F32.leb (confidence d2) (confidence d1) = true /\
  F32.leb (confidence d1) F32.one = true /\
  confidence F32.zero = F32.one.
Proof.
  intros H1 H2 L.
  apply (SFleb_ival d1 d2 H1 H2) in L.
  pose proof (nonneg_finite_ival d1 H1) as B1.
  pose proof (nonneg_finite_ival d2 H2) as B2.
  destruct (conf_spec d1 H1) as [F1 V1].
  destruct (conf_spec d2 H2) as [F2 V2].
  assert (O : nonneg_finite F32.one) by reflexivity.
  split; [|split; [|split]].
  - apply SFltb_ival; [exact I|exact F2|]. rewrite V2.
    change (ival F32.zero) with 0%Z.
    pose proof (conf_units_mono (ival d2) max_ival ltac:(lia)).
    pose proof conf_units_max. lia.
  - apply SFleb_ival; auto. rewrite V1, V2. apply conf_units_mono. lia.
  - apply SFleb_ival; auto. rewrite V1.
    change (ival F32.one) with (2 ^ 149)%Z. rewrite <- conf_units_zero.
    apply conf_units_mono. lia.
  - reflexivity.
Qed.

(* ================================================================== *)
(** * The window buffer: what a recording holds *)
(* ================================================================== *)

Lemma array_set_split {A} (a : list A) i x :
  i < length a ->
  array_set a i x = firstn i a ++ x :: skipn (S i) a.
Proof.
  revert i. induction a as [|y r IH]; intros i H; simpl in H; [lia|].
  destruct i as [|i]; simpl; auto.
  f_equal. apply IH. lia.
Qed.

Lemma skipn_array_set {A} (a : list A) i x :
  i < length a -> skipn (S i) (array_set a i x) = skipn (S i) a.
Proof.
  revert i. induction a as [|y r IH]; intros i H; simpl in H; [lia|].
  destruct i as [|i]; simpl; auto.
  apply IH. lia.
Qed.

Lemma firstn_array_set {A} (a : list A) i x :
  i < length a -> firstn (S i) (array_set a i x) = firstn i a ++ [x].
Proof.
  revert i. induction a as [|y r IH]; intros i H; simpl in H; [lia|].
  destruct i as [|i]; simpl; auto.
  f_equal. apply IH. lia.
Qed.

Lemma skipn_S_repeat {A} (l : list A) i x n :
  skipn i l = repeat x n -> skipn (S i) l = repeat x (n - 1).
Proof.
  intros H. replace (S i) with (1 + i) by lia.
  rewrite <- skipn_skipn, H. destruct n; simpl; auto.
  now rewrite Nat.sub_0_r.
Qed.

Lemma flat_map_sample_fields_length (l : list SensorSample) :
  length (flat_map sample_fields l) = 12 * length l.
Proof. induction l as [|s r IH]; simpl; auto. rewrite IH. lia. Qed.

Lemma flat_map_zero_samples n :
  flat_map sample_fields (repeat zero_sample n) = repeat F32.zero (12 * n).
Proof.
  induction n as [|n IH]; [reflexivity|].
  replace (12 * S n) with (12 + 12 * n) by lia.
  rewrite repeat_app. cbn [repeat flat_map]. rewrite IH. reflexivity.
Qed.

Lemma zero_padded_add now x p :
  cursor_ok p -> zero_padded p -> zero_padded (fst (addSample now x p)).
Proof.
  intros I Z.
  destruct (addSample_cases now x p) as [R|R T|R T C|R T C D]; simpl fst;
    auto.
  all: destruct (store_in_bounds p I R) as [B E]; intros _;
    cbn [buffer bufferIndex store_sample mark_filled];
    rewrite E; replace (bufferIndex p + 1) with (S (bufferIndex p)) by lia;
    rewrite skipn_array_set by auto;
    replace (SENTENCE_SAMPLES_PER_WINDOW - S (bufferIndex p))
      with (SENTENCE_SAMPLES_PER_WINDOW - bufferIndex p - 1) by lia;
    apply skipn_S_repeat; apply Z; auto.
Qed.

Section RecordingContents.

Variable M : SentenceModel.

Lemma zero_padded_step p o :
  cursor_ok p -> zero_padded p -> zero_padded (step M p o).
Proof.
  intros I Z. destruct o; simpl.
  - intros _. reflexivity.
  - now apply zero_padded_add.
  - now rewrite predict_state.
  - intros [H|H]; discriminate.
Qed.

Lemma zero_padded_run ops p :
  cursor_ok p -> zero_padded p -> zero_padded (run M ops p).
Proof.
  revert p. induction ops as [|o r IH]; intros p I Z; simpl; auto.
  apply IH; [now apply cursor_ok_step|now apply zero_padded_step].
Qed.

(** Every write of [addSample] is inside the buffer.  In every state a
    session reaches from the constructed predictor the buffer has its 80
    slots; while a recording is in progress the cursor is a valid index
    and its increment does not wrap; and when none is in progress
    [addSample] writes nothing at all. *)
Theorem buffer_writes_in_bounds (ops : list Op) (now : Z) (x : SensorSample) :
  let p := run M ops SentencePredictor_new in
  length (buffer p) = SENTENCE_SAMPLES_PER_WINDOW /\
  (if isRecording p
   then bufferIndex p < length (buffer p) /\
        u8_incr (bufferIndex p) = bufferIndex p + 1
   else fst (addSample now x p) = p).
Proof.
  intros p.
  assert (I : cursor_ok p) by (apply cursor_ok_run, cursor_ok_new).
  split; [apply I|].
  destruct (isRecording p) eqn:R.
  - now apply store_in_bounds.
  - now rewrite addSample_idle.
Qed.

(** No stale samples.  In every state a session reaches from the
    constructed predictor, while a recording is in progress and when a
    window is ready, the slots from the cursor on are all zero; so the
    features [predict] builds for a window that the duration completed
    early are zero from position [12 * bufferIndex] on, never samples of
    an earlier recording. *)
Theorem unwritten_slots_are_zero (ops : list Op) :
  let p := run M ops SentencePredictor_new in
  isRecording p = true \/ bufferFilled p = true ->
  skipn (bufferIndex p) (buffer p)
    = repeat zero_sample (SENTENCE_SAMPLES_PER_WINDOW - bufferIndex p) /\
  skipn (12 * bufferIndex p) (flatten_buffer (buffer p))
    = repeat F32.zero (12 * (SENTENCE_SAMPLES_PER_WINDOW - bufferIndex p)).
Proof.
  intros p H.
  assert (I : cursor_ok p) by (apply cursor_ok_run, cursor_ok_new).
  assert (Z : zero_padded p).
  { apply zero_padded_run; [apply cursor_ok_new|]. intros _. reflexivity. }
  specialize (Z H). split; [exact Z|].
  destruct I as [I1 _ _ I4].
  unfold flatten_buffer. rewrite <- I4, firstn_all.
  rewrite <- (firstn_skipn (bufferIndex p) (buffer p)) at 1.
  rewrite flat_map_app, skipn_app.
  rewrite flat_map_sample_fields_length, length_firstn, Nat.min_l by lia.
  rewrite skipn_all2
    by (rewrite flat_map_sample_fields_length, length_firstn; lia).
  rewrite Nat.sub_diag. rewrite skipn_O, Z, I4. cbn [app].
  apply flat_map_zero_samples.
Qed.


(** Flattening: feature [12 * t + k] is field [k] of sample [t]. *)
Lemma flat_map_sample_fields_nth (b : list SensorSample) t k :
  t < length b -> k < 12 ->
  nth (12 * t + k) (flat_map sample_fields b) F32.zero
    = nth k (sample_fields (nth t b zero_sample)) F32.zero.
Proof.
  revert t. induction b as [|s r IH]; intros t Ht Hk; simpl in Ht; [lia|].
  cbn [flat_map]. destruct t as [|t].
  - rewrite Nat.mul_0_r, Nat.add_0_l. now rewrite app_nth1 by (simpl; lia).
  - rewrite app_nth2 by (simpl; lia).
    replace (12 * S t + k - length (sample_fields s)) with (12 * t + k)
      by (simpl; lia).
    cbn [nth]. apply IH; lia.
Qed.

(** The feature vector of [predict].  In every state a session reaches,
    flattening the buffer gives 80 * 12 = 960 features, sample after
    sample: feature [12 * t + k] is field [k] (in the order f1..f5, gdp,
    ax, ay, az, gx, gy, gz) of the sample in slot [t]. *)
Theorem feature_layout (ops : list Op) (t k : nat) :
  t < SENTENCE_SAMPLES_PER_WINDOW -> k < 12 ->
  let p := run M ops SentencePredictor_new in
  length (flatten_buffer (buffer p)) = 960 /\
  nth (12 * t + k) (flatten_buffer (buffer p)) F32.zero
    = nth k (sample_fields (nth t (buffer p) zero_sample)) F32.zero.
Proof.
  intros Ht Hk p.
  assert (I : cursor_ok p) by (apply cursor_ok_run, cursor_ok_new).
  destruct I as [_ _ _ I4].
  unfold flatten_buffer. rewrite <- I4, firstn_all. split.
  - rewrite flat_map_sample_fields_length, I4. reflexivity.
  - apply flat_map_sample_fields_nth; auto. now rewrite I4.
Qed.

End RecordingContents.

Lemma skipn_array_set_gt {A} (a : list A) i j x :
  i < j -> skipn j (array_set a i x) = skipn j a.
Proof.
  revert i j. induction a as [|y r IH]; intros i j H.
  - destruct i; reflexivity.
  - destruct j as [|j]; [lia|]. destruct i as [|i]; simpl; auto.
    apply IH. lia.
Qed.

Lemma skipn_repeat_sub {A} (x : A) n k :
  skipn k (repeat x n) = repeat x (n - k).
Proof.
  revert k. induction n as [|n IH]; intros [|k]; simpl; auto.
Qed.

(** When every call of a run moved the cursor, the samples sit in the
    slots the cursor went through, in call order. *)
Lemma add_samples_all_stored calls : forall p,
  cursor_ok p ->
  bufferIndex (add_samples calls p) = bufferIndex p + length calls ->
  buffer (add_samples calls p)
    = firstn (bufferIndex p) (buffer p) ++ map snd calls
      ++ skipn (bufferIndex p + length calls) (buffer p).
Proof.
  induction calls as [|c r IH]; intros p I H.
  - cbn [add_samples fold_left map length app]. rewrite Nat.add_0_r.
    symmetry. apply firstn_skipn.
  - rewrite add_samples_cons in *. simpl length in *.
    set (q := fst (addSample (fst c) (snd c) p)) in *.
    assert (Iq : cursor_ok q) by now apply cursor_ok_add.
    pose proof (add_samples_cursor_le r q Iq) as L1.
    pose proof (addSample_cursor_step (fst c) (snd c) p I) as L2. fold q in L2.
    assert (E1 : bufferIndex q = bufferIndex p + 1) by lia.
    assert (E2 : bufferIndex (add_samples r q) = bufferIndex q + length r)
      by lia.
    rewrite (IH q Iq E2).
    assert (B : bufferIndex p < length (buffer p) /\
  buffer q = array_set (buffer p) (bufferIndex p) (snd c)).
    { unfold q in *.
      destruct (addSample_cases (fst c) (snd c) p) as [R|R T|R T C|R T C D];
        simpl fst in *; try lia.
      all: split; [apply (store_in_bounds p I R)|reflexivity]. }
    destruct B as [B1 B2]. rewrite E1, B2.
    replace (bufferIndex p + 1) with (S (bufferIndex p)) by lia.
    rewrite firstn_array_set by auto.
    rewrite skipn_array_set_gt by lia.
    rewrite <- app_assoc. cbn [map app].
    replace (S (bufferIndex p) + length r)
      with (bufferIndex p + S (length r)) by lia.
    reflexivity.
Qed.

(** Samples are stored in arrival order.  After [startRecording], when
    every call of a run of [addSample] calls stored its sample (the
    cursor equals the number of calls), the buffer is the samples of the
    calls, in call order, followed by zeroed slots up to 80. *)
Theorem samples_stored_in_order (p0 : SentencePredictor) (t : Z)
  (calls : list (Z * SensorSample)) :
  let q := add_samples calls (startRecording t p0) in
  bufferIndex q = length calls ->
  buffer q
    = map snd calls
      ++ repeat zero_sample (SENTENCE_SAMPLES_PER_WINDOW - length calls).
Proof.
  intros q H.
  pose proof (add_samples_all_stored calls (startRecording t p0)
                (cursor_ok_start t p0) H) as E.
  unfold q. rewrite E. cbn [bufferIndex buffer startRecording firstn].
  rewrite Nat.add_0_l, skipn_repeat_sub. reflexivity.
Qed.

(* ================================================================== *)
(** * The window buffer: remaining time *)
(* ================================================================== *)

Lemma u32_sub_range a b : (0 <= u32_sub a b < 2 ^ 32)%Z.
Proof. unfold u32_sub. apply Z.mod_pos_bound. reflexivity. Qed.

(** [getRemainingTime] is between 0 and the window duration; during a
    recording it is the duration minus the elapsed time until that is
    used up, and it is 0 exactly when the duration fallback of
    [addSample] applies: a spaced call at the same clock reading then
    completes the window. *)
Theorem remaining_time_spec (now : Z) (x : SensorSample)
  (p : SentencePredictor) :
  let elapsed := u32_sub now (recordingStartTime p) in
  (0 <= getRemainingTime now p <= SENTENCE_WINDOW_DURATION_MS)%Z /\
  (isRecording p = false -> getRemainingTime now p = 0%Z) /\
  (isRecording p = true ->
   getRemainingTime now p = Z.max 0 (SENTENCE_WINDOW_DURATION_MS - elapsed) /\
  (getRemainingTime now p = 0%Z <->
    (SENTENCE_WINDOW_DURATION_MS <= elapsed)%Z) /\
  (getRemainingTime now p = 0%Z ->
    (SENTENCE_SAMPLE_INTERVAL_MS <= u32_sub now (lastSampleTime p))%Z ->
    snd (addSample now x p) = true)).
Proof.
  intros elapsed. pose proof (u32_sub_range now (recordingStartTime p)) as B.
  fold elapsed in B. unfold getRemainingTime. fold elapsed.
  unfold SENTENCE_WINDOW_DURATION_MS in *.
  destruct (isRecording p) eqn:R; simpl negb; cbv iota.
  - destruct (Z.leb_spec 4000 elapsed) as [L|L].
    + split; [lia|]. split; [discriminate|]. intros _.
      split; [lia|]. split; [tauto|]. intros _ S.
      rewrite addSample_stored by auto. cbv zeta.
      fold elapsed. unfold SENTENCE_WINDOW_DURATION_MS.
      destruct (Z.leb_spec 4000 elapsed); [|lia].
      rewrite orb_true_r. reflexivity.
    + split; [lia|]. split; [discriminate|]. intros _.
      split; [lia|]. split; [lia|]. intros H. lia.
  - split; [lia|]. split; [reflexivity|]. discriminate.
Qed.

(* ================================================================== *)
(** * The window buffer: sample count against the clock *)
(* ================================================================== *)

Lemma u32_sub_exact a b :
  (0 <= b <= a)%Z -> (a < 2 ^ 32)%Z -> u32_sub a b = (a - b)%Z.
Proof. intros H1 H2. unfold u32_sub. apply Z.mod_small. lia. Qed.

Lemma late_gap t0 delta q t rest :
  (0 <= t0)%Z -> (0 <= delta <= 4000)%Z ->
  (t0 + delta <= t < 2 ^ 32)%Z ->
  late_inv t0 delta q (t :: rest) ->
  isRecording q = true ->
  (SENTENCE_SAMPLE_INTERVAL_MS <= u32_sub t (lastSampleTime q))%Z ->
  (50 * Z.of_nat (bufferIndex q + 1) + delta < 4100)%Z /\
  (t0 + delta + 50 * (Z.of_nat (bufferIndex q + 1) - 1) <= t)%Z.
Proof.
  intros H0 Hd Ht [I St B E L O D] R T.
  destruct (bufferIndex q) as [|n] eqn:N; [lia|].
  assert (N1 : 1 <= S n) by lia.
  destruct (L N1) as [L1 L2]. destruct (O N1 R) as [O1 O2].
  inversion O2 as [|? ? O3 O4]; subst.
  rewrite u32_sub_exact in T by lia.
  rewrite interval_value in T. lia.
Qed.

Lemma late_inv_add t0 delta q t x rest :
  (0 <= t0)%Z -> (0 <= delta <= 4000)%Z ->
  (t0 + delta <= t < 2 ^ 32)%Z ->
  Forall (fun u => (t <= u)%Z) rest ->
  late_inv t0 delta q (t :: rest) ->
  late_inv t0 delta (fst (addSample t x q)) rest.
Proof.
  intros H0 Hd Ht Hs [I St B E L O D].
  assert (V : (t0 + delta <= t)%Z) by lia.
  destruct (addSample_cases t x q) as [R|R T|R T C|R T C K]; simpl fst.
  - split; auto. intros N R'. congruence.
  - split; auto. intros N R'. destruct (O N R') as [O1 O2].
    split; auto. now inversion O2.
  - destruct (store_in_bounds q I R) as [_ U].
    destruct (late_gap t0 delta q t rest H0 Hd Ht
                (Build_late_inv _ _ _ _ I St B E L O D) R T) as [B' L'].
    split; cbn [bufferIndex lastSampleTime isRecording bufferFilled
                recordingStartTime mark_filled store_sample];
      try rewrite U; auto; try lia; try discriminate.
    + pose proof (cursor_ok_add t x q I) as Iq.
      rewrite addSample_stored in Iq by auto. cbv zeta in Iq.
      destruct C as [C|C].
      * apply Nat.leb_le in C. cbn [bufferIndex store_sample] in Iq.
        rewrite C in Iq. exact Iq.
      * apply Z.leb_le in C. rewrite C, orb_true_r in Iq. exact Iq.
    + intros _. split; [reflexivity|]. intros G.
      destruct C as [C|C].
      * rewrite U in C. unfold SENTENCE_SAMPLES_PER_WINDOW in C. lia.
      * rewrite St, u32_sub_exact in C by lia.
        unfold SENTENCE_WINDOW_DURATION_MS in C. lia.
  - destruct (store_in_bounds q I R) as [_ U].
    destruct (late_gap t0 delta q t rest H0 Hd Ht
                (Build_late_inv _ _ _ _ I St B E L O D) R T) as [B' L'].
    rewrite St, u32_sub_exact in K by lia.
    unfold SENTENCE_WINDOW_DURATION_MS in K.
    split; cbn [bufferIndex lastSampleTime isRecording bufferFilled
                recordingStartTime mark_filled store_sample];
      try rewrite U; auto; try lia; try congruence.
    + pose proof (cursor_ok_add t x q I) as Iq.
      rewrite addSample_stored in Iq by auto. cbv zeta in Iq.
      apply Nat.leb_gt in C. cbn [bufferIndex store_sample] in Iq.
      rewrite C in Iq.
      destruct (Z.leb_spec SENTENCE_WINDOW_DURATION_MS
                  (u32_sub t (recordingStartTime q))) as [G|G].
      * rewrite St, u32_sub_exact in G by lia.
        unfold SENTENCE_WINDOW_DURATION_MS in G. lia.
      * exact Iq.
    + intros _ _. split; [lia|exact Hs].
Qed.

Lemma late_inv_add_samples t0 delta calls : forall q,
  (0 <= t0)%Z -> (0 <= delta <= 4000)%Z ->
  Forall (fun c => (t0 + delta <= fst c < 2 ^ 32)%Z) calls ->
  StronglySorted Z.le (map fst calls) ->
  late_inv t0 delta q (map fst calls) ->
  late_inv t0 delta (add_samples calls q) [].
Proof.
  induction calls as [|c r IH]; intros q H0 Hd Hc Hs I; [exact I|].
  rewrite add_samples_cons.
  inversion Hc as [|? ? Hc1 Hc2]; subst.
  simpl map in Hs. inversion Hs as [|? ? Hs1 Hs2]; subst.
  apply IH; auto.
  apply late_inv_add; auto.
Qed.

(** Sample count against the clock.  On a clock that does not wrap
    during the recording, with non-decreasing readings, when every
    [addSample] call of a recording comes [delta] ms or more after
    [startRecording] (0 <= delta <= 4000), the number [n] of stored
    samples always satisfies [50 * n + delta < 4100].  So when the first
    call comes 100 ms or more after the start the buffer never holds 80
    samples: the window completes only through the duration fallback,
    with its last sample stored 4000 ms or more after the start. *)
Theorem late_samples_never_fill (p0 : SentencePredictor) (t0 delta : Z)
  (calls : list (Z * SensorSample)) :
  (0 <= t0)%Z -> (0 <= delta <= 4000)%Z ->
  Forall (fun c => (t0 + delta <= fst c < 2 ^ 32)%Z) calls ->
  StronglySorted Z.le (map fst calls) ->
  let q := add_samples calls (startRecording t0 p0) in
  (50 * Z.of_nat (bufferIndex q) + delta < 4100)%Z /\
  ((100 <= delta)%Z ->
   bufferIndex q < SENTENCE_SAMPLES_PER_WINDOW /\
   (bufferFilled q = true -> (4000 <= lastSampleTime q - t0)%Z)).
Proof.
  intros H0 Hd Hc Hs q.
  assert (I : late_inv t0 delta q []).
  { apply late_inv_add_samples; auto.
    split; cbn [bufferIndex isRecording recordingStartTime startRecording];
      auto; try lia; try discriminate.
    apply cursor_ok_start. }
  destruct I as [I St B E L O D].
  split; [exact B|]. intros G. split.
  - unfold SENTENCE_SAMPLES_PER_WINDOW. lia.
  - intros F. apply D; auto. now apply (filled_idle _ I).
Qed.

(* ================================================================== *)
(** * Binary32 arithmetic on non-negative floats *)
(* ================================================================== *)

Section FloatArithmetic.

Local Open Scope Z_scope.

(** ** Representable values *)

Lemma RN_zero b : 0 < b -> RN 0 b = 0.
Proof.
  intros H. unfold RN, RNk. rewrite Z.div_0_l by lia.
  change (Z.max (Zdigits2 0 - 24) 0) with 0. change (2 ^ 0) with 1.
  unfold rne. rewrite Z.mod_0_l, Z.div_0_l by lia.
  destruct (Z.compare_spec (2 * 0) (1 * b)); lia.
Qed.

(** An integer of at most 24 bits, scaled by a power of two, rounds to
    itself. *)
Lemma RN_exact_int n k :
  0 <= n <= 16777216 -> 0 <= k -> RN (n * 2 ^ k) 1 = n * 2 ^ k.
Proof.
  intros Hn Hk. destruct (Z.eq_dec n 0) as [->|NZ].
  { rewrite Z.mul_0_l. apply RN_zero. lia. }
  unfold RN, RNk. rewrite Z.div_1_r, Z.mul_1_r.
  rewrite Zdigits2_shift by lia.
  assert (D : Zdigits2 n <= 25).
  { apply Zdigits2_lt_pow; [lia|]. change (2 ^ 25) with 33554432. lia. }
  pose proof (Zdigits2_pos n ltac:(lia)) as DP.
  destruct (Z.eq_dec n 16777216) as [->|N2].
  - change (Zdigits2 16777216) with 25.
    replace (Z.max (25 + k - 24) 0) with (k + 1) by lia.
    rewrite Z.pow_add_r by lia. change (2 ^ 1) with 2.
    replace (16777216 * 2 ^ k) with (8388608 * (2 ^ k * 2)) by ring.
    now rewrite rne_exact by (pose proof (pow2_gt0 k Hk); lia).
  - assert (D' : Zdigits2 n <= 24).
    { apply Zdigits2_lt_pow; [lia|]. change (2 ^ 24) with 16777216. lia. }
    set (K := Z.max (Zdigits2 n + k - 24) 0).
    assert (HK : 0 <= K <= k) by (unfold K; lia).
    pose proof (pow2_gt0 K ltac:(lia)) as PK.
    replace (n * 2 ^ k) with ((n * 2 ^ (k - K)) * 2 ^ K).
    + now rewrite rne_exact by lia.
    + rewrite <- Z.mul_assoc, <- Z.pow_add_r by lia. do 2 f_equal. lia.
Qed.

(** The value of a float of the format rounds to itself. *)
Lemma RN_exact x : nonneg_finite x -> RN (ival x) 1 = ival x.
Proof.
  destruct x as [s|s| |[|] m e]; cbn [nonneg_finite ival]; try tauto;
    intros H; try (apply RN_zero; lia).
  apply bounded_spec in H. destruct H as [C B].
  apply RN_exact_int; [|lia].
  pose proof (Zdigits2_bounds (Zpos m) ltac:(lia)) as D.
  pose proof (pow2_le (Zdigits2 (Zpos m)) 24
                ltac:(pose proof (Zdigits2_nonneg (Zpos m)); lia)).
  change (2 ^ 24) with 16777216 in *. lia.
Qed.

(** Two floats of the format with the same positive value are the same
    float. *)
Lemma ival_inj a b :
  nonneg_finite a -> nonneg_finite b -> 0 < ival a -> ival a = ival b ->
  a = b.
Proof.
  destruct a as [sa|sa| |[|] ma ea], b as [sb|sb| |[|] mb eb];
    cbn [nonneg_finite ival]; try tauto; try lia.
  intros Ha Hb P E.
  destruct (Z.compare_spec ea eb) as [C|C|C].
  - subst eb. assert (0 < 2 ^ (ea + 149)).
    { apply bounded_spec in Ha. apply pow2_gt0. lia. }
    assert (Zpos ma = Zpos mb) by nia. congruence.
  - pose proof (ival_canonical_lt _ _ _ _ Ha Hb C). lia.
  - pose proof (ival_canonical_lt _ _ _ _ Hb Ha C). lia.
Qed.

(** ** Conversion from an integer *)

Lemma of_Z_spec n :
  0 <= n -> RN (n * 2 ^ 149) 1 < 2 ^ 277 ->
  nonneg_finite (F32.of_Z n) /\ ival (F32.of_Z n) = RN (n * 2 ^ 149) 1.
Proof.
  intros Hn OV. unfold F32.of_Z, binary_normalize.
  destruct n as [|p|p]; try lia.
  - split; [exact I|]. symmetry. apply RN_zero. lia.
  - apply (binary_round_units p 0); [lia|exact OV].
Qed.

(** Integers below [2^24] convert exactly. *)
Lemma of_Z_exact n :
  0 <= n <= 16777216 ->
  nonneg_finite (F32.of_Z n) /\ ival (F32.of_Z n) = n * 2 ^ 149.
Proof.
  intros Hn. pose proof (RN_exact_int n 149 Hn ltac:(lia)) as E.
  rewrite <- E. apply of_Z_spec; [lia|]. rewrite E.
  apply Z.le_lt_trans with (m := 16777216 * 2 ^ 149).
  - apply Z.mul_le_mono_nonneg_r; lia.
  - reflexivity.
Qed.

(** ** Addition *)

Lemma add_spec x y :
  nonneg_finite x -> nonneg_finite y ->
  RN (ival x + ival y) 1 < 2 ^ 277 ->
  nonneg_finite (SFadd 24 128 x y) /\
  ival (SFadd 24 128 x y) = RN (ival x + ival y) 1.
Proof.
  intros Hx Hy OV.
  destruct x as [sx|sx| |[|] mx ex]; simpl nonneg_finite in Hx; try tauto;
    destruct y as [sy|sy| |[|] my ey]; simpl nonneg_finite in Hy; try tauto.
  - split.
    + destruct sx, sy; exact I.
    + replace (ival (SFadd 24 128 (S754_zero sx) (S754_zero sy))) with 0
        by (destruct sx, sy; reflexivity).
      symmetry. apply RN_zero. lia.
  - cbn [SFadd]. split; [exact Hy|].
    cbn [ival]. rewrite Z.add_0_l.
    symmetry. apply (RN_exact (S754_finite false my ey)). exact Hy.
  - cbn [SFadd]. split; [exact Hx|].
    cbn [ival]. rewrite Z.add_0_r.
    symmetry. apply (RN_exact (S754_finite false mx ex)). exact Hx.
  - assert (Bx := Hx). assert (By := Hy).
    apply bounded_spec in Bx. apply bounded_spec in By.
    unfold SFadd. cbn [cond_Zopp].
    set (ez := Z.min ex ey).
    destruct (shl_align_le mx ex ez ltac:(lia)) as [A1 _].
    destruct (shl_align_le my ey ez ltac:(lia)) as [A2 _].
    set (p1 := fst (shl_align mx ex ez)) in *.
    set (p2 := fst (shl_align my ey ez)) in *.
    change (Zpos p1 + Zpos p2) with (Zpos (p1 + p2)).
    cbn [binary_normalize].
    assert (V : Zpos (p1 + p2) * 2 ^ (ez + 149)
                = Zpos mx * 2 ^ (ex + 149) + Zpos my * 2 ^ (ey + 149)).
    { rewrite Pos2Z.inj_add, A1, A2. rewrite Z.mul_add_distr_r.
      rewrite <- !Z.mul_assoc, <- !Z.pow_add_r by lia.
      replace (ex - ez + (ez + 149)) with (ex + 149) by lia.
      replace (ey - ez + (ez + 149)) with (ey + 149) by lia.
      reflexivity. }
    cbn [ival] in *. rewrite <- V in *.
    apply binary_round_units; [lia|exact OV].
Qed.

(** ** Division *)

Lemma Zdigits2_ge m k : 0 <= k -> 2 ^ k <= m -> k + 1 <= Zdigits2 m.
Proof.
  intros Hk H. pose proof (pow2_gt0 k Hk).
  pose proof (Zdigits2_mono (2 ^ k) m ltac:(lia)) as Mo.
  rewrite Zdigits2_pow2 in Mo by lia. exact Mo.
Qed.

(** [x / y] for a divisor below [2^24] is the rounding of the exact
    quotient. *)
Lemma div_spec x y :
  nonneg_finite x -> nonneg_finite y ->
  0 < ival y < 2 ^ 173 ->
  RN (ival x * 2 ^ 149) (ival y) < 2 ^ 277 ->
  nonneg_finite (SFdiv 24 128 x y) /\
  ival (SFdiv 24 128 x y) = RN (ival x * 2 ^ 149) (ival y).
Proof.
  intros Hx Hy Py OV.
  destruct y as [sy|sy| |[|] my ey]; cbn [nonneg_finite] in Hy; try tauto;
    try (cbn [ival] in Py; lia).
  destruct x as [sx|sx| |[|] mx ex]; cbn [nonneg_finite] in Hx; try tauto.
  { cbn [SFdiv]. split; [exact I|]. cbn [ival] in *. rewrite Z.mul_0_l.
    symmetry. apply RN_zero. lia. }
  cbn [ival] in *.
  apply bounded_spec in Hx. destruct Hx as [Cx Bx].
  apply bounded_spec in Hy. destruct Hy as [Cy By].
  pose proof (Zdigits2_bounds (Zpos mx) ltac:(lia)) as DX.
  pose proof (Zdigits2_bounds (Zpos my) ltac:(lia)) as DY.
  pose proof (Zdigits2_pos (Zpos mx) ltac:(lia)) as PX.
  pose proof (Zdigits2_pos (Zpos my) ltac:(lia)) as PY.
  set (d1 := Zdigits2 (Zpos mx)) in *. set (d2 := Zdigits2 (Zpos my)) in *.
  assert (EY : ey <= 0).
  { destruct (Z.le_gt_cases ey 0) as [L|G]; [exact L|exfalso].
    assert (D2 : d2 = 24) by lia. rewrite D2 in DY.
    change (2 ^ (24 - 1)) with 8388608 in DY.
    pose proof (pow2_le 150 (ey + 149) ltac:(lia)).
    assert (8388608 * 2 ^ 150 <= Zpos my * 2 ^ (ey + 149))
      by (apply Z.mul_le_mono_nonneg; lia).
    change (8388608 * 2 ^ 150) with (2 ^ 173) in *. lia. }
  set (L := d1 + ex - (d2 + ey)).
  set (e' := Z.min (Z.max (L - 24) (-149)) (ex - ey)).
  set (s := ex - ey - e').
  assert (E0 : -149 <= e') by (unfold e'; lia).
  assert (S0 : 0 <= s) by (unfold s, e'; lia).
  set (m' := Zpos mx * 2 ^ s).
  pose proof (pow2_gt0 s S0) as PS.
  assert (core : SFdiv_core_binary 24 128 (Zpos mx) ex (Zpos my) ey =
                 (m' / Zpos my, e', new_location (Zpos my) (m' mod Zpos my))).
  { unfold SFdiv_core_binary. fold d1 d2.
    change (fexp 24 128 (d1 + ex - (d2 + ey))) with (Z.max (L - 24) (-149)).
    fold e'. fold s.
    assert (M : match s with
                | 0 => Zpos mx
                | Zpos _ => Z.shiftl (Zpos mx) s
                | Zneg _ => 0
                end = m').
    { unfold m'. clearbody s. destruct s as [|p|p]; try lia.
      rewrite Z.shiftl_mul_pow2 by lia. reflexivity. }
    rewrite M.
    unfold Z.div, Z.modulo. destruct (Z.div_eucl m' (Zpos my)). reflexivity. }
  unfold SFdiv. rewrite core. cbn [xorb].
  set (q := m' / Zpos my) in *. set (r := m' mod Zpos my) in *.
  pose proof (Z.mod_pos_bound m' (Zpos my) ltac:(lia)) as RB. fold r in RB.
  assert (M0 : 0 < m') by (unfold m'; lia).
  assert (Q0 : 0 <= q) by (unfold q; apply Z.div_pos; lia).
  pose proof (new_location_encodes (Zpos my) q r ltac:(lia) Q0 RB) as EN.
  replace (Zpos my * q + r) with m' in EN
    by (unfold q, r; apply Z.div_mod; lia).
  assert (HE : e' <= fexp32 (Zdigits2 q + e')).
  { rewrite fexp32_eq.
    destruct (Z.eq_dec e' (-149)) as [->|NE]; [lia|].
    assert (G : e' <= L - 24) by (unfold e'; lia).
    assert (T : 24 <= d1 + s - d2) by (unfold s, L in *; lia).
    assert (QL : 2 ^ (d1 + s - 1 - d2) <= q).
    { unfold q. apply Z.div_le_lower_bound; [lia|].
      assert (Zpos my <= 2 ^ d2) by lia.
      assert (2 ^ (d1 - 1) * 2 ^ s <= m')
        by (unfold m'; apply Z.mul_le_mono_nonneg_r; lia).
      assert (W : 2 ^ (d1 - 1) * 2 ^ s = 2 ^ d2 * 2 ^ (d1 + s - 1 - d2)).
      { rewrite <- !Z.pow_add_r by lia. f_equal. lia. }
      pose proof (pow2_gt0 (d1 + s - 1 - d2) ltac:(lia)).
      assert (Zpos my * 2 ^ (d1 + s - 1 - d2)
              <= 2 ^ d2 * 2 ^ (d1 + s - 1 - d2))
        by (apply Z.mul_le_mono_nonneg_r; lia).
      lia. }
    pose proof (Zdigits2_ge q (d1 + s - 1 - d2) ltac:(lia) QL).
    unfold s, L in *. lia. }
  assert (V : m' * 2 ^ (e' + 149) = Zpos mx * 2 ^ (ex - ey + 149)).
  { unfold m'. rewrite <- Z.mul_assoc, <- Z.pow_add_r by lia.
    do 2 f_equal. unfold s. lia. }
  assert (W : RN (Zpos mx * 2 ^ (ex - ey + 149)) (Zpos my) =
              RN (Zpos mx * 2 ^ (ex + 149) * 2 ^ 149)
                 (Zpos my * 2 ^ (ey + 149))).
  { pose proof (pow2_gt0 (ey + 149) ltac:(lia)) as PC.
    rewrite <- (RN_scale (2 ^ (ey + 149)) (Zpos mx * 2 ^ (ex - ey + 149))
                  (Zpos my)) by lia.
    f_equal; [|ring].
    rewrite <- !Z.mul_assoc, <- !Z.pow_add_r by lia.
    rewrite Z.mul_comm, <- Z.mul_assoc, <- Z.pow_add_r by lia.
    do 2 f_equal. lia. }
  pose proof (round_units q e' (new_location (Zpos my) r) m' (Zpos my) EN
                E0 HE) as R.
  rewrite V, W in R. apply R. exact OV.
Qed.

End FloatArithmetic.

(* ================================================================== *)
(** * The square root *)
(* ================================================================== *)

Section SquareRoot.

Local Open Scope Z_scope.

(** ** Rounding at any exponent *)

Lemma binary_round_aux_pack m e l a b :
  encodes (shr_record_of_loc m l) a b ->
  e <= fexp32 (Zdigits2 m + e) ->
  binary_round_aux 24 128 false m e l =
    pack (rne a (2 ^ (fexp32 (Zdigits2 m + e) - e) * b))
         (fexp32 (Zdigits2 m + e)).
Proof.
  intros H HE. set (E := fexp32 (Zdigits2 m + e)) in *.
  unfold binary_round_aux.
  assert (M : m = a / b)
    by (destruct H as (_ & _ & H & _); destruct l as [|[ | | ]]; exact H).
  assert (Hb : 0 < b) by apply H. assert (Ha : 0 <= a) by apply H.
  assert (M0 : 0 <= m) by (subst m; apply Z.div_pos; lia).
  assert (EE : E = Z.max (Zdigits2 m + e - 24) (-149)) by reflexivity.
  destruct (shr_encodes (shr_record_of_loc m l) a b e (E - e) H ltac:(lia))
    as [S1 S2].
  unfold shr_fexp at 1. fold (fexp32 (Zdigits2 m + e)). fold E.
  destruct (shr (shr_record_of_loc m l) e (E - e)) as [mrs' e'] eqn:SH.
  simpl fst in S1. simpl snd in S2.
  replace e' with E by lia.
  rewrite (round_encodes _ _ _ S1).
  set (n := rne a (2 ^ (E - e) * b)).
  assert (P : 0 < 2 ^ (E - e) * b).
  { pose proof (pow2_gt0 (E - e) ltac:(lia)). nia. }
  assert (N0 : 0 <= n).
  { unfold n. apply (rne_ge 0); lia. }
  assert (N1 : n <= 16777216).
  { unfold n. apply rne_le; auto.
    destruct (Z.eq_dec m 0) as [Z|NZ].
    - rewrite Z in M.
      assert (a < b).
      { pose proof (Z.div_mod a b ltac:(lia)).
        pose proof (Z.mod_pos_bound a b Hb). nia. }
      pose proof (pow2_gt0 (E - e) ltac:(lia)). nia.
    - pose proof (Zdigits2_bounds m ltac:(lia)) as B.
      pose proof (Zdigits2_pos m ltac:(lia)) as DP.
      assert (A : a < (m + 1) * b).
      { pose proof (Z.div_mod a b ltac:(lia)).
        pose proof (Z.mod_pos_bound a b Hb). nia. }
      assert (G : 2 ^ Zdigits2 m <= 16777216 * 2 ^ (E - e)).
      { change 16777216 with (2 ^ 24). rewrite <- Z.pow_add_r by lia.
        apply pow2_le. lia. }
      nia. }
  apply renormalise; lia.
Qed.

(** Whatever the exponent, rounding a non-negative value gives a zero,
    a positive float of the format, or plus infinity. *)
Lemma binary_round_aux_class m e l a b :
  encodes (shr_record_of_loc m l) a b ->
  e <= fexp32 (Zdigits2 m + e) ->
  nonneg_class (binary_round_aux 24 128 false m e l).
Proof.
  intros H HE. rewrite (binary_round_aux_pack m e l a b H HE).
  assert (M : m = a / b)
    by (destruct H as (_ & _ & H & _); destruct l as [|[ | | ]]; exact H).
  assert (Hb : 0 < b) by apply H. assert (Ha : 0 <= a) by apply H.
  assert (M0 : 0 <= m) by (subst m; apply Z.div_pos; lia).
  pose proof (floor_bounds a b Hb) as FB. rewrite <- M in FB.
  set (E := fexp32 (Zdigits2 m + e)) in *.
  assert (EE : E = Z.max (Zdigits2 m + e - 24) (-149)) by reflexivity.
  set (n := rne a (2 ^ (E - e) * b)).
  pose proof (pow2_gt0 (E - e) ltac:(lia)) as PE.
  assert (PB : 0 < 2 ^ (E - e) * b) by nia.
  assert (N0 : 0 <= n) by (unfold n; apply (rne_ge 0); lia).
  assert (N23 : -149 < E -> 8388608 <= n).
  { intros G. unfold n. apply rne_ge; [lia|].
    assert (NZ : m <> 0).
    { intros Z. rewrite Z in EE. simpl Zdigits2 in EE. lia. }
    pose proof (Zdigits2_bounds m ltac:(lia)) as B.
    assert (D : E - e = Zdigits2 m - 24) by lia.
    assert (W : 8388608 * 2 ^ (E - e) = 2 ^ (Zdigits2 m - 1)).
    { change 8388608 with (2 ^ 23). rewrite <- Z.pow_add_r by lia.
      f_equal. lia. }
    nia. }
  unfold pack.
  destruct (Z.eqb_spec n 0) as [Z|NZ]; [exact I|].
  destruct (Z.ltb_spec n 16777216) as [L|G].
  - destruct (Z.leb_spec E 104); [|reflexivity].
    cbn [nonneg_class nonneg_finite].
    apply bounded_spec. rewrite Z2Pos.id by lia. split; [|lia].
    destruct (Z.eq_dec E (-149)) as [S|S].
    + assert (Zdigits2 n <= 24)
        by (apply Zdigits2_lt_pow; [lia|change (2 ^ 24) with 16777216; lia]).
      lia.
    + rewrite (Zdigits2_unique n 24); lia.
  - destruct (Z.leb_spec (E + 1) 104); [|reflexivity].
    cbn [nonneg_class nonneg_finite].
    apply bounded_spec. change (Zdigits2 (Z.pos 8388608)) with 24. lia.
Qed.

(** Every mantissa with a location stands for some rational. *)
Lemma encodes_any m l :
  0 <= m -> exists a b, encodes (shr_record_of_loc m l) a b.
Proof.
  intros H. destruct l as [|[ | | ]].
  - exists m, 1. now apply encodes_of_loc_exact.
  - exists (2 * m + 1), 2. unfold encodes.
    cbn [shr_record_of_loc shr_m shr_r shr_s].
    replace ((2 * m + 1) / 2) with m by (Z.div_mod_to_equations; lia).
    replace ((2 * m + 1) mod 2) with 1 by (Z.div_mod_to_equations; lia).
    repeat split; try lia; reflexivity.
  - exists (4 * m + 1), 4. unfold encodes.
    cbn [shr_record_of_loc shr_m shr_r shr_s].
    replace ((4 * m + 1) / 4) with m by (Z.div_mod_to_equations; lia).
    replace ((4 * m + 1) mod 4) with 1 by (Z.div_mod_to_equations; lia).
    repeat split; try lia; reflexivity.
  - exists (4 * m + 3), 4. unfold encodes.
    cbn [shr_record_of_loc shr_m shr_r shr_s].
    replace ((4 * m + 3) / 4) with m by (Z.div_mod_to_equations; lia).
    replace ((4 * m + 3) mod 4) with 3 by (Z.div_mod_to_equations; lia).
    repeat split; try lia; reflexivity.
Qed.

(** ** The square root *)

(** The integer square root keeps half of the digits. *)
Lemma sqrt_digits n q r :
  0 < n -> n = q * q + r -> 0 <= r <= 2 * q ->
  0 < q /\ Zdigits2 n <= 2 * Zdigits2 q.
Proof.
  intros Hn E R. assert (Q : 0 < q) by nia. split; [exact Q|].
  pose proof (Zdigits2_bounds q Q) as B.
  pose proof (Zdigits2_pos q Q) as P.
  apply Zdigits2_lt_pow; [lia|]. split; [lia|].
  replace (2 * Zdigits2 q) with (Zdigits2 q + Zdigits2 q) by lia.
  rewrite Z.pow_add_r by lia. nia.
Qed.

Lemma sqrt_core_spec m e :
  let '(q, e', l) := SFsqrt_core_binary 24 128 (Zpos m) e in
  0 <= q /\ e' <= fexp32 (Zdigits2 q + e').
Proof.
  unfold SFsqrt_core_binary.
  set (d := Zdigits2 (Zpos m)).
  pose proof (Zdigits2_pos (Zpos m) ltac:(lia)) as DP. fold d in DP.
  change (fexp 24 128 (Z.div2 (d + e + 1)))
    with (Z.max (Z.div2 (d + e + 1) - 24) (-149)).
  rewrite !Z.div2_div.
  set (e' := Z.min (Z.max ((d + e + 1) / 2 - 24) (-149)) (e / 2)).
  set (s := e - 2 * e').
  assert (S0 : 0 <= s) by (unfold s, e'; Z.div_mod_to_equations; lia).
  set (m' := match s with
             | 0 => Zpos m
             | Zpos _ => Z.shiftl (Zpos m) s
             | Zneg _ => 0
             end).
  assert (M : m' = Zpos m * 2 ^ s).
  { unfold m'. clearbody s. destruct s as [|p|p]; try lia.
    rewrite Z.shiftl_mul_pow2 by lia. reflexivity. }
  pose proof (pow2_gt0 s S0) as PS.
  assert (M0 : 0 < m') by (rewrite M; lia).
  pose proof (Z.sqrtrem_spec m' ltac:(lia)) as SP.
  destruct (Z.sqrtrem m') as [q r].
  destruct SP as [SP1 SP2].
  destruct (sqrt_digits m' q r M0 SP1 SP2) as [Q D].
  split; [lia|]. rewrite fexp32_eq.
  rewrite M, Zdigits2_shift in D by lia. fold d in D.
  unfold s, e' in *. Z.div_mod_to_equations. lia.
Qed.

(** [sqrtf] never gives a negative float nor minus infinity, and what
    it gives is in the format, whatever its argument. *)
Lemma sqrtf_class x : nonneg_class (F32.sqrtf x).
Proof.
  unfold F32.sqrtf, SFsqrt.
  destruct x as [s|[|]| |[|] m e]; try exact I; try reflexivity.
  change F32.prec with 24. change F32.emax with 128.
  pose proof (sqrt_core_spec m e) as C.
  destruct (SFsqrt_core_binary 24 128 (Zpos m) e) as [[q e'] l].
  destruct C as [Q HE].
  destruct (encodes_any q l Q) as (a & b & EN).
  now apply (binary_round_aux_class q e' l a b).
Qed.

Lemma nonneg_class_not_negative x :
  nonneg_class x -> F32.ltb x F32.zero = false.
Proof.
  destruct x as [s|[|]| |[|] m e]; cbn [nonneg_class nonneg_finite];
    try reflexivity; try discriminate; try tauto.
Qed.

(** A float of that class that is below a float of the format is
    itself a zero or a positive float of the format. *)
Lemma nonneg_class_below x c :
  nonneg_class x -> nonneg_finite c -> F32.ltb x c = true ->
  nonneg_finite x /\ ival x < ival c.
Proof.
  intros Hx Hc L.
  assert (F : nonneg_finite x).
  { destruct x as [s|[|]| |[|] m e]; cbn [nonneg_class] in Hx; auto;
      try discriminate.
    destruct c as [sc|sc| |[|] mc ec]; cbn [nonneg_finite] in Hc;
      try tauto; discriminate. }
  split; [exact F|]. now apply SFltb_ival.
Qed.

End SquareRoot.

(* ================================================================== *)
(** * The search on any dataset *)
(* ================================================================== *)

Lemma firstn_Forall {A} (P : A -> Prop) n l :
  Forall P l -> Forall P (firstn n l).
Proof.
  intros H. apply Forall_forall. intros x Hx. rewrite Forall_forall in H.
  apply H. rewrite <- (firstn_skipn n l). apply in_or_app. now left.
Qed.

Lemma lit_1e9_units : ival F32.lit_1e9 = (1000000000 * 2 ^ 149)%Z.
Proof. reflexivity. Qed.

Lemma sentinel_kept_distance : kept_distance F32.lit_1e9.
Proof. split; [reflexivity|]. rewrite lit_1e9_units. vm_compute. discriminate. Qed.

Section AnyDataset.

Variable M : SentenceModel.

Hypothesis K_positive : 0 < SENTENCE_KNN_N_NEIGHBORS M.

(** The distance of a row is the result of [sqrtf]. *)
Lemma row_distance_class query i : nonneg_class (row_distance M query i).
Proof. unfold row_distance. apply sqrtf_class. Qed.

Lemma row_below_kept_distance query r :
  In r (all_rows M query) -> below_sentinel r = true ->
  kept_distance (fst r).
Proof.
  intros I B. unfold all_rows in I. apply in_map_iff in I.
  destruct I as (i & <- & _). unfold row_entry in *. simpl fst in *.
  destruct (nonneg_class_below _ F32.lit_1e9 (row_distance_class query i)
              (proj1 sentinel_kept_distance) B) as [F L].
  split; [exact F|]. pose proof (proj2 sentinel_kept_distance). lia.
Qed.

(** What the kept list holds, for every query and dataset: rows below
    the sentinel and sentinels. *)
Lemma kept_entries query :
  Forall (fun r => r = sentinel \/
                   (In r (all_rows M query) /\ below_sentinel r = true))
         (knn_nearest M query).
Proof.
  rewrite (knn_nearest_spec M K_positive). apply firstn_Forall.
  apply Forall_app. split.
  - apply full_sort_Forall. apply Forall_forall. intros r Hr.
    apply filter_In in Hr. now right.
  - apply Forall_forall. intros r Hr. apply repeat_spec in Hr. now left.
Qed.

Lemma kept_distances query :
  Forall kept_distance (map fst (knn_nearest M query)).
Proof.
  apply Forall_map. eapply Forall_impl; [|apply kept_entries].
  intros r [->|[I B]].
  - exact sentinel_kept_distance.
  - now apply (row_below_kept_distance query).
Qed.

(** The kept list, whatever the data.  For every query and every
    dataset (NaN and infinite features included), after the search the
    kept list has exactly K entries, sorted by distance; each entry is
    the initial (1e9, 0) or a row of the dataset whose distance is below
    1e9; and no kept distance is NaN, infinite or negative. *)
Theorem kept_list_invariants (query : list float) :
  let kept := knn_nearest M query in
  length kept = SENTENCE_KNN_N_NEIGHBORS M /\
  sorted_by_dist kept /\
  Forall (fun r => r = (F32.lit_1e9, 0) \/
                   (In r (all_rows M query) /\
                    F32.ltb (fst r) F32.lit_1e9 = true)) kept /\
  Forall (fun r => nonneg_finite (fst r) /\
                   F32.leb F32.zero (fst r) = true /\
                   F32.leb (fst r) F32.lit_1e9 = true) kept.
Proof.
  intros kept. split; [|split; [|split]].
  - unfold kept. rewrite (knn_nearest_spec M K_positive).
    rewrite length_firstn, length_app, repeat_length. lia.
  - unfold kept. rewrite (knn_nearest_spec M K_positive).
    apply sorted_firstn. apply sorted_app_sentinels.
    + apply full_sort_sorted. apply Forall_forall. intros r Hr.
      apply filter_In in Hr. now apply below_sentinel_not_nan.
    + apply full_sort_Forall. apply Forall_forall. intros r Hr.
      now apply filter_In in Hr.
  - apply kept_entries.
  - pose proof (kept_entries query) as E. fold kept in E.
    eapply Forall_impl; [|exact E]. intros r H.
    assert (D : kept_distance (fst r)).
    { destruct H as [->|[I B]]; [exact sentinel_kept_distance|].
      now apply (row_below_kept_distance query). }
    destruct D as [D1 D2]. split; [exact D1|]. split.
    + apply SFleb_ival; [exact I|exact D1|].
      apply (nonneg_finite_ival _ D1).
    + destruct H as [->|[I B]]; [reflexivity|]. now apply ltb_leb.
Qed.

End AnyDataset.

(** ** The labels the search keeps *)

Lemma array_set_Forall {A} (Q : A -> Prop) (a : list A) i x :
  Forall Q a -> Q x -> Forall Q (array_set a i x).
Proof.
  intros H Hx. revert i. induction H as [|y r Hy Hr IH]; intros i; simpl.
  - constructor.
  - destruct i; constructor; auto.
Qed.

Lemma shift_right_Forall (Q : Neighbor -> Prop) n :
  forall (a : list Neighbor) pos,
  Q nb_default -> Forall Q a -> Forall Q (shift_right a pos n).
Proof.
  induction n as [|m IH]; intros a pos Hd H; simpl; auto.
  apply IH; auto. apply array_set_Forall; auto.
  destruct (nth_in_or_default (pos + S m - 1) a nb_default) as [I|E].
  - rewrite Forall_forall in H. now apply H.
  - now rewrite E.
Qed.

Lemma insert_neighbor_Forall (Q : Neighbor -> Prop) K a d l :
  Q nb_default -> Forall Q a -> Q (d, l) ->
  Forall Q (insert_neighbor K a d l).
Proof.
  intros Hd H Hx. unfold insert_neighbor.
  destruct (F32.ltb _ _); auto.
  apply array_set_Forall; auto. now apply shift_right_Forall.
Qed.

Lemma scan_rows_Forall M (Q : Neighbor -> Prop) rows : forall acc,
  Q nb_default -> Forall Q rows -> Forall Q acc ->
  Forall Q (scan_rows M rows acc).
Proof.
  induction rows as [|r rows IH]; intros acc Hd Hr Ha; [exact Ha|].
  inversion Hr; subst.
  change (scan_rows M (r :: rows) acc)
    with (scan_rows M rows
            (insert_neighbor (SENTENCE_KNN_N_NEIGHBORS M) acc (fst r) (snd r))).
  apply IH; auto. apply insert_neighbor_Forall; auto. now destruct r.
Qed.

Lemma labels_in_range_spec M :
  labels_in_range M = true ->
  Forall (fun l => l < SENTENCE_NUM_CLASSES M /\ l < 256)
         (SENTENCE_TRAINING_LABELS M).
Proof.
  unfold labels_in_range. rewrite forallb_forall, Forall_forall.
  intros H l Hl. specialize (H l Hl).
  apply andb_true_iff in H. destruct H as [H1 H2].
  apply Nat.ltb_lt in H1, H2. auto.
Qed.

(** With at least one class and a labels table of class indices, every
    label of the kept list is a class index, whatever K, the query and
    the training data: the writes [votes[nearestLabels[i]]++] of the
    vote loop are all inside [votes[SENTENCE_NUM_CLASSES]]. *)
Lemma kept_labels_in_range M query :
  0 < SENTENCE_NUM_CLASSES M -> labels_in_range M = true ->
  Forall (fun l => l < SENTENCE_NUM_CLASSES M /\ l < 256)
         (map snd (knn_nearest M query)).
Proof.
  intros HC HL. apply labels_in_range_spec in HL.
  apply Forall_map. unfold knn_nearest.
  apply scan_rows_Forall
    with (Q := fun r => snd r < SENTENCE_NUM_CLASSES M /\ snd r < 256).
  - simpl. lia.
  - unfold all_rows. apply Forall_map. apply Forall_forall. intros i _.
    unfold row_entry. cbn [snd].
    destruct (nth_in_or_default i (SENTENCE_TRAINING_LABELS M) 0) as [I|E].
    + rewrite Forall_forall in HL. now apply HL.
    + rewrite E. lia.
  - unfold init_nearest. apply Forall_forall. intros y Hy.
    apply repeat_spec in Hy. subst y. simpl. lia.
Qed.

(* ================================================================== *)
(** * The mean distance and the confidence of a prediction *)
(* ================================================================== *)

Section MeanDistance.

Local Open Scope Z_scope.

(** The running sum of [j] kept distances is at most [j * 2^30]. *)
Lemma sum_kept_distances l : forall acc j,
  0 <= j -> j + Z.of_nat (length l) <= 16777216 ->
  nonneg_finite acc -> ival acc <= j * 2 ^ 179 ->
  Forall kept_distance l ->
  nonneg_finite (fold_left F32.add l acc) /\
  ival (fold_left F32.add l acc) <= (j + Z.of_nat (length l)) * 2 ^ 179.
Proof.
  induction l as [|d r IH]; intros acc j Hj HL Ha Hb HF.
  - simpl. rewrite Z.add_0_r. auto.
  - inversion HF as [|? ? [D1 D2] Hr]; subst.
    cbn [length] in HL. rewrite Nat2Z.inj_succ in HL.
    pose proof (nonneg_finite_ival acc Ha) as Ba.
    pose proof (nonneg_finite_ival d D1) as Bd.
    assert (U : RN (ival acc + ival d) 1 <= (j + 1) * 2 ^ 179).
    { rewrite <- (RN_exact_int (j + 1) 179) by lia.
      apply RN_mono; lia. }
    assert (OV : RN (ival acc + ival d) 1 < 2 ^ 277).
    { apply Z.le_lt_trans with (m := 16777216 * 2 ^ 179).
      - apply Z.le_trans with (m := (j + 1) * 2 ^ 179); [exact U|].
        apply Z.mul_le_mono_nonneg_r; lia.
      - reflexivity. }
    destruct (add_spec acc d Ha D1 OV) as [A1 A2].
    cbn [fold_left length].
    change (F32.add acc d) with (SFadd 24 128 acc d).
    destruct (IH (SFadd 24 128 acc d) (j + 1) ltac:(lia) ltac:(lia) A1
                ltac:(rewrite A2; exact U) Hr) as [R1 R2].
    split; [exact R1|]. rewrite Nat2Z.inj_succ.
    replace (j + Z.succ (Z.of_nat (length r)))
      with (j + 1 + Z.of_nat (length r)) by lia.
    exact R2.
Qed.

(** The mean of [K] kept distances, [K] below [2^24]. *)
Lemma mean_kept_distances l :
  l <> [] -> Z.of_nat (length l) < 16777216 ->
  Forall kept_distance l ->
  kept_distance
    (F32.div (fold_left F32.add l F32.zero)
             (F32.of_Z (Z.of_nat (length l)))).
Proof.
  intros NE HL HF.
  set (K := Z.of_nat (length l)) in *.
  assert (K1 : 1 <= K) by (destruct l; [congruence|unfold K; simpl; lia]).
  destruct (sum_kept_distances l F32.zero 0 ltac:(lia) ltac:(fold K; lia) I
              ltac:(simpl; lia) HF) as [S1 S2].
  fold K in S2. rewrite Z.add_0_l in S2.
  destruct (of_Z_exact K ltac:(lia)) as [Y1 Y2].
  set (s := fold_left F32.add l F32.zero) in *.
  pose proof (nonneg_finite_ival s S1) as Bs.
  assert (PK : 0 < K * 2 ^ 149) by lia.
  assert (U : RN (ival s * 2 ^ 149) (K * 2 ^ 149) <= 2 ^ 179).
  { assert (E : RN (K * 2 ^ 149 * (1 * 2 ^ 179)) (K * 2 ^ 149 * 1)
                = 2 ^ 179).
    { rewrite RN_scale by lia.
      rewrite (RN_exact_int 1 179) by lia. lia. }
    rewrite <- E.
    apply RN_mono; try lia.
    replace (ival s * 2 ^ 149 * (K * 2 ^ 149 * 1))
      with (ival s * (K * 2 ^ 149 * 2 ^ 149)) by ring.
    replace (K * 2 ^ 149 * (1 * 2 ^ 179) * (K * 2 ^ 149))
      with (K * 2 ^ 179 * (K * 2 ^ 149 * 2 ^ 149)) by ring.
    apply Z.mul_le_mono_nonneg_r; lia. }
  change (F32.div s (F32.of_Z K)) with (SFdiv 24 128 s (F32.of_Z K)).
  destruct (div_spec s (F32.of_Z K) S1 Y1) as [D1 D2].
  - rewrite Y2. split; [lia|].
    apply Z.lt_le_trans with (m := 16777216 * 2 ^ 149); [|reflexivity].
    apply Z.mul_lt_mono_pos_r; lia.
  - rewrite Y2. apply Z.le_lt_trans with (m := 2 ^ 179); [exact U|].
    reflexivity.
  - split; [exact D1|]. rewrite D2, Y2. exact U.
Qed.

(** The confidence of a distance the kept list can hold. *)
Lemma confidence_in_range d :
  nonneg_finite d ->
  F32.ltb F32.zero (confidence d) = true /\
  F32.leb (confidence d) F32.one = true /\
  F32.is_nan (confidence d) = false.
Proof.
  intros H. pose proof (nonneg_finite_ival d H) as B.
  destruct (conf_spec d H) as [F V].
  assert (L : F32.ltb F32.zero (confidence d) = true).
  { apply SFltb_ival; [exact I|exact F|]. rewrite V.
    change (ival F32.zero) with 0.
    pose proof (conf_units_mono (ival d) max_ival ltac:(lia)).
    pose proof conf_units_max. lia. }
  split; [exact L|]. split.
  - apply SFleb_ival; [exact F|reflexivity|]. rewrite V.
    change (ival F32.one) with (2 ^ 149). rewrite <- conf_units_zero.
    apply conf_units_mono. lia.
  - destruct (confidence d); try reflexivity. contradiction.
Qed.

End MeanDistance.

Section PredictionRange.

Variable M : SentenceModel.

Hypothesis K_positive : 0 < SENTENCE_KNN_N_NEIGHBORS M.
Hypothesis K_small : (Z.of_nat (SENTENCE_KNN_N_NEIGHBORS M) < 16777216)%Z.
Hypothesis classes_positive : 0 < SENTENCE_NUM_CLASSES M.
Hypothesis labels_ok : labels_in_range M = true.

Lemma mean_distance_kept query :
  kept_distance (snd (predictSentenceKNN M query)).
Proof.
  unfold predictSentenceKNN. cbn [snd].
  pose proof (kept_distances M K_positive query) as F.
  assert (L : length (map fst (knn_nearest M query))
              = SENTENCE_KNN_N_NEIGHBORS M).
  { rewrite length_map, (knn_nearest_spec M K_positive).
    rewrite length_firstn, length_app, repeat_length. lia. }
  rewrite <- L. apply mean_kept_distances; auto.
  - intros E. rewrite E in L. simpl in L. lia.
  - rewrite L. lia.
Qed.

(** The mean distance and the confidence, whatever the training data.
    With K between 1 and 2^24 - 1, at least one class and a labels table
    of class indices, for every state of the predictor and every table
    of training data (NaN and infinite features included): the labels
    the vote counts are all class indices, so the vote loop writes
    inside [votes[]] before the mean is computed; and the mean distance
    [predict] reports is a zero or a positive float of the format, at
    most 2^30 (never NaN, infinite or negative); so the confidence
    [1.0f / (1.0f + meanDist)] computed in [loop] is a number in
    (0, 1], never NaN. *)
Theorem mean_distance_and_confidence_in_range (p : SentencePredictor) :
  let query := standardizeSentenceFeatures M (flatten_buffer (buffer p)) in
  let meanDist := snd (snd (predict M p)) in
  Forall (fun l => l < SENTENCE_NUM_CLASSES M /\ l < 256)
         (map snd (knn_nearest M query)) /\
  nonneg_finite meanDist /\
  F32.leb F32.zero meanDist = true /\
  F32.leb meanDist (F32.of_Z (2 ^ 30)) = true /\
  F32.ltb F32.zero (confidence meanDist) = true /\
  F32.leb (confidence meanDist) F32.one = true /\
  F32.is_nan (confidence meanDist) = false.
Proof.
  intros query meanDist.
  split; [now apply kept_labels_in_range|].
  assert (D : kept_distance meanDist).
  { unfold meanDist, predict. destruct (negb (bufferFilled p)).
    - cbn [snd]. split; [reflexivity|]. vm_compute. discriminate.
    - cbn [snd]. apply mean_distance_kept. }
  destruct D as [D1 D2].
  split; [exact D1|]. split; [|split].
  - apply SFleb_ival; [exact I|exact D1|]. apply (nonneg_finite_ival _ D1).
  - apply SFleb_ival; [exact D1|reflexivity|].
    apply Z.le_trans with (m := (2 ^ 179)%Z); [exact D2|].
    vm_compute. discriminate.
  - now apply confidence_in_range.
Qed.

End PredictionRange.

(* ================================================================== *)
(** * The distance of a row *)
(* ================================================================== *)

Lemma sub_self x : is_finite x = true -> F32.sub x x = S754_zero false.
Proof.
  destruct x as [[|]|s| |s m e]; try discriminate; intros _; try reflexivity.
  unfold F32.sub, SFsub. cbv zeta. rewrite Z.sub_diag. reflexivity.
Qed.

Section RowDistance.

Variable M : SentenceModel.

(** The distance loop on a row equal to the query leaves the sum at
    [+0.0f]. *)
Lemma squares_of_match query i l :
  (forall d, In d l ->
     nth d query F32.zero
       = nth (i * SENTENCE_KNN_N_FEATURES M + d) (SENTENCE_TRAINING_DATA M)
             F32.zero /\
     is_finite (nth d query F32.zero) = true) ->
  fold_left
    (fun dist d =>
       let train_val :=
         nth (i * (SENTENCE_KNN_N_FEATURES M) + d) (SENTENCE_TRAINING_DATA M)
             F32.zero in
       let diff := F32.sub (nth d query F32.zero) train_val in
       F32.add dist (F32.mul diff diff))
    l F32.zero = F32.zero.
Proof.
  induction l as [|d r IH]; intros H; [reflexivity|].
  cbn [fold_left]. destruct (H d (or_introl eq_refl)) as [E F].
  cbv zeta. rewrite <- E, (sub_self _ F).
  change (F32.add F32.zero (F32.mul (S754_zero false) (S754_zero false)))
    with F32.zero.
  apply IH. intros d' Hd'. apply H. now right.
Qed.

(** The distance of a row.  For every query and dataset the distance
    computed for a row is NaN, plus infinity, a zero or a positive float
    of the format: it is never negative, so [dist < 0] is false; and for a
    row whose features are all finite and equal to the query's it is
    exactly [+0.0f]. *)
Theorem row_distance_not_negative (query : list float) (i : nat) :
  let d := row_distance M query i in
  nonneg_class d /\
  F32.ltb d F32.zero = false /\
  ((forall k, k < SENTENCE_KNN_N_FEATURES M ->
      nth k query F32.zero
        = nth (i * SENTENCE_KNN_N_FEATURES M + k) (SENTENCE_TRAINING_DATA M)
              F32.zero /\
      is_finite (nth k query F32.zero) = true) ->
   d = S754_zero false).
Proof.
  intros d. pose proof (row_distance_class M query i) as C. fold d in C.
  split; [exact C|]. split; [now apply nonneg_class_not_negative|].
  intros H. unfold d, row_distance.
  rewrite squares_of_match; [reflexivity|].
  intros k Hk. apply H. apply in_seq in Hk. lia.
Qed.

End RowDistance.

(* ================================================================== *)
(** * The label of a prediction *)
(* ================================================================== *)

Lemma best_scan_lt votes n l : forall st,
  Forall (fun i => i < n) l -> fst st < n ->
  fst (fold_left (best_step votes) l st) < n.
Proof.
  induction l as [|i r IH]; intros st HF Hs; [exact Hs|].
  inversion HF as [|? ? Hi Hr]; subst. cbn [fold_left]. apply IH; auto.
  destruct st as [b m]. unfold best_step.
  destruct (m <? nth i votes 0); cbn [fst] in *; auto.
  pose proof (Nat.Div0.mod_le i 256). lia.
Qed.

Lemma best_label_lt num_classes votes :
  0 < num_classes -> best_label num_classes votes < num_classes.
Proof.
  intros H. unfold best_label. apply best_scan_lt; auto.
  apply Forall_forall. intros i Hi. apply in_seq in Hi. lia.
Qed.

Lemma firstn_repeat_le {A} (x : A) k n :
  k <= n -> firstn k (repeat x n) = repeat x k.
Proof.
  revert n. induction k as [|k IH]; intros [|n] H; simpl; auto; try lia.
  f_equal. apply IH. lia.
Qed.

(** Votes for class 0 only leave the other counters at 0. *)
Lemma votes_for_zero n : forall votes,
  (forall i, 1 <= i -> nth i votes 0 = 0) ->
  forall i, 1 <= i -> nth i (fold_left vote_step (repeat 0 n) votes) 0 = 0.
Proof.
  induction n as [|n IH]; intros votes H i Hi; [now apply H|].
  cbn [repeat fold_left]. apply IH; auto.
  intros j Hj. unfold vote_step.
  destruct (Nat.lt_ge_cases 0 (length votes)) as [L|L].
  - rewrite array_set_nth by auto.
    destruct (Nat.eqb_spec j 0); [lia|]. now apply H.
  - rewrite array_set_nth_out by lia. now apply H.
Qed.

Lemma best_scan_zero votes l : forall st,
  (forall i, 1 <= i -> nth i votes 0 = 0) -> fst st = 0 ->
  fst (fold_left (best_step votes) l st) = 0.
Proof.
  induction l as [|i r IH]; intros st H Hs; [exact Hs|].
  cbn [fold_left]. apply IH; auto.
  destruct st as [b m]. unfold best_step. cbn [fst] in Hs.
  destruct (Nat.ltb_spec m (nth i votes 0)) as [L|L]; cbn [fst]; auto.
  destruct i as [|i]; [reflexivity|].
  rewrite H in L by lia. lia.
Qed.

Lemma majority_vote_zeros num_classes n :
  majority_vote num_classes (repeat 0 n) = 0.
Proof.
  unfold majority_vote, best_label. apply best_scan_zero; auto.
  unfold count_votes. apply votes_for_zero.
  intros i _. apply nth_repeat.
Qed.

Section PredictionLabel.

Variable M : SentenceModel.


Hypothesis K_positive : 0 < SENTENCE_KNN_N_NEIGHBORS M.

(** A dataset shorter than K.  When fewer than K rows have a distance
    below 1e9 (as when the dataset has fewer than K rows), the kept list
    is those rows, sorted, followed by the (1e9, 0) entries it was
    initialised with, which then vote for class 0 and enter the mean
    distance; and when no row is below 1e9, as with an empty dataset, the
    label returned is 0. *)
Theorem short_dataset_keeps_sentinels (query : list float) :
  let near := filter below_sentinel (all_rows M query) in
  length near <= SENTENCE_KNN_N_NEIGHBORS M ->
  knn_nearest M query
    = full_sort near
      ++ repeat (F32.lit_1e9, 0) (SENTENCE_KNN_N_NEIGHBORS M - length near) /\
  (near = [] -> fst (predictSentenceKNN M query) = 0).
Proof.
  intros near H.
  assert (E : knn_nearest M query
              = full_sort near
                ++ repeat sentinel (SENTENCE_KNN_N_NEIGHBORS M - length near)).
  { rewrite (knn_nearest_spec M K_positive). fold near.
    rewrite firstn_app, full_sort_length.
    rewrite firstn_all2 by (rewrite full_sort_length; lia).
    f_equal. apply firstn_repeat_le. lia. }
  split; [exact E|].
  intros N. unfold predictSentenceKNN. cbn [fst]. rewrite E, N.
  cbn [full_sort fold_left length app]. rewrite Nat.sub_0_r.
  rewrite map_repeat. apply majority_vote_zeros.
Qed.

End PredictionLabel.

(* ================================================================== *)
(** * The recording progress *)
(* ================================================================== *)

Section Progress.

Local Open Scope Z_scope.

Lemma elapsed_units e :
  0 <= e < 2 ^ 32 ->
  0 <= RN (e * 2 ^ 149) 1 <= 2 ^ 181 /\
  (e < 4000 -> RN (e * 2 ^ 149) 1 = e * 2 ^ 149) /\
  (4000 <= e -> 4000 * 2 ^ 149 <= RN (e * 2 ^ 149) 1).
Proof.
  intros H. split; [split|split].
  - apply RN_nonneg; lia.
  - assert (E : RN (2 ^ 32 * 2 ^ 149) 1 = 2 ^ 181)
      by (vm_compute; reflexivity).
    rewrite <- E. apply RN_mono; lia.
  - intros L. apply RN_exact_int; lia.
  - intros G. rewrite <- (RN_exact_int 4000 149) at 1 by lia.
    apply RN_mono; lia.
Qed.

Lemma ratio_units_mono e1 e2 :
  0 <= e1 <= e2 -> ratio_units e1 <= ratio_units e2.
Proof.
  intros H. unfold ratio_units.
  assert (RN (e1 * 2 ^ 149) 1 <= RN (e2 * 2 ^ 149) 1)
    by (apply RN_mono; lia).
  assert (0 <= RN (e1 * 2 ^ 149) 1) by (apply RN_nonneg; lia).
  apply RN_mono; try lia; nia.
Qed.

Lemma ratio_units_3999 : ratio_units 3999 < 2 ^ 149.
Proof. vm_compute. reflexivity. Qed.

Lemma ratio_units_4000 : ratio_units 4000 = 2 ^ 149.
Proof. vm_compute. reflexivity. Qed.

Lemma ratio_units_max : ratio_units (2 ^ 32) < 2 ^ 277.
Proof. vm_compute. reflexivity. Qed.

(** The quotient [(float)elapsed / 4000.0f]. *)
Lemma ratio_spec e :
  0 <= e < 2 ^ 32 ->
  let ratio := F32.div (F32.of_Z e) (F32.of_Z SENTENCE_WINDOW_DURATION_MS) in
  nonneg_finite ratio /\ ival ratio = ratio_units e.
Proof.
  intros H ratio.
  destruct (elapsed_units e H) as (U1 & _ & _).
  destruct (of_Z_spec e ltac:(lia)) as [X1 X2].
  { apply Z.le_lt_trans with (m := 2 ^ 181); [lia|reflexivity]. }
  destruct (of_Z_exact 4000 ltac:(lia)) as [Y1 Y2].
  unfold ratio. change SENTENCE_WINDOW_DURATION_MS with 4000.
  change (F32.div (F32.of_Z e) (F32.of_Z 4000))
    with (SFdiv 24 128 (F32.of_Z e) (F32.of_Z 4000)).
  unfold ratio_units. rewrite <- X2, <- Y2.
  apply div_spec; auto.
  - rewrite Y2. split; [reflexivity|reflexivity].
  - rewrite X2, Y2. fold (ratio_units e).
    apply Z.le_lt_trans with (m := ratio_units (2 ^ 32)).
    + apply ratio_units_mono. lia.
    + exact ratio_units_max.
Qed.

Lemma arduino_min_one r :
  nonneg_finite r ->
  nonneg_finite (arduino_min F32.one r) /\
  ival (arduino_min F32.one r) = Z.min (2 ^ 149) (ival r) /\
  std_min F32.one r = arduino_min F32.one r.
Proof.
  intros H. unfold arduino_min, std_min.
  assert (O : nonneg_finite F32.one) by reflexivity.
  pose proof (SFltb_ival F32.one r O H) as L1.
  pose proof (SFltb_ival r F32.one H O) as L2.
  change (ival F32.one) with (2 ^ 149) in *.
  change (F32.ltb F32.one r) with (SFltb F32.one r).
  change (F32.ltb r F32.one) with (SFltb r F32.one).
  destruct (SFltb F32.one r) eqn:E1; destruct (SFltb r F32.one) eqn:E2.
  - exfalso. assert (2 ^ 149 < ival r) by now apply L1.
    assert (ival r < 2 ^ 149) by now apply L2. lia.
  - assert (2 ^ 149 < ival r) by now apply L1.
    repeat split; auto. change (ival F32.one) with (2 ^ 149). lia.
  - assert (ival r < 2 ^ 149) by now apply L2.
    repeat split; auto. lia.
  - assert (E : ival r = 2 ^ 149).
    { destruct (Z.lt_trichotomy (ival r) (2 ^ 149)) as [C|[C|C]]; auto.
      - apply L2 in C. congruence.
      - apply L1 in C. congruence. }
    repeat split; auto; [lia|].
    symmetry. apply ival_inj; auto. rewrite E. reflexivity.
Qed.

(** The progress while recording, in units. *)
Lemma progress_units now p :
  isRecording p = true ->
  let e := u32_sub now (recordingStartTime p) in
  nonneg_finite (getRecordingProgress now p) /\
  ival (getRecordingProgress now p) = Z.min (2 ^ 149) (ratio_units e) /\
  std_min F32.one
    (F32.div (F32.of_Z e) (F32.of_Z SENTENCE_WINDOW_DURATION_MS))
    = getRecordingProgress now p.
Proof.
  intros R e. unfold getRecordingProgress. rewrite R. cbn [negb]. cbv zeta.
  fold e. pose proof (u32_sub_range now (recordingStartTime p)) as B.
  fold e in B. destruct (ratio_spec e B) as [F V]. cbv zeta in F, V.
  destruct (arduino_min_one _ F) as (A1 & A2 & A3).
  rewrite V in A2. auto.
Qed.

End Progress.

(** The recording progress.  It is [0.0f] when no recording is in
    progress.  During a recording it is a float between 0 and 1, the
    same under the macro [min] and under [std::min]; it does not
    decrease when the elapsed time grows; and it is exactly [1.0f] when
    the window duration has elapsed, which is when [getRemainingTime]
    is 0, and below [1.0f] before. *)
Theorem recording_progress_spec (now later : Z) (p : SentencePredictor) :
  let elapsed := u32_sub now (recordingStartTime p) in
  let progress := getRecordingProgress now p in
  (isRecording p = false -> progress = F32.zero) /\
  (isRecording p = true ->
   F32.leb F32.zero progress = true /\
   F32.leb progress F32.one = true /\
   ((SENTENCE_WINDOW_DURATION_MS <= elapsed)%Z -> progress = F32.one) /\
   ((elapsed < SENTENCE_WINDOW_DURATION_MS)%Z ->
    F32.ltb progress F32.one = true) /\
   (progress = F32.one <-> getRemainingTime now p = 0%Z) /\
   std_min F32.one
     (F32.div (F32.of_Z elapsed) (F32.of_Z SENTENCE_WINDOW_DURATION_MS))
     = progress /\
   ((elapsed <= u32_sub later (recordingStartTime p))%Z ->
    F32.leb progress (getRecordingProgress later p) = true)).
Proof.
  intros elapsed progress. split.
  { intros R. unfold progress, getRecordingProgress. now rewrite R. }
  intros R.
  destruct (progress_units now p R) as (F & V & S).
  destruct (progress_units later p R) as (F' & V' & _).
  cbv zeta in V, V', S. fold elapsed in V, S. fold progress in F, V, S.
  pose proof (u32_sub_range now (recordingStartTime p)) as B.
  fold elapsed in B.
  pose proof (u32_sub_range later (recordingStartTime p)) as B'.
  assert (O : nonneg_finite F32.one) by reflexivity.
  assert (G : (SENTENCE_WINDOW_DURATION_MS <= elapsed)%Z ->
              progress = F32.one).
  { intros L. unfold SENTENCE_WINDOW_DURATION_MS in L.
    apply ival_inj; auto.
    - rewrite V. pose proof (ratio_units_mono 4000 elapsed ltac:(lia)) as Mo.
      rewrite ratio_units_4000 in Mo. lia.
    - rewrite V. pose proof (ratio_units_mono 4000 elapsed ltac:(lia)) as Mo.
      rewrite ratio_units_4000 in Mo.
      change (ival F32.one) with (2 ^ 149)%Z. lia. }
  assert (L : (elapsed < SENTENCE_WINDOW_DURATION_MS)%Z ->
              F32.ltb progress F32.one = true).
  { intros L. unfold SENTENCE_WINDOW_DURATION_MS in L.
    apply SFltb_ival; auto. rewrite V.
    pose proof (ratio_units_mono elapsed 3999 ltac:(lia)) as Mo.
    pose proof ratio_units_3999.
    change (ival F32.one) with (2 ^ 149)%Z. lia. }
  split; [|split; [|split; [|split; [|split; [|split]]]]]; auto.
  - apply SFleb_ival; [exact I|exact F|]. apply (nonneg_finite_ival _ F).
  - apply SFleb_ival; auto. rewrite V.
    change (ival F32.one) with (2 ^ 149)%Z. lia.
  - unfold getRemainingTime. rewrite R. cbn [negb]. cbv zeta. fold elapsed.
    destruct (Z.leb_spec SENTENCE_WINDOW_DURATION_MS elapsed) as [C|C].
    + split; auto.
    + split; [|unfold SENTENCE_WINDOW_DURATION_MS in *; lia].
      intros E. specialize (L C). rewrite E in L. discriminate.
  - intros Mo. apply SFleb_ival; auto. rewrite V, V'.
    pose proof (ratio_units_mono elapsed
                  (u32_sub later (recordingStartTime p)) ltac:(lia)).
    lia.
Qed.

(* ================================================================== *)
(** * main.cpp: the buzzer and the serial commands *)
(* ================================================================== *)

Lemma total_delay_app a b :
  total_delay (a ++ b) = (total_delay a + total_delay b)%Z.
Proof.
  induction a as [|e r IH]; [reflexivity|].
  cbn [app total_delay fold_right]. fold (total_delay (r ++ b)).
  fold (total_delay r). rewrite IH. destruct e; lia.
Qed.

Lemma pin_level_app pin before a b :
  pin_level pin before (a ++ b) = pin_level pin (pin_level pin before a) b.
Proof. apply fold_left_app. Qed.

Lemma buzzer_pulses_app a b :
  buzzer_pulses (a ++ b) = buzzer_pulses a + buzzer_pulses b.
Proof. unfold buzzer_pulses. now rewrite filter_app, length_app. Qed.

(** The pulses from pulse [s] on, [n] of them left. *)
Lemma beep_pulses onMs offMs times n : forall s before,
  s + n = times ->
  let out :=
    flat_map
      (fun i =>
         [EvWrite PIN_BUZZER HIGH; EvDelay onMs; EvWrite PIN_BUZZER LOW]
         ++ (if i + 1 <? times then [EvDelay offMs] else []))
      (seq s n) in
  total_delay out
    = (if n =? 0 then 0%Z
       else (Z.of_nat n * onMs + (Z.of_nat n - 1) * offMs)%Z) /\
  pin_level PIN_BUZZER before out = (if n =? 0 then before else LOW) /\
  pin_level PIN_LED before out = before /\
  buzzer_pulses out = n.
Proof.
  induction n as [|n IH]; intros s before E; [repeat split|].
  cbn [seq flat_map]. cbv zeta.
  destruct (IH (S s) LOW ltac:(lia)) as (D & B & _ & C).
  destruct (IH (S s) before ltac:(lia)) as (_ & _ & L & _).
  cbv zeta in D, B, C, L.
  rewrite total_delay_app, !pin_level_app, buzzer_pulses_app, D, C.
  destruct (Nat.ltb_spec (s + 1) times) as [G|G].
  - destruct n as [|n]; [lia|].
    cbn [Nat.eqb] in *. repeat split.
    + cbn [app total_delay fold_right]. lia.
    + rewrite <- B at 2. reflexivity.
    + rewrite <- L at 2. reflexivity.
  - assert (n = 0) by lia. subst n. repeat split.
    cbn [app total_delay fold_right Nat.eqb]. lia.
Qed.

(** The buzzer.  [beep(onMs, times, offMs)] takes [times] as a
    [uint8_t] and the two durations as [uint16_t]: with [n = times mod
    256], [on = onMs mod 65536] and [off = offMs mod 65536] (the
    arguments themselves when they are in range), it switches the
    buzzer on [n] times and leaves it off; it never touches the LED;
    and it blocks for [n * on + (n - 1) * off] ms (nothing at all for
    [n = 0], as for [times = 256]).  So the four signals block for 240,
    60, 400 and 150 ms. *)
Theorem beep_spec (onMs offMs : Z) (times : nat) (before : bool) :
  let on := (onMs mod 65536)%Z in
  let off := (offMs mod 65536)%Z in
  let n := times mod 256 in
  total_delay (beep onMs times offMs)
    = (if n =? 0 then 0%Z
       else (Z.of_nat n * on + (Z.of_nat n - 1) * off)%Z) /\
  pin_level PIN_BUZZER before (beep onMs times offMs)
    = (if n =? 0 then before else LOW) /\
  pin_level PIN_LED before (beep onMs times offMs) = before /\
  buzzer_pulses (beep onMs times offMs) = n /\
  n < 256 /\ (0 <= on < 65536)%Z /\ (0 <= off < 65536)%Z /\
  (times < 256 -> n = times) /\
  ((0 <= onMs < 65536)%Z -> on = onMs) /\
  ((0 <= offMs < 65536)%Z -> off = offMs) /\
  beep 1 256 1 = [] /\
  map total_delay [signalRecordingStart; signalRecordingStop;
                   signalSentenceStart; signalSentenceComplete]
    = [240; 60; 400; 150]%Z.
Proof.
  intros on off n.
  destruct (beep_pulses on off n n 0 before eq_refl) as (A & B & C & D).
  split; [exact A|]. split; [exact B|]. split; [exact C|].
  split; [exact D|].
  split; [apply Nat.mod_upper_bound; discriminate|].
  split; [apply Z.mod_pos_bound; reflexivity|].
  split; [apply Z.mod_pos_bound; reflexivity|].
  split; [apply Nat.mod_small|].
  split; [apply Z.mod_small|].
  split; [apply Z.mod_small|].
  split; reflexivity.
Qed.

Lemma serial_command_other st c :
  is_command c = false -> serial_command st c = st.
Proof.
  unfold is_command, serial_command. destruct st as [g out].
  destruct (Ascii.eqb c "S"), (Ascii.eqb c "E"); simpl; congruence.
Qed.

Lemma serial_commands_filter input : forall st,
  fold_left serial_command input st
    = fold_left serial_command (filter is_command input) st.
Proof.
  induction input as [|c r IH]; intros st; [reflexivity|].
  cbn [fold_left filter]. destruct (is_command c) eqn:E.
  - cbn [fold_left]. apply IH.
  - rewrite serial_command_other by auto. apply IH.
Qed.

(** The serial commands.  Characters other than 'S' and 'E' are
    ignored: when none of the characters read is a command the flag is
    left as it was and nothing is signalled.  Otherwise the last command
    read decides: the flag is set after 'S' and clear after 'E', the LED
    shows the flag, and the buzzer is off. *)
Theorem serial_last_command_wins (input : list ascii)
  (gRecordingActive led buzzer : bool) :
  let r := handleSerialCommands input gRecordingActive in
  r = handleSerialCommands (filter is_command input) gRecordingActive /\
  (filter is_command input = [] -> r = (gRecordingActive, [])) /\
  (forall before c after,
      input = before ++ c :: after ->
      is_command c = true -> filter is_command after = [] ->
      fst r = Ascii.eqb c "S" /\
      pin_level PIN_LED led (snd r) = fst r /\
      pin_level PIN_BUZZER buzzer (snd r) = LOW).
Proof.
  intros r. unfold r, handleSerialCommands. split; [|split].
  - apply serial_commands_filter.
  - intros E. now rewrite serial_commands_filter, E.
  - intros before c after -> C A.
    rewrite fold_left_app. cbn [fold_left].
    rewrite (serial_commands_filter after), A. cbn [fold_left].
    destruct (fold_left serial_command before (gRecordingActive, []))
      as [g out].
    unfold is_command in C. unfold serial_command.
    destruct (Ascii.eqb c "S") eqn:ES.
    + cbn [fst snd]. rewrite !pin_level_app. repeat split.
    + destruct (Ascii.eqb c "E") eqn:EE; [|discriminate].
      cbn [fst snd]. rewrite !pin_level_app. repeat split.
Qed.

(* ================================================================== *)
(** * main.cpp: the sentence button and the loop *)
(* ================================================================== *)

Lemma button_pressed_inv b t_edge t_stable g :
  button_pressed b t_edge t_stable g = true ->
  b = LOW /\ lastButtonState g = HIGH /\
  (DEBOUNCE_DELAY_MS < u32_sub t_stable t_edge)%Z /\
  recording (sentencePredictor g) = false.
Proof.
  unfold button_pressed. intros H.
  apply andb_true_iff in H. destruct H as [H R].
  apply andb_true_iff in H. destruct H as [D E].
  apply andb_true_iff in E. destruct E as [E1 E2].
  apply Bool.eqb_prop in E1, E2. rewrite E1, E2 in D.
  change (negb (Bool.eqb LOW HIGH)) with true in D. cbv iota in D.
  apply Z.ltb_lt in D. apply negb_true_iff in R. auto.
Qed.

Lemma handle_button_pressed b t_edge t_stable t_start g :
  let g' := handle_button b t_edge t_stable t_start g in
  if button_pressed b t_edge t_stable g
  then sentencePredictor g' = startRecording t_start (sentencePredictor g) /\
       sentenceModeActive g' = true
  else sentencePredictor g' = sentencePredictor g /\
       sentenceModeActive g' = sentenceModeActive g.
Proof.
  unfold handle_button, button_pressed. cbn [sentencePredictor sentenceModeActive].
  destruct (_ && _ && _); auto.
Qed.

Lemma loop_run_snoc M inputs i g :
  loop_run M (inputs ++ [i]) g
    = (fst (loop M i (fst (loop_run M inputs g))),
       snd (loop_run M inputs g)
       ++ snd (loop M i (fst (loop_run M inputs g)))).
Proof.
  unfold loop_run. rewrite fold_left_app. cbn [fold_left].
  destruct (loop M i (fst (fold_left _ inputs (g, [])))); reflexivity.
Qed.

Section LoopFacts.

Variable M : SentenceModel.

(** The button against the clock.  The start branch of the button
    block is taken only in the pass that sees the HIGH to LOW edge, and
    only when the two clock readings of that same pass are more than
    DEBOUNCE_DELAY_MS (50 ms) apart.  So in a run of passes whose two
    readings are each at most 50 ms apart, whatever the button does, no
    recording is ever started: the predictor stays as constructed, the
    sentence mode stays off, and every pass is a gesture pass. *)
Theorem button_needs_a_slow_pass (inputs : list LoopInput) :
  (forall b t_edge t_stable g,
      button_pressed b t_edge t_stable g = true ->
      b = LOW /\ lastButtonState g = HIGH /\
      (DEBOUNCE_DELAY_MS < u32_sub t_stable t_edge)%Z /\
      recording (sentencePredictor g) = false) /\
  (Forall (fun i => (u32_sub (in_t_stable i) (in_t_edge i)
                     <= DEBOUNCE_DELAY_MS)%Z) inputs ->
   let r := loop_run M inputs Globals_init in
   sentencePredictor (fst r) = SentencePredictor_new /\
   sentenceModeActive (fst r) = false /\
   Forall (fun e => e = EvGesture \/ e = EvDelay 100) (snd r)).
Proof.
  split; [intros; now apply button_pressed_inv|].
  induction inputs as [|i r IH] using rev_ind; intros H.
  - repeat split. constructor.
  - apply Forall_app in H. destruct H as [Hr Hi].
    inversion Hi as [|? ? Q _]; subst.
    destruct (IH Hr) as (P1 & P2 & P3). clear IH.
    cbv zeta. rewrite loop_run_snoc. cbn [fst snd].
    set (g := fst (loop_run M r Globals_init)) in *.
    assert (N : button_pressed (in_button i) (in_t_edge i) (in_t_stable i) g
                = false).
    { destruct (button_pressed _ _ _ g) eqn:E; auto.
      apply button_pressed_inv in E. lia. }
    pose proof (handle_button_pressed (in_button i) (in_t_edge i)
                  (in_t_stable i) (in_t_start i) g) as HB.
    cbv zeta in HB. rewrite N in HB. destruct HB as [B1 B2].
    unfold loop. rewrite N.
    set (g1 := handle_button _ _ _ _ g) in *.
    unfold sentence_branch. rewrite B2, P2. cbn [andb fst snd app].
    repeat split; try congruence.
    apply Forall_app. split; auto.
Qed.

Lemma progress_in_range t p :
  F32.leb F32.zero (getRecordingProgress t p) = true /\
  F32.leb (getRecordingProgress t p) F32.one = true.
Proof.
  destruct (isRecording p) eqn:R.
  - destruct (progress_units t p R) as (F & V & _). cbv zeta in V.
    pose proof (nonneg_finite_ival _ F). split.
    + apply SFleb_ival; [exact I|exact F|]. change (ival F32.zero) with 0%Z.
      lia.
    + apply SFleb_ival; [exact F|reflexivity|]. rewrite V.
      change (ival F32.one) with (2 ^ 149)%Z. lia.
  - unfold getRecordingProgress. rewrite R. split; reflexivity.
Qed.

(** What [addSample] leaves when it reports a complete window, and
    when it does not. *)
Lemma addSample_result now x p :
  cursor_ok p -> bufferFilled p = false -> isRecording p = true ->
  let r := addSample now x p in
  if snd r
  then bufferFilled (fst r) = true /\ isRecording (fst r) = false
  else bufferFilled (fst r) = false /\ isRecording (fst r) = true.
Proof.
  intros I F R.
  destruct (addSample_cases now x p) as [R'|R' T|R' T C|R' T C D];
    cbn [fst snd bufferFilled isRecording mark_filled store_sample];
    repeat split; auto; congruence.
Qed.

Hypothesis K_positive : 0 < SENTENCE_KNN_N_NEIGHBORS M.
Hypothesis K_small : (Z.of_nat (SENTENCE_KNN_N_NEIGHBORS M) < 16777216)%Z.
Hypothesis classes_positive : 0 < SENTENCE_NUM_CLASSES M.
Hypothesis labels_ok : labels_in_range M = true.

Lemma sentence_branch_ok x t_add t_progress g :
  loop_ok g ->
  let r := sentence_branch M x t_add t_progress g in
  loop_ok (fst (fst r)) /\ Forall (output_in_range M) (snd (fst r)).
Proof.
  intros [I F Md]. unfold sentence_branch.
  destruct (sentenceModeActive g) eqn:A; cbn [andb];
    [|cbn [fst snd]; split; [split; auto; rewrite A; auto|constructor]].
  unfold recording. destruct (isRecording (sentencePredictor g)) eqn:R;
    [|cbn [fst snd]; split;
      [split; auto; rewrite R; discriminate|constructor]].
  pose proof (addSample_result t_add x _ I F R) as AR. cbv zeta in AR.
  pose proof (cursor_ok_add t_add x _ I) as I1.
  destruct (addSample t_add x (sentencePredictor g)) as [p1 c].
  cbn [fst snd] in AR, I1.
  pose proof (progress_in_range t_progress p1) as PR.
  destruct c.
  - destruct AR as [F1 R1].
    assert (E : predict M p1
                = (p1, predictSentenceKNN M
                         (standardizeSentenceFeatures M
                            (flatten_buffer (buffer p1))))).
    { unfold predict. now rewrite F1. }
    rewrite E. clear E.
    destruct (predictSentenceKNN M _) as [l d] eqn:E.
    cbn [fst snd]. split.
    + split; cbn [sentencePredictor sentenceModeActive reset isRecording
                  bufferFilled]; auto; try discriminate.
      now apply cursor_ok_reset.
    + constructor; [exact PR|].
      apply Forall_app. split.
      * repeat constructor.
      * assert (L : l < SENTENCE_NUM_CLASSES M).
        { replace l with (fst (predictSentenceKNN M
                     (standardizeSentenceFeatures M
                        (flatten_buffer (buffer p1)))))
            by (rewrite E; reflexivity).
          unfold predictSentenceKNN, majority_vote. cbn [fst].
          now apply best_label_lt. }
        assert (D : kept_distance d).
        { replace d with (snd (predictSentenceKNN M
                     (standardizeSentenceFeatures M
                        (flatten_buffer (buffer p1)))))
            by (rewrite E; reflexivity).
          now apply mean_distance_kept. }
        destruct (confidence_in_range d (proj1 D)) as (C1 & C2 & _).
        repeat constructor; auto.
        -- now apply Nat.ltb_lt.
        -- apply D.
  - destruct AR as [F1 R1]. cbn [fst snd]. split.
    + split; cbn [sentencePredictor sentenceModeActive]; auto.
    + repeat constructor; apply PR.
Qed.

Lemma loop_pass_ok i g :
  loop_ok g ->
  loop_ok (fst (loop M i g)) /\ Forall (output_in_range M) (snd (loop M i g)).
Proof.
  intros G. unfold loop.
  pose proof (handle_button_pressed (in_button i) (in_t_edge i)
                (in_t_stable i) (in_t_start i) g) as HB.
  cbv zeta in HB.
  set (g1 := handle_button _ _ _ _ g) in *.
  assert (G1 : loop_ok g1).
  { destruct G as [I F Md].
    destruct (button_pressed _ _ _ g); destruct HB as [B1 B2];
      split; rewrite ?B1, ?B2; auto.
    apply cursor_ok_start. }
  pose proof (sentence_branch_ok (in_sample i) (in_t_add i) (in_t_progress i)
                g1 G1) as SB.
  cbv zeta in SB.
  destruct (sentence_branch M (in_sample i) (in_t_add i) (in_t_progress i) g1)
    as [[g2 out] taken].
  cbn [fst snd] in *. destruct SB as [S1 S2]. split; [exact S1|].
  apply Forall_app. split.
  - destruct (button_pressed _ _ _ g); repeat constructor.
  - apply Forall_app. split; [exact S2|].
    destruct taken; repeat constructor.
Qed.

(** The loop, whatever the timing and the sensor data.  With K between
    1 and 2^24 - 1, at least one class and a labels table of class
    indices, in every run of passes from the initial globals: between
    passes the predictor is never left with a filled window (a complete
    window is predicted and reset in the pass that completes it), a
    recording in progress always has the sentence mode on (so every
    pass feeds it), and the cursor is within the buffer; the labels a
    prediction counts are all class indices, so its vote loop writes
    inside [votes[]]; and every line printed is in range: a progress
    between 0 and 1, and for a sentence a label that is a class (the
    name is never "unknown"), a mean distance that is a number and a
    confidence in (0, 1]. *)
Theorem loop_outputs_in_range (inputs : list LoopInput) :
  let r := loop_run M inputs Globals_init in
  let p := sentencePredictor (fst r) in
  bufferIndex p <= SENTENCE_SAMPLES_PER_WINDOW /\
  bufferFilled p = false /\
  (isRecording p = true -> sentenceModeActive (fst r) = true) /\
  (forall query,
     Forall (fun l => l < SENTENCE_NUM_CLASSES M /\ l < 256)
            (map snd (knn_nearest M query))) /\
  Forall (output_in_range M) (snd r).
Proof.
  assert (H : loop_ok (fst (loop_run M inputs Globals_init)) /\
              Forall (output_in_range M)
                     (snd (loop_run M inputs Globals_init))).
  { induction inputs as [|i r IH] using rev_ind.
    - split; [|constructor]. split; try discriminate; auto.
      apply cursor_ok_new.
    - destruct IH as [G O]. rewrite loop_run_snoc. cbn [fst snd].
      destruct (loop_pass_ok i _ G) as [G' O'].
      split; [exact G'|]. apply Forall_app. now split. }
  destruct H as [[I F Md] O]. cbv zeta.
  split; [apply I|]. split; [exact F|]. split; [exact Md|].
  split; [intros query; now apply kept_labels_in_range|exact O].
Qed.

End LoopFacts.

Section CompletingPass.

Variable M : SentenceModel.

(** The pass that completes a window.  When the sentence mode is on,
    a recording is in progress and [addSample] reports the window
    complete, the pass prints a progress of 0.0 (the recording flag is
    already clear when [getRecordingProgress] is called), gives the
    completion signal, prints the label and the mean distance of the KNN
    search on the standardised window (never the 999999.0f of an unfilled
    buffer) with the confidence computed from that distance, and leaves
    the predictor reset and the sentence mode off. *)
Theorem completing_pass (x : SensorSample) (t_add t_progress : Z)
  (g : Globals) :
  sentenceModeActive g = true ->
  isRecording (sentencePredictor g) = true ->
  snd (addSample t_add x (sentencePredictor g)) = true ->
  let p1 := fst (addSample t_add x (sentencePredictor g)) in
  let result :=
    predictSentenceKNN M
      (standardizeSentenceFeatures M (flatten_buffer (buffer p1))) in
  let '(g', out, taken) := sentence_branch M x t_add t_progress g in
  taken = true /\
  out = EvProgress F32.zero
        :: signalSentenceComplete
        ++ [EvSentence (fst result <? SENTENCE_NUM_CLASSES M) (fst result)
              (confidence (snd result)) (snd result);
            EvDelay 10] /\
  sentencePredictor g' = reset p1 /\
  isRecording (sentencePredictor g') = false /\
  bufferFilled (sentencePredictor g') = false /\
  bufferIndex (sentencePredictor g') = 0 /\
  sentenceModeActive g' = false.
Proof.
  intros A R C p1 result. unfold sentence_branch, recording.
  rewrite A, R. cbn [andb].
  subst p1 result.
  destruct (addSample_cases t_add x (sentencePredictor g))
    as [R'|R' T|R' T C'|R' T C' D]; cbn [fst snd] in *; try discriminate.
  unfold predict, getRecordingProgress.
  cbn [bufferFilled isRecording mark_filled negb].
  cbn [fst snd].
  destruct (predictSentenceKNN M _) as [l d].
  cbn [fst snd sentencePredictor sentenceModeActive reset isRecording
       bufferFilled bufferIndex].
  repeat split.
Qed.

End CompletingPass.

(* ================================================================== *)
(** * main.cpp: the scaling of the raw readings *)
(* ================================================================== *)

Section Scaling.

Local Open Scope Z_scope.

(** ** Negative arguments *)

Lemma binary_round_aux_opp m e l :
  binary_round_aux 24 128 true m e l
    = SFopp (binary_round_aux 24 128 false m e l).
Proof.
  unfold binary_round_aux.
  destruct (shr_fexp 24 128 m e l) as [mrs' e'].
  destruct (shr_fexp 24 128 _ e' loc_Exact) as [mrs'' e''].
  destruct (shr_m mrs''); try reflexivity.
  destruct (e'' <=? 128 - 24); reflexivity.
Qed.

Lemma of_Z_opp n : 0 < n -> F32.of_Z (- n) = SFopp (F32.of_Z n).
Proof.
  intros H. destruct n as [|p|p]; try lia.
  unfold F32.of_Z. cbn [Z.opp binary_normalize]. unfold binary_round.
  change F32.prec with 24. change F32.emax with 128.
  destruct (shl_align p 0 _) as [mz ez]. apply binary_round_aux_opp.
Qed.

Lemma div_opp x y :
  nonneg_finite x -> nonneg_finite y -> 0 < ival y ->
  SFdiv 24 128 (SFopp x) y = SFopp (SFdiv 24 128 x y).
Proof.
  intros Hx Hy Py.
  destruct y as [sy|sy| |[|] my ey]; cbn [nonneg_finite ival] in *;
    try tauto; try lia.
  destruct x as [sx|sx| |[|] mx ex]; cbn [nonneg_finite] in *; try tauto.
  - destruct sx; reflexivity.
  - cbn [SFopp SFdiv negb xorb].
    destruct (SFdiv_core_binary 24 128 (Z.pos mx) ex (Z.pos my) ey)
      as [[mz ez] lz].
    apply binary_round_aux_opp.
Qed.

Lemma float_to_Q_opp x : (float_to_Q (SFopp x) == - float_to_Q x)%Q.
Proof.
  destruct x as [s|s| |s m e]; cbn [SFopp float_to_Q]; try reflexivity.
  destruct s; cbn [negb]; ring.
Qed.

Lemma is_finite_opp x : is_finite (SFopp x) = is_finite x.
Proof. destruct x; reflexivity. Qed.

Lemma nonneg_finite_is_finite x : nonneg_finite x -> is_finite x = true.
Proof. destruct x as [s|s| |[|] m e]; cbn; tauto. Qed.

(** ** Units and rationals *)

Lemma float_to_Q_units x :
  nonneg_finite x ->
  (float_to_Q x * inject_Z (2 ^ 149) == inject_Z (ival x))%Q.
Proof.
  destruct x as [s|s| |[|] m e]; cbn [nonneg_finite float_to_Q ival];
    try tauto; intros H; try ring.
  apply bounded_spec in H. destruct H as [C B].
  rewrite inject_Z_mult, !Zpower_Qpower by lia.
  change (inject_Z 2) with (2 # 1)%Q.
  rewrite Qpower_plus by discriminate. ring.
Qed.

(** From a value in units to a bound in rationals. *)
Lemma units_lower q I n d :
  (q * inject_Z (2 ^ 149) == inject_Z I)%Q ->
  n * 2 ^ 149 <= I * Zpos d -> (n # d <= q)%Q.
Proof.
  destruct q as [a b]. unfold Qeq, Qle, Qmult, inject_Z. cbn [Qnum Qden].
  intros E H. rewrite Pos.mul_1_r, Z.mul_1_r in E.
  apply Z.mul_le_mono_pos_r with (p := 2 ^ 149); [reflexivity|].
  assert (n * 2 ^ 149 * Zpos b <= I * Zpos d * Zpos b)
    by (apply Z.mul_le_mono_nonneg_r; lia).
  nia.
Qed.

Lemma units_upper q I n d :
  (q * inject_Z (2 ^ 149) == inject_Z I)%Q ->
  I * Zpos d <= n * 2 ^ 149 -> (q <= n # d)%Q.
Proof.
  destruct q as [a b]. unfold Qeq, Qle, Qmult, inject_Z. cbn [Qnum Qden].
  intros E H. rewrite Pos.mul_1_r, Z.mul_1_r in E.
  apply Z.mul_le_mono_pos_r with (p := 2 ^ 149); [reflexivity|].
  assert (I * Zpos d * Zpos b <= n * 2 ^ 149 * Zpos b)
    by (apply Z.mul_le_mono_nonneg_r; lia).
  nia.
Qed.

(** ** The error of a rounding *)

Lemma rne_error a c : 0 < c -> - c <= 2 * (rne a c * c - a) <= c.
Proof.
  intros H. pose proof (Z.div_mod a c ltac:(lia)) as E.
  pose proof (Z.mod_pos_bound a c H) as B. unfold rne.
  destruct (Z.compare_spec (2 * (a mod c)) c) as [C|C|C];
    try destruct (Z.even (a / c)); nia.
Qed.

Lemma RN_error a b :
  0 <= a -> 0 < b ->
  - (2 ^ RNk a b * b) <= 2 * (RN a b * b - a) <= 2 ^ RNk a b * b.
Proof.
  intros Ha Hb. unfold RN.
  assert (K : 0 <= RNk a b) by (unfold RNk; lia).
  pose proof (pow2_gt0 (RNk a b) K) as P.
  pose proof (rne_error a (2 ^ RNk a b * b) ltac:(nia)). nia.
Qed.

(** ** The two quotients, for a non-negative reading *)

Lemma accel_units n :
  0 <= n <= 32768 ->
  nonneg_finite (accel_to_g n) /\ ival (accel_to_g n) = n * 2 ^ 135.
Proof.
  intros H.
  destruct (of_Z_exact n ltac:(lia)) as [X1 X2].
  destruct (of_Z_exact 16384 ltac:(lia)) as [Y1 Y2].
  assert (E : RN (ival (F32.of_Z n) * 2 ^ 149) (ival (F32.of_Z 16384))
              = n * 2 ^ 135).
  { rewrite X2, Y2.
    replace (n * 2 ^ 149 * 2 ^ 149)
      with (16384 * 2 ^ 149 * (n * 2 ^ 135)).
    - replace (16384 * 2 ^ 149) with (16384 * 2 ^ 149 * 1) at 2 by lia.
      rewrite RN_scale by lia. apply RN_exact_int; lia.
    - change (2 ^ 149) with (16384 * 2 ^ 135). ring. }
  unfold accel_to_g.
  change (F32.div (F32.of_Z n) (F32.of_Z 16384))
    with (SFdiv 24 128 (F32.of_Z n) (F32.of_Z 16384)).
  rewrite <- E. apply div_spec; auto.
  - rewrite Y2. split; reflexivity.
  - rewrite E. apply Z.le_lt_trans with (m := 32768 * 2 ^ 135); [|reflexivity].
    apply Z.mul_le_mono_nonneg_r; lia.
Qed.

Lemma gyro_units n :
  0 <= n <= 32768 ->
  nonneg_finite (gyro_to_dps n) /\
  - (131 * 2 ^ 132) <= 131 * ival (gyro_to_dps n) - n * 2 ^ 149
    <= 131 * 2 ^ 132.
Proof.
  intros H.
  destruct (of_Z_exact n ltac:(lia)) as [X1 X2].
  destruct (of_Z_exact 131 ltac:(lia)) as [Y1 Y2].
  assert (E : RN (ival (F32.of_Z n) * 2 ^ 149) (ival (F32.of_Z 131))
              = RN (n * 2 ^ 149) 131).
  { rewrite X2, Y2.
    replace (n * 2 ^ 149 * 2 ^ 149) with (2 ^ 149 * (n * 2 ^ 149)) by ring.
    replace (131 * 2 ^ 149) with (2 ^ 149 * 131) by ring.
    apply RN_scale; lia. }
  assert (K : RNk (n * 2 ^ 149) 131 <= 133).
  { unfold RNk.
    assert (Zdigits2 (n * 2 ^ 149 / 131) <= 157); [|lia].
    apply Zdigits2_lt_pow; [lia|]. split.
    - apply Z.div_pos; lia.
    - apply Z.div_lt_upper_bound; [lia|].
      apply Z.le_lt_trans with (m := 32768 * 2 ^ 149); [|reflexivity].
      apply Z.mul_le_mono_nonneg_r; lia. }
  assert (K0 : 0 <= RNk (n * 2 ^ 149) 131) by (unfold RNk; lia).
  pose proof (pow2_le (RNk (n * 2 ^ 149) 131) 133 ltac:(lia)) as PL.
  pose proof (pow2_gt0 (RNk (n * 2 ^ 149) 131) K0) as PG.
  pose proof (RN_error (n * 2 ^ 149) 131 ltac:(lia) ltac:(lia)) as R.
  assert (U : RN (n * 2 ^ 149) 131 <= 2 ^ 158).
  { change (2 ^ 133) with (2 * 2 ^ 132) in PL. nia. }
  unfold gyro_to_dps.
  change (F32.div (F32.of_Z n) (F32.of_Z 131))
    with (SFdiv 24 128 (F32.of_Z n) (F32.of_Z 131)).
  destruct (div_spec (F32.of_Z n) (F32.of_Z 131) X1 Y1) as [D1 D2].
  - rewrite Y2. split; reflexivity.
  - rewrite E. apply Z.le_lt_trans with (m := 2 ^ 158); [exact U|reflexivity].
  - split; [exact D1|]. rewrite D2, E.
    change (2 ^ 133) with (2 * 2 ^ 132) in PL. nia.
Qed.

End Scaling.

Lemma Qmake_opp n d : ((- n) # d == - (n # d))%Q.
Proof. reflexivity. Qed.

(** The scaling of the raw readings.  For every [int16_t] reading, the
    acceleration [raw / 16384.0f] is a number, exactly the quotient (no
    rounding), so it lies in [-2, 2); and the angular rate
    [raw / 131.0f] is a number within [2^-17] of the quotient. *)
Theorem sensor_scaling_spec (raw : Z) :
  (-32768 <= raw <= 32767)%Z ->
  is_finite (accel_to_g raw) = true /\
  (float_to_Q (accel_to_g raw) == raw # 16384)%Q /\
  (- (2 # 1) <= float_to_Q (accel_to_g raw) < 2 # 1)%Q /\
  is_finite (gyro_to_dps raw) = true /\
  ((raw # 131) - (1 # 131072) <= float_to_Q (gyro_to_dps raw))%Q /\
  (float_to_Q (gyro_to_dps raw) <= (raw # 131) + (1 # 131072))%Q.
Proof.
  intros H.
  assert (P : forall n, (0 <= n <= 32768)%Z ->
    is_finite (accel_to_g n) = true /\
    (float_to_Q (accel_to_g n) == n # 16384)%Q /\
    is_finite (gyro_to_dps n) = true /\
    ((n # 131) - (1 # 131072) <= float_to_Q (gyro_to_dps n))%Q /\
    (float_to_Q (gyro_to_dps n) <= (n # 131) + (1 # 131072))%Q).
  { intros n Hn.
    destruct (accel_units n Hn) as [A1 A2].
    destruct (gyro_units n Hn) as [G1 G2].
    pose proof (float_to_Q_units _ A1) as QA. rewrite A2 in QA.
    pose proof (float_to_Q_units _ G1) as QG.
    split; [now apply nonneg_finite_is_finite|]. split.
    - apply Qle_antisym.
      + apply (units_upper _ _ _ _ QA).
        change (2 ^ 149)%Z with (16384 * 2 ^ 135)%Z. lia.
      + apply (units_lower _ _ _ _ QA).
        change (2 ^ 149)%Z with (16384 * 2 ^ 135)%Z. lia.
    - split; [now apply nonneg_finite_is_finite|]. split.
      + assert (E : ((n # 131) - (1 # 131072)
                     == (n * 131072 - 131) # (131 * 131072))%Q).
        { unfold Qeq, Qminus, Qplus, Qopp. cbn [Qnum Qden]. lia. }
        rewrite E. apply (units_lower _ _ _ _ QG).
        change (2 ^ 149)%Z with (131072 * 2 ^ 132)%Z. lia.
      + assert (E : ((n # 131) + (1 # 131072)
                     == (n * 131072 + 131) # (131 * 131072))%Q).
        { unfold Qeq, Qplus. cbn [Qnum Qden]. lia. }
        rewrite E. apply (units_upper _ _ _ _ QG).
        change (2 ^ 149)%Z with (131072 * 2 ^ 132)%Z. lia. }
  assert (R : is_finite (accel_to_g raw) = true /\
    (float_to_Q (accel_to_g raw) == raw # 16384)%Q /\
    is_finite (gyro_to_dps raw) = true /\
    ((raw # 131) - (1 # 131072) <= float_to_Q (gyro_to_dps raw))%Q /\
    (float_to_Q (gyro_to_dps raw) <= (raw # 131) + (1 # 131072))%Q).
  { destruct (Z.le_gt_cases 0 raw) as [G|L]; [apply P; lia|].
    destruct (P (- raw)%Z ltac:(lia)) as (A1 & A2 & G1 & G2 & G3).
    destruct (accel_units (- raw) ltac:(lia)) as [FA _].
    destruct (gyro_units (- raw) ltac:(lia)) as [FG _].
    assert (EA : accel_to_g raw = SFopp (accel_to_g (- raw))).
    { unfold accel_to_g in *.
      replace raw with (- - raw)%Z at 1 by lia.
      rewrite of_Z_opp by lia.
      destruct (of_Z_exact (- raw) ltac:(lia)) as [X1 X2].
      destruct (of_Z_exact 16384 ltac:(lia)) as [Y1 Y2].
      apply (div_opp _ _ X1 Y1). rewrite Y2. reflexivity. }
    assert (EG : gyro_to_dps raw = SFopp (gyro_to_dps (- raw))).
    { unfold gyro_to_dps in *.
      replace raw with (- - raw)%Z at 1 by lia.
      rewrite of_Z_opp by lia.
      destruct (of_Z_exact (- raw) ltac:(lia)) as [X1 X2].
      destruct (of_Z_exact 131 ltac:(lia)) as [Y1 Y2].
      apply (div_opp _ _ X1 Y1). rewrite Y2. reflexivity. }
    rewrite EA, EG, !is_finite_opp, !float_to_Q_opp.
    rewrite Qmake_opp in A2, G2, G3.
    split; [exact A1|]. split.
    - rewrite A2. ring.
    - split; [exact G1|]. split.
      + apply Qopp_le_compat in G3.
        eapply Qle_trans; [|exact G3].
        apply Qle_lteq. right. ring.
      + apply Qopp_le_compat in G2.
        eapply Qle_trans; [exact G2|].
        apply Qle_lteq. right. ring. }
  destruct R as (A1 & A2 & G1 & G2 & G3).
  repeat split; auto.
  - rewrite A2. unfold Qle. cbn [Qnum Qden Qopp]. lia.
  - rewrite A2. unfold Qlt. cbn [Qnum Qden]. lia.
Qed.

(* ================================================================== *)
(** * Worked instances *)
(* ================================================================== *)

(** C1 fails as stated: a row 3e9 away from the query is the nearest (and
    only) row of the dataset, yet the kept list still holds the sentinel
    (1e9, 0) after the search, not that row. *)
Lemma far_row_is_not_kept :
  all_rows far_model demo_query = [(F32.of_Z 3000000000, 1)] /\
  firstn (SENTENCE_KNN_N_NEIGHBORS far_model)
    (full_sort (all_rows far_model demo_query))
    = [(F32.of_Z 3000000000, 1)] /\
  knn_nearest far_model demo_query = [(F32.lit_1e9, 0)] /\
  knn_nearest far_model demo_query <>
    firstn (SENTENCE_KNN_N_NEIGHBORS far_model)
      (full_sort (all_rows far_model demo_query)).
Proof.
  repeat split; try (vm_compute; reflexivity).
  vm_compute. discriminate.
Qed.

(** The search on [mixed_model]: the row at 1.0 is kept, the row 3e9
    away sorts after it. *)
Lemma kept_are_first_k_of_full_sort_witness :
  knn_nearest mixed_model demo_query =
    firstn (SENTENCE_KNN_N_NEIGHBORS mixed_model)
      (full_sort (all_rows mixed_model demo_query)) /\
  knn_nearest mixed_model demo_query = [(F32.of_Z 1, 1)] /\
  full_sort (all_rows mixed_model demo_query)
    = [(F32.of_Z 1, 1); (F32.of_Z 3000000000, 0)].
Proof.
  assert (K : 0 < SENTENCE_KNN_N_NEIGHBORS mixed_model) by (simpl; lia).
  assert (NN : Forall (fun r => F32.is_nan (fst r) = false)
                 (all_rows mixed_model demo_query))
    by (repeat (apply Forall_cons; [reflexivity|]); apply Forall_nil).
  assert (N : SENTENCE_KNN_N_NEIGHBORS mixed_model
              <= length (filter below_sentinel
                           (all_rows mixed_model demo_query)))
    by (vm_compute; lia).
  destruct (kept_are_first_k_of_full_sort mixed_model K demo_query NN N)
    as [E _].
  split; [exact E|]. split; [rewrite E|]; reflexivity.
Defined.

(** C2 fails as stated: a recording started at 0 has its first sample
    stored at 3990; the call at 4010 comes after the window duration has
    elapsed, but within the sample interval of the stored sample, so it
    is dropped and reports not-complete. *)
Lemma completion_not_reported_by_dropped_call :
  isRecording (one_sample_at 3990) = true /\
  bufferIndex (one_sample_at 3990) = 1 /\
  (SENTENCE_WINDOW_DURATION_MS
     <=? u32_sub 4010 (recordingStartTime (one_sample_at 3990)))%Z = true /\
  addSample 4010 demo_sample (one_sample_at 3990)
    = (one_sample_at 3990, false).
Proof. repeat split; reflexivity. Qed.

(** A recording started at 0 with no sample stored: the call at 4000
    stores its sample and completes by duration, with one sample in the
    buffer. *)
Lemma completion_condition_witness :
  snd (addSample 4000 demo_sample (startRecording 0 SentencePredictor_new))
    = true /\
  bufferIndex
    (fst (addSample 4000 demo_sample (startRecording 0 SentencePredictor_new)))
    = 1.
Proof.
  assert (B : bufferIndex (startRecording 0 SentencePredictor_new)
              < SENTENCE_SAMPLES_PER_WINDOW)
    by (unfold SENTENCE_SAMPLES_PER_WINDOW; simpl; lia).
  pose proof (completion_condition 4000 demo_sample
                (startRecording 0 SentencePredictor_new) B) as H.
  cbv zeta in H. destruct H as [[_ H1] H2].
  assert (T : snd (addSample 4000 demo_sample
                     (startRecording 0 SentencePredictor_new)) = true).
  { apply H1. split; [reflexivity|]. split.
    - apply Z.leb_le. reflexivity.
    - right. apply Z.leb_le. reflexivity. }
  split; [exact T|]. destruct (H2 T) as (_ & _ & E & _). exact E.
Defined.

(** C3 fails as stated: with two classes and K = 256 neighbours, all of
    class 1, the [uint8_t] counter of class 1 wraps to 0 at the 256th
    vote; no counter is then above [maxVotes = 0], and the vote returns
    class 0, which no neighbour has, against the 256 votes of class 1. *)
Lemma vote_counter_wraps :
  count_votes 2 (repeat 1 256) = [0; 0] /\
  majority_vote 2 (repeat 1 256) = 0 /\
  count_occ Nat.eq_dec (repeat 1 256) 0 = 0 /\
  count_occ Nat.eq_dec (repeat 1 256) 1 = 256 /\
  ~ In (majority_vote 2 (repeat 1 256)) (repeat 1 256).
Proof.
  split; [vm_compute; reflexivity|]. split; [vm_compute; reflexivity|].
  split; [vm_compute; reflexivity|]. split; [vm_compute; reflexivity|].
  intros H. apply repeat_spec in H. vm_compute in H. discriminate.
Qed.

(** Labels 2, 1, 1, 2, 3: classes 1 and 2 tie at two votes, class 1
    wins. *)
Lemma majority_vote_first_max_witness :
  count_occ Nat.eq_dec [2; 1; 1; 2; 3] 2
    <= count_occ Nat.eq_dec [2; 1; 1; 2; 3] (majority_vote 4 [2; 1; 1; 2; 3]) /\
  (count_occ Nat.eq_dec [2; 1; 1; 2; 3] 2
     = count_occ Nat.eq_dec [2; 1; 1; 2; 3] (majority_vote 4 [2; 1; 1; 2; 3]) ->
   majority_vote 4 [2; 1; 1; 2; 3] <= 2) /\
  ([2; 1; 1; 2; 3] <> [] -> In (majority_vote 4 [2; 1; 1; 2; 3]) [2; 1; 1; 2; 3]).
Proof.
  apply (majority_vote_first_max 4 [2; 1; 1; 2; 3]).
  - simpl. lia.
  - repeat (apply Forall_cons; [lia|]). apply Forall_nil.
Defined.

(** On the kept distances 1.0, 5.0, 9.0: a candidate at 9.0 is
    discarded, a candidate at 5.0 is inserted. *)
Lemma strict_insertion_into_kept_witness :
  insert_neighbor 3 demo_kept (F32.of_Z 9) 7 = demo_kept /\
  sorted_by_dist (insert_neighbor 3 demo_kept (F32.of_Z 5) 7) /\
  length (insert_neighbor 3 demo_kept (F32.of_Z 5) 7) = 3.
Proof.
  assert (S : sorted_by_dist demo_kept).
  { repeat (apply SSorted_cons;
            [|repeat (apply Forall_cons; [reflexivity|]); apply Forall_nil]).
    apply SSorted_nil. }
  assert (K : 0 < 3) by lia.
  pose proof (strict_insertion_into_kept 3 demo_kept (F32.of_Z 9) 7
                K eq_refl S) as H9.
  pose proof (strict_insertion_into_kept 3 demo_kept (F32.of_Z 5) 7
                K eq_refl S) as H5.
  cbv zeta in H9, H5.
  destruct H9 as (_ & E & _). destruct H5 as (_ & _ & _ & S5 & L5).
  split; [apply E; reflexivity|]. split; assumption.
Defined.

(** C5 fails as stated: startRecording called at 200 on a recording in
    progress (started at 0, one sample stored) puts the cursor back to 0,
    zeroes the stored sample and moves the start time to 200. *)
Lemma start_while_recording_restarts :
  isRecording (one_sample_at 100) = true /\
  bufferIndex (one_sample_at 100) = 1 /\
  bufferIndex (startRecording 200 (one_sample_at 100)) = 0 /\
  nth 0 (buffer (one_sample_at 100)) zero_sample = demo_sample /\
  nth 0 (buffer (startRecording 200 (one_sample_at 100))) zero_sample
    = zero_sample /\
  recordingStartTime (one_sample_at 100) = 0%Z /\
  recordingStartTime (startRecording 200 (one_sample_at 100)) = 200%Z.
Proof. repeat split; reflexivity. Qed.

(** A button press during a recording leaves the predictor alone. *)
Lemma restart_guarded_by_caller_witness :
  sentencePredictor
    (handle_button LOW 1000 1100 1100
       (mkGlobals (one_sample_at 100) true HIGH 0))
  = one_sample_at 100.
Proof.
  pose proof (restart_guarded_by_caller
                (mkGlobals (one_sample_at 100) true HIGH 0)
                LOW 1000 1100 1100 eq_refl) as H.
  cbv zeta in H. destruct H as [E _]. exact E.
Defined.

(** Calls at 100, 120, 150 and 210: the call at 120 is dropped, the
    cursor ends at 3. *)
Lemma sample_spacing_enforced_witness :
  bufferIndex
    (add_samples [(100%Z, demo_sample); (120%Z, demo_sample);
                  (150%Z, demo_sample); (210%Z, demo_sample)]
       (startRecording 0 SentencePredictor_new))
  = spaced_count 0 [100; 120; 150; 210]%Z /\
  spaced_count 0 [100; 120; 150; 210]%Z = 3.
Proof.
  pose proof (sample_spacing_enforced SentencePredictor_new 0
                [(100%Z, demo_sample); (120%Z, demo_sample);
                 (150%Z, demo_sample); (210%Z, demo_sample)]) as H.
  cbv zeta in H. destruct H as (_ & _ & H).
  split; [apply H; reflexivity|reflexivity].
Defined.

(** A window completed by duration stays as it is under further
    addSample and predict calls. *)
Lemma filled_window_is_frozen_witness :
  bufferFilled
    (run demo_model [OpStart 0; OpAdd 5000 demo_sample] SentencePredictor_new)
    = true /\
  run demo_model [OpAdd 6000 demo_sample; OpPredict; OpAdd 7000 demo_sample]
    (run demo_model [OpStart 0; OpAdd 5000 demo_sample] SentencePredictor_new)
  = run demo_model [OpStart 0; OpAdd 5000 demo_sample] SentencePredictor_new.
Proof.
  assert (Q : Forall quiet_op
                [OpAdd 6000 demo_sample; OpPredict; OpAdd 7000 demo_sample])
    by (repeat (apply Forall_cons; [exact I|]); apply Forall_nil).
  pose proof (filled_window_is_frozen demo_model
                [OpStart 0; OpAdd 5000 demo_sample]
                [OpAdd 6000 demo_sample; OpPredict; OpAdd 7000 demo_sample] Q)
    as H.
  cbv zeta in H. destruct H as [_ H].
  assert (F : bufferFilled
                (run demo_model [OpStart 0; OpAdd 5000 demo_sample]
                   SentencePredictor_new) = true) by reflexivity.
  split; [exact F|]. destruct (H F) as (_ & E & _). exact E.
Defined.

(** predict during a recording returns the sentinel pair. *)
Lemma predict_not_filled_witness :
  predict demo_model (one_sample_at 100)
    = (one_sample_at 100, (0, F32.lit_999999)).
Proof.
  destruct (predict_not_filled demo_model (one_sample_at 100) eq_refl)
    as [E _].
  exact E.
Defined.

(** C9 fails as stated: the distances 0 and 2^-30 are different, the
    second larger, and the code gives both the confidence 1.0f. *)
Lemma confidence_not_strictly_decreasing :
  valid_binary F32.prec F32.emax tiny_distance = true /\
  F32.ltb F32.zero tiny_distance = true /\
  confidence tiny_distance = F32.one /\
  confidence F32.zero = F32.one /\
  F32.ltb (confidence tiny_distance) (confidence F32.zero) = false.
Proof. repeat split; reflexivity. Qed.

(** The distances 1.0 and 3.0: the scores 0.5 and 0.25 are in order and
    in range. *)
Lemma confidence_bounded_and_monotone_witness :
  F32.ltb F32.zero (confidence (F32.of_Z 3)) = true /\
  F32.leb (confidence (F32.of_Z 3)) (confidence (F32.of_Z 1)) = true /\
  F32.leb (confidence (F32.of_Z 1)) F32.one = true.
Proof.
  assert (H1 : nonneg_finite (F32.of_Z 1)) by reflexivity.
  assert (H3 : nonneg_finite (F32.of_Z 3)) by reflexivity.
  destruct (confidence_bounded_and_monotone (F32.of_Z 1) (F32.of_Z 3)
              H1 H3 eq_refl) as (A & B & C & _).
  repeat split; assumption.
Defined.

(** A sample stored at 1000, then reset, predict and a new recording
    at 1010: the call at 1020 is dropped. *)
Lemma spacing_spans_recordings_witness :
  addSample 1020 demo_sample
    (run demo_model [OpReset; OpPredict; OpStart 1010]
       (fst (addSample 1000 demo_sample
               (startRecording 0 SentencePredictor_new))))
  = (run demo_model [OpReset; OpPredict; OpStart 1010]
       (fst (addSample 1000 demo_sample
               (startRecording 0 SentencePredictor_new))), false) /\
  isRecording
    (run demo_model [OpReset; OpPredict; OpStart 1010]
       (fst (addSample 1000 demo_sample
               (startRecording 0 SentencePredictor_new)))) = true.
Proof.
  assert (NA : Forall no_add_op [OpReset; OpPredict; OpStart 1010])
    by (repeat (apply Forall_cons; [exact I|]); apply Forall_nil).
  assert (S : (SENTENCE_SAMPLE_INTERVAL_MS
               <= u32_sub 1000
                    (lastSampleTime (startRecording 0 SentencePredictor_new)))%Z)
    by (apply Z.leb_le; reflexivity).
  assert (D : (u32_sub 1020 1000 < SENTENCE_SAMPLE_INTERVAL_MS)%Z)
    by (apply Z.ltb_lt; reflexivity).
  pose proof (spacing_spans_recordings demo_model
                (startRecording 0 SentencePredictor_new) 1000 demo_sample
                [OpReset; OpPredict; OpStart 1010] 1020 demo_sample
                eq_refl S NA D) as H.
  cbv zeta in H. destruct H as [_ E].
  split; [exact E|reflexivity].
Defined.

Lemma unwritten_slots_are_zero_witness :
  let p := run demo_model [OpStart 0%Z] SentencePredictor_new in
  skipn (bufferIndex p) (buffer p)
    = repeat zero_sample (SENTENCE_SAMPLES_PER_WINDOW - bufferIndex p) /\
  skipn (12 * bufferIndex p) (flatten_buffer (buffer p))
    = repeat F32.zero (12 * (SENTENCE_SAMPLES_PER_WINDOW - bufferIndex p)).
Proof.
  apply (unwritten_slots_are_zero demo_model [OpStart 0%Z]).
  left. reflexivity.
Defined.

(** Feature 17 is field 5 (gdp) of the sample in slot 1. *)
Lemma feature_layout_witness :
  let p := run demo_model [] SentencePredictor_new in
  length (flatten_buffer (buffer p)) = 960 /\
  nth (12 * 1 + 5) (flatten_buffer (buffer p)) F32.zero
    = nth 5 (sample_fields (nth 1 (buffer p) zero_sample)) F32.zero.
Proof.
  apply (feature_layout demo_model [] 1 5).
  - unfold SENTENCE_SAMPLES_PER_WINDOW. lia.
  - lia.
Defined.

(** Two spaced samples after a start land in slots 0 and 1. *)
Lemma samples_stored_in_order_witness :
  buffer (add_samples demo_calls (startRecording 0 SentencePredictor_new))
    = [demo_sample; zero_sample] ++ repeat zero_sample 78.
Proof.
  apply (samples_stored_in_order SentencePredictor_new 0 demo_calls).
  reflexivity.
Defined.

(** With the first sample 400 ms after the start, two samples leave the
    cursor at 2, far from 80. *)
Lemma late_samples_never_fill_witness :
  let q := add_samples [(400%Z, demo_sample); (450%Z, demo_sample)]
             (startRecording 0 SentencePredictor_new) in
  (50 * Z.of_nat (bufferIndex q) + 400 < 4100)%Z /\
  ((100 <= 400)%Z ->
   bufferIndex q < SENTENCE_SAMPLES_PER_WINDOW /\
   (bufferFilled q = true -> (4000 <= lastSampleTime q - 0)%Z)).
Proof.
  apply (late_samples_never_fill SentencePredictor_new 0 400
           [(400%Z, demo_sample); (450%Z, demo_sample)]).
  - lia.
  - lia.
  - repeat (apply Forall_cons; [simpl; lia|]). apply Forall_nil.
  - repeat (apply SSorted_cons;
            [|repeat (apply Forall_cons; [simpl; lia|]); apply Forall_nil]).
    apply SSorted_nil.
Defined.

(** The search on [demo_model] keeps two entries, sorted. *)
Lemma kept_list_invariants_witness :
  length (knn_nearest demo_model demo_query) = 2 /\
  sorted_by_dist (knn_nearest demo_model demo_query).
Proof.
  assert (K : 0 < SENTENCE_KNN_N_NEIGHBORS demo_model) by (simpl; lia).
  destruct (kept_list_invariants demo_model K demo_query) as (L & S & _).
  split; [exact L|exact S].
Defined.

(** The prediction on the completed window of [demo_model]. *)
Lemma mean_distance_and_confidence_in_range_witness :
  labels_in_range demo_model = true /\
  nonneg_finite (snd (snd (predict demo_model demo_window))) /\
  F32.ltb F32.zero (confidence (snd (snd (predict demo_model demo_window))))
    = true /\
  F32.leb (confidence (snd (snd (predict demo_model demo_window)))) F32.one
    = true.
Proof.
  assert (K : 0 < SENTENCE_KNN_N_NEIGHBORS demo_model) by (simpl; lia).
  assert (S : (Z.of_nat (SENTENCE_KNN_N_NEIGHBORS demo_model) < 16777216)%Z)
    by (simpl; lia).
  assert (C : 0 < SENTENCE_NUM_CLASSES demo_model) by (simpl; lia).
  assert (L : labels_in_range demo_model = true) by reflexivity.
  destruct (mean_distance_and_confidence_in_range demo_model K S C L
              demo_window)
    as (_ & A & _ & _ & B & D & _).
  split; [exact L|]. split; [exact A|]. split; [exact B|exact D].
Defined.


(** On [far_model] no row is below 1e9: the kept list is the initial
    entry and the label is 0. *)
Lemma short_dataset_keeps_sentinels_witness :
  knn_nearest far_model demo_query = [(F32.lit_1e9, 0)] /\
  fst (predictSentenceKNN far_model demo_query) = 0.
Proof.
  assert (K : 0 < SENTENCE_KNN_N_NEIGHBORS far_model) by (simpl; lia).
  destruct (short_dataset_keeps_sentinels far_model K demo_query) as [E Z].
  - vm_compute. lia.
  - split; [exact E|]. apply Z. reflexivity.
Defined.

(** Two passes on [demo_model]: what is printed is in range. *)
Lemma loop_outputs_in_range_witness :
  labels_in_range demo_model = true /\
  bufferFilled (sentencePredictor
                  (fst (loop_run demo_model demo_passes Globals_init)))
    = false /\
  Forall (output_in_range demo_model)
         (snd (loop_run demo_model demo_passes Globals_init)).
Proof.
  assert (K : 0 < SENTENCE_KNN_N_NEIGHBORS demo_model) by (simpl; lia).
  assert (S : (Z.of_nat (SENTENCE_KNN_N_NEIGHBORS demo_model) < 16777216)%Z)
    by (simpl; lia).
  assert (C : 0 < SENTENCE_NUM_CLASSES demo_model) by (simpl; lia).
  assert (L : labels_in_range demo_model = true) by reflexivity.
  destruct (loop_outputs_in_range demo_model K S C L demo_passes)
    as (_ & F & _ & _ & O).
  split; [exact L|]. split; [exact F|exact O].
Defined.

(** The pass at 4000 of a recording started at 0 completes the window:
    it reports a progress of 0.0 and leaves the predictor idle. *)
Lemma completing_pass_witness :
  let '(g', out, taken) :=
    sentence_branch demo_model demo_sample 4000 4000 demo_recording in
  taken = true /\
  nth 0 out EvGesture = EvProgress F32.zero /\
  isRecording (sentencePredictor g') = false /\
  sentenceModeActive g' = false.
Proof.
  pose proof (completing_pass demo_model demo_sample 4000 4000 demo_recording
                eq_refl eq_refl eq_refl) as H.
  cbv zeta in H.
  destruct (sentence_branch demo_model demo_sample 4000 4000 demo_recording)
    as [[g' out] taken].
  destruct H as (T & O & _ & R & _ & _ & A).
  split; [exact T|]. split; [rewrite O; reflexivity|]. split; [exact R|exact A].
Defined.

(** The most negative reading is exactly -2 g. *)
Lemma sensor_scaling_spec_witness :
  (float_to_Q (accel_to_g (-32768)) == (-2) # 1)%Q.
Proof.
  destruct (sensor_scaling_spec (-32768) ltac:(lia)) as (_ & E & _).
  rewrite E. reflexivity.
Defined.
